(** * log_manager: the goroutine life-cycle manager

    A verification development for [pkg/utils/goroutine]: the bounded-wait
    primitives [WaitCancelWithTimeout] / [WaitGroupWithTimeout] and the
    [GoroutineManager] built on them.

    The Go methods are embedded as programs of a small free monad whose
    operations are the primitive effects the source performs (mutex, map,
    [context], [sync.WaitGroup], channels, timers, [go], [select]).  A labelled
    small-step semantics gives each effect its meaning on an explicit shared
    state; two layers are built on top of it:
    - [run]: one call seen from its own goroutine, with the moves of all other
      goroutines abstracted by a rely relation;
    - [step]: the interleaving semantics of a pool of goroutines, used for the
      global invariants (lock discipline, counter accounting, scope tree). *)

From stdpp Require Import gmap strings list fin_maps.
From Stdlib Require Import ZArith Lia.

Local Open Scope Z_scope.

(** ** Data model *)

(** [type WaitError int] with its three [iota] constants. *)
Inductive WaitError := WaitSuccess | WaitTimeout | WaitInvalidParam.

#[global] Instance WaitError_eq_dec : EqDecision WaitError.
Proof. solve_decision. Defined.

(** [time.Duration]: a signed count of nanoseconds. *)
Definition Duration := Z.

(** Identifiers: goroutines, heap addresses of [taskWrapper]s, channels. *)
Definition tid := nat.
Definition loc := nat.
Definition chan := nat.

(** A [context.CancelFunc] is identified by the cancel context it cancels. *)
Definition CancelFunc := nat.

(** A [context.Context] as the chain of its ancestors: [context.Background()]
    or a cancel context derived from a parent by [context.WithCancel]. *)
Inductive Context :=
| Background
| cancelCtx (id : nat) (parent : Context).

#[global] Instance Context_eq_dec : EqDecision Context.
Proof. solve_decision. Defined.

(** The registered callback [func(ctx context.Context)]: opaque to the manager,
    so only its identity is kept. *)
Definition TaskFn := nat.

(** [type taskWrapper struct]. *)
Record taskWrapper := mkTaskWrapper {
  childWG : Z;
  childCtx : Context;
  childCancel : CancelFunc;
  task : TaskFn
}.

(** [type GoroutineManager struct].  [mu] records which goroutine locked the
    mutex ([None]: unlocked); [tasks] maps a name to the address of its
    [*taskWrapper]. *)
Record GoroutineManager := mkGoroutineManager {
  mu : option tid;
  parentWG : Z;
  parentCtx : Context;
  parentCancel : CancelFunc;
  tasks : gmap string loc
}.

(** The shared store: the manager, the heap of task wrappers, the cancel
    contexts that have been cancelled, the closed channels and the clock. *)
Record State := mkState {
  gm : GoroutineManager;
  heap : gmap loc taskWrapper;
  cancelled : gset nat;
  next_ctx : nat;
  closed : gset chan;
  next_chan : chan;
  now : Z
}.

(** The errors built with [fmt.Errorf]; a Go [error] is [nil] or one of them. *)
Inductive Error :=
| ErrGoroutineTimeout (name : string) (timeout : Duration)
| ErrGoroutinesTimeout (timeout : Duration)
| ErrTaskNotExist (name : string).

Definition error := option Error.

(** A pointer to a [sync.WaitGroup]: [&gm.parentWG] or [&t.childWG]. *)
Inductive wgref := ParentWG | ChildWG (t : loc).

#[global] Instance wgref_eq_dec : EqDecision wgref.
Proof. solve_decision. Defined.

(** The receive cases of a [select]: [<-ctx.Done()], a receive on a channel
    that is only ever closed, and a receive on the channel of [time.After]
    (identified by the instant at which it fires). *)
Inductive RecvCase :=
| RecvCtxDone (ctx : Context)
| RecvChan (c : chan)
| RecvTimer (deadline : Z).

(** ** Record updates *)

Definition set_mu (m : option tid) (g : GoroutineManager) : GoroutineManager :=
  mkGoroutineManager m (parentWG g) (parentCtx g) (parentCancel g) (tasks g).
Definition set_parentWG (n : Z) (g : GoroutineManager) : GoroutineManager :=
  mkGoroutineManager (mu g) n (parentCtx g) (parentCancel g) (tasks g).
Definition set_tasks (m : gmap string loc) (g : GoroutineManager) : GoroutineManager :=
  mkGoroutineManager (mu g) (parentWG g) (parentCtx g) (parentCancel g) m.
Definition set_childWG (n : Z) (w : taskWrapper) : taskWrapper :=
  mkTaskWrapper n (childCtx w) (childCancel w) (task w).

Definition set_gm (g : GoroutineManager) (s : State) : State :=
  mkState g (heap s) (cancelled s) (next_ctx s) (closed s) (next_chan s) (now s).
Definition set_heap (h : gmap loc taskWrapper) (s : State) : State :=
  mkState (gm s) h (cancelled s) (next_ctx s) (closed s) (next_chan s) (now s).
Definition set_cancelled (c : gset nat) (s : State) : State :=
  mkState (gm s) (heap s) c (next_ctx s) (closed s) (next_chan s) (now s).
Definition set_next_ctx (n : nat) (s : State) : State :=
  mkState (gm s) (heap s) (cancelled s) n (closed s) (next_chan s) (now s).
Definition set_closed (c : gset chan) (s : State) : State :=
  mkState (gm s) (heap s) (cancelled s) (next_ctx s) c (next_chan s) (now s).
Definition set_next_chan (n : chan) (s : State) : State :=
  mkState (gm s) (heap s) (cancelled s) (next_ctx s) (closed s) n (now s).
Definition set_now (n : Z) (s : State) : State :=
  mkState (gm s) (heap s) (cancelled s) (next_ctx s) (closed s) (next_chan s) n.

(** ** Contexts, wait groups and channels *)

(** [ctx.Done()] is closed once [ctx] or one of its ancestors was cancelled. *)
Fixpoint ctx_done (s : State) (ctx : Context) : bool :=
  match ctx with
  | Background => false
  | cancelCtx id parent => bool_decide (id ∈ cancelled s) || ctx_done s parent
  end.

(** The counter behind a wait-group pointer ([None]: dangling pointer). *)
Definition wg_get (s : State) (w : wgref) : option Z :=
  match w with
  | ParentWG => Some (parentWG (gm s))
  | ChildWG t => childWG <$> heap s !! t
  end.

Definition wg_set (w : wgref) (n : Z) (s : State) : State :=
  match w with
  | ParentWG => set_gm (set_parentWG n (gm s)) s
  | ChildWG t => set_heap (alter (set_childWG n) t (heap s)) s
  end.

(** Whether a receive case can proceed. *)
Definition ready (s : State) (c : RecvCase) : bool :=
  match c with
  | RecvCtxDone ctx => ctx_done s ctx
  | RecvChan ch => bool_decide (ch ∈ closed s)
  | RecvTimer deadline => bool_decide (deadline ≤ now s)
  end.

(** ** Programs

    One constructor per primitive effect of the source; [k] is the rest of the
    goroutine. *)
Inductive Prog (R : Type) : Type :=
| Ret (r : R)
| MuLock (k : Prog R)                                   (* gm.mu.Lock() *)
| MuUnlock (k : Prog R)                                 (* gm.mu.Unlock() *)
| GetParentCtx (k : Context → Prog R)                   (* gm.parentCtx *)
| GetParentCancel (k : CancelFunc → Prog R)             (* gm.parentCancel *)
| TasksLookup (name : string) (k : option loc → Prog R) (* t, exists := gm.tasks[name] *)
| TasksStore (name : string) (t : loc) (k : Prog R)     (* gm.tasks[name] = t *)
| TasksDelete (name : string) (k : Prog R)              (* delete(gm.tasks, name) *)
| TasksRange (k : list loc → Prog R)                    (* for _, t := range gm.tasks *)
| NewTaskWrapper (ctx : Context) (cancel : CancelFunc) (f : TaskFn)
    (k : loc → Prog R)                                  (* &taskWrapper{...} *)
| Deref (t : loc) (k : taskWrapper → Prog R)            (* reading t's fields *)
| WithCancel (parent : Context)
    (k : Context → CancelFunc → Prog R)                 (* context.WithCancel(parent) *)
| CallCancel (c : CancelFunc) (k : Prog R)              (* cancel() *)
| WgAdd (w : wgref) (delta : Z) (k : Prog R)            (* wg.Add(delta) *)
| WgDone (w : wgref) (k : Prog R)                       (* wg.Done() *)
| WgWait (w : wgref) (k : Prog R)                       (* wg.Wait() *)
| Go (g : Prog unit) (k : Prog R)                       (* go func() {...}() *)
| MakeChan (k : chan → Prog R)                          (* make(chan struct{}) *)
| CloseChan (c : chan) (k : Prog R)                     (* close(c) *)
| TimeAfter (d : Duration) (k : Z → Prog R)             (* time.After(d) *)
| Select (cases : list RecvCase) (k : nat → Prog R)     (* select { case ... } *)
| CallTask (f : TaskFn) (ctx : Context) (k : Prog R).   (* f(ctx) *)

Arguments Ret {R} r.
Arguments MuLock {R} k.
Arguments MuUnlock {R} k.
Arguments GetParentCtx {R} k.
Arguments GetParentCancel {R} k.
Arguments TasksLookup {R} name k.
Arguments TasksStore {R} name t k.
Arguments TasksDelete {R} name k.
Arguments TasksRange {R} k.
Arguments NewTaskWrapper {R} ctx cancel f k.
Arguments Deref {R} t k.
Arguments WithCancel {R} parent k.
Arguments CallCancel {R} c k.
Arguments WgAdd {R} w delta k.
Arguments WgDone {R} w k.
Arguments WgWait {R} w k.
Arguments Go {R} g k.
Arguments MakeChan {R} k.
Arguments CloseChan {R} c k.
Arguments TimeAfter {R} d k.
Arguments Select {R} cases k.
Arguments CallTask {R} f ctx k.

(** Sequencing. *)
Fixpoint bind {A B : Type} (p : Prog A) (f : A → Prog B) : Prog B :=
  match p with
  | Ret r => f r
  | MuLock k => MuLock (bind k f)
  | MuUnlock k => MuUnlock (bind k f)
  | GetParentCtx k => GetParentCtx (λ x, bind (k x) f)
  | GetParentCancel k => GetParentCancel (λ x, bind (k x) f)
  | TasksLookup n k => TasksLookup n (λ x, bind (k x) f)
  | TasksStore n t k => TasksStore n t (bind k f)
  | TasksDelete n k => TasksDelete n (bind k f)
  | TasksRange k => TasksRange (λ x, bind (k x) f)
  | NewTaskWrapper c cf tf k => NewTaskWrapper c cf tf (λ x, bind (k x) f)
  | Deref t k => Deref t (λ x, bind (k x) f)
  | WithCancel c k => WithCancel c (λ x y, bind (k x y) f)
  | CallCancel c k => CallCancel c (bind k f)
  | WgAdd w d k => WgAdd w d (bind k f)
  | WgDone w k => WgDone w (bind k f)
  | WgWait w k => WgWait w (bind k f)
  | Go g k => Go g (bind k f)
  | MakeChan k => MakeChan (λ x, bind (k x) f)
  | CloseChan c k => CloseChan c (bind k f)
  | TimeAfter d k => TimeAfter d (λ x, bind (k x) f)
  | Select cs k => Select cs (λ x, bind (k x) f)
  | CallTask tf c k => CallTask tf c (bind k f)
  end.

#[global] Instance Prog_ret : MRet Prog := @Ret.
#[global] Instance Prog_bind : MBind Prog := λ A B f p, bind p f.

(** The single effects as programs. *)
Definition mu_Lock : Prog unit := MuLock (Ret tt).
Definition mu_Unlock : Prog unit := MuUnlock (Ret tt).
Definition get_parentCtx : Prog Context := GetParentCtx Ret.
Definition get_parentCancel : Prog CancelFunc := GetParentCancel Ret.
Definition tasks_lookup (name : string) : Prog (option loc) := TasksLookup name Ret.
Definition tasks_store (name : string) (t : loc) : Prog unit := TasksStore name t (Ret tt).
Definition tasks_delete (name : string) : Prog unit := TasksDelete name (Ret tt).
Definition tasks_range : Prog (list loc) := TasksRange Ret.
Definition new_taskWrapper (ctx : Context) (cancel : CancelFunc) (f : TaskFn) : Prog loc :=
  NewTaskWrapper ctx cancel f Ret.
Definition deref (t : loc) : Prog taskWrapper := Deref t Ret.
Definition context_WithCancel (parent : Context) : Prog (Context * CancelFunc) :=
  WithCancel parent (λ ctx cancel, Ret (ctx, cancel)).
Definition call_cancel (c : CancelFunc) : Prog unit := CallCancel c (Ret tt).
Definition wg_Add (w : wgref) (delta : Z) : Prog unit := WgAdd w delta (Ret tt).
Definition wg_Done (w : wgref) : Prog unit := WgDone w (Ret tt).
Definition wg_Wait (w : wgref) : Prog unit := WgWait w (Ret tt).
Definition go (g : Prog unit) : Prog unit := Go g (Ret tt).
Definition make_chan : Prog chan := MakeChan Ret.
Definition close_chan (c : chan) : Prog unit := CloseChan c (Ret tt).
Definition time_After (d : Duration) : Prog Z := TimeAfter d Ret.
Definition select (cases : list RecvCase) : Prog nat := Select cases Ret.
Definition recv (c : RecvCase) : Prog unit := Select [c] (λ _, Ret tt).
Definition call_task (f : TaskFn) (ctx : Context) : Prog unit := CallTask f ctx (Ret tt).

(** [defer d] at the top of a function body: [d] runs when the body returns,
    and the function returns the body's result. *)
Definition defer {R : Type} (d : Prog unit) (body : Prog R) : Prog R :=
  r ← body; d;; mret r.

(** ** The source, embedded *)

(** [func WaitCancelWithTimeout(ctx context.Context, timeout time.Duration) WaitError] *)
Definition WaitCancelWithTimeout (ctx : Context) (timeout : Duration) : Prog WaitError :=
  if decide (timeout < 0) then
    recv (RecvCtxDone ctx);;
    mret WaitSuccess
  else
    timer ← time_After timeout;
    i ← select [RecvCtxDone ctx; RecvTimer timer];
    match i with
    | O => mret WaitSuccess
    | _ => mret WaitTimeout
    end.

(** [func WaitGroupWithTimeout(wg *sync.WaitGroup, timeout time.Duration) WaitError];
    a nil [wg] is [None]. *)
Definition WaitGroupWithTimeout (wg : option wgref) (timeout : Duration) : Prog WaitError :=
  match wg with
  | None => mret WaitInvalidParam
  | Some wg =>
      if decide (timeout < 0) then
        wg_Wait wg;;
        mret WaitSuccess
      else
        done ← make_chan;
        go (defer (close_chan done) (wg_Wait wg));;
        timer ← time_After timeout;
        i ← select [RecvChan done; RecvTimer timer];
        match i with
        | O => mret WaitSuccess
        | _ => mret WaitTimeout
        end
  end.

(** [func NewGoroutineManager() *GoroutineManager]: the parent context is the
    first cancel context, derived from [context.Background()]. *)
Definition NewGoroutineManager : State :=
  {| gm := {| mu := None; parentWG := 0;
              parentCtx := cancelCtx 0 Background; parentCancel := 0%nat;
              tasks := ∅ |};
     heap := ∅; cancelled := ∅; next_ctx := 1%nat;
     closed := ∅; next_chan := 0%nat; now := 0 |}.

(** [func (gm *GoroutineManager) AddTask(name string, task func(ctx context.Context))] *)
Definition AddTask (name : string) (task : TaskFn) : Prog unit :=
  mu_Lock;;
  defer mu_Unlock (
    pctx ← get_parentCtx;
    '(ctx, cancel) ← context_WithCancel pctx;
    t ← new_taskWrapper ctx cancel task;
    tasks_store name t).

(** [func (gm *GoroutineManager) RemoveTask(name string, timeout time.Duration) error] *)
Definition RemoveTask (name : string) (timeout : Duration) : Prog error :=
  mu_Lock;;
  defer mu_Unlock (
    t ← tasks_lookup name;
    match t with
    | Some t =>
        w ← deref t;
        call_cancel (childCancel w);;
        r ← WaitGroupWithTimeout (Some (ChildWG t)) timeout;
        if decide (r ≠ WaitSuccess) then
          mret (Some (ErrGoroutineTimeout name timeout))
        else
          tasks_delete name;;
          mret None
    | None => mret None
    end).

(** The goroutine launched by [Start] and [StartAll]:
    [defer func() { tw.childWG.Done(); gm.parentWG.Done() }(); tw.task(tw.childCtx)]. *)
Definition task_goroutine (tw : loc) : Prog unit :=
  defer (wg_Done (ChildWG tw);; wg_Done ParentWG) (
    w ← deref tw;
    call_task (task w) (childCtx w)).

(** The body of the [for _, t := range gm.tasks] loop of [StartAll]. *)
Fixpoint StartAll_loop (ts : list loc) : Prog unit :=
  match ts with
  | [] => mret tt
  | t :: ts =>
      wg_Add ParentWG 1;;
      wg_Add (ChildWG t) 1;;
      go (task_goroutine t);;
      StartAll_loop ts
  end.

(** [func (gm *GoroutineManager) StartAll()] *)
Definition StartAll : Prog unit :=
  mu_Lock;;
  defer mu_Unlock (
    ts ← tasks_range;
    StartAll_loop ts).

(** [func (gm *GoroutineManager) StopAll(timeout time.Duration) error] *)
Definition StopAll (timeout : Duration) : Prog error :=
  mu_Lock;;
  defer mu_Unlock (
    cancel ← get_parentCancel;
    call_cancel cancel;;
    r ← WaitGroupWithTimeout (Some ParentWG) timeout;
    if decide (r ≠ WaitSuccess) then
      mret (Some (ErrGoroutinesTimeout timeout))
    else
      mret None).

(** [func (gm *GoroutineManager) Start(name string) error] *)
Definition Start (name : string) : Prog error :=
  mu_Lock;;
  defer mu_Unlock (
    t ← tasks_lookup name;
    match t with
    | None => mret (Some (ErrTaskNotExist name))
    | Some t =>
        wg_Add ParentWG 1;;
        wg_Add (ChildWG t) 1;;
        go (task_goroutine t);;
        mret None
    end).

(** [func (gm *GoroutineManager) Stop(name string, timeout time.Duration) error] *)
Definition Stop (name : string) (timeout : Duration) : Prog error :=
  mu_Lock;;
  defer mu_Unlock (
    t ← tasks_lookup name;
    match t with
    | Some t =>
        w ← deref t;
        call_cancel (childCancel w);;
        r ← WaitGroupWithTimeout (Some (ChildWG t)) timeout;
        if decide (r ≠ WaitSuccess) then
          mret (Some (ErrGoroutineTimeout name timeout))
        else
          mret None
    | None => mret None
    end).

(** ** Semantics of one goroutine *)

(** What a goroutine does in one step. *)
Inductive act :=
| ALock
| AUnlock
| AGetParentCtx
| AGetParentCancel
| ALookup (name : string) (r : option loc)
| AStore (name : string) (t : loc)
| ADelete (name : string)
| ARange (ts : list loc)
| ANew (t : loc)
| ADeref (t : loc)
| AWithCancel (id : nat)
| ACancel (c : CancelFunc)
| AAdd (w : wgref) (delta : Z)
| ADone (w : wgref)
| AWait (w : wgref)
| AGo (g : Prog unit)
| AMakeChan (c : chan)
| AClose (c : chan)
| ATimeAfter (deadline : Z)
| ASelect (i : nat)
| ACallTask (f : TaskFn) (ctx : Context).

(** [tstep t s p a s' p']: goroutine [t], about to run [p] in store [s],
    performs [a], leaving store [s'] and the rest [p'].  A step that is not
    derivable blocks ([Lock] on a locked mutex, [Wait] on a positive counter,
    [select] with no ready case) or is a run-time panic (negative counter,
    closing a closed channel, nil dereference), which ends the process. *)
Inductive tstep {R : Type} (t : tid) : State → Prog R → act → State → Prog R → Prop :=
| step_Lock s k :
    mu (gm s) = None →
    tstep t s (MuLock k) ALock (set_gm (set_mu (Some t) (gm s)) s) k
| step_Unlock s k h :
    mu (gm s) = Some h →
    tstep t s (MuUnlock k) AUnlock (set_gm (set_mu None (gm s)) s) k
| step_GetParentCtx s k :
    tstep t s (GetParentCtx k) AGetParentCtx s (k (parentCtx (gm s)))
| step_GetParentCancel s k :
    tstep t s (GetParentCancel k) AGetParentCancel s (k (parentCancel (gm s)))
| step_Lookup s name k :
    tstep t s (TasksLookup name k) (ALookup name (tasks (gm s) !! name)) s
      (k (tasks (gm s) !! name))
| step_Store s name l k :
    tstep t s (TasksStore name l k) (AStore name l)
      (set_gm (set_tasks (<[name := l]> (tasks (gm s))) (gm s)) s) k
| step_Delete s name k :
    tstep t s (TasksDelete name k) (ADelete name)
      (set_gm (set_tasks (delete name (tasks (gm s))) (gm s)) s) k
| step_Range s ts k :
    ts ≡ₚ (map_to_list (tasks (gm s))).*2 →
    tstep t s (TasksRange k) (ARange ts) s (k ts)
| step_New s ctx cancel f l k :
    heap s !! l = None →
    tstep t s (NewTaskWrapper ctx cancel f k) (ANew l)
      (set_heap (<[l := mkTaskWrapper 0 ctx cancel f]> (heap s)) s) (k l)
| step_Deref s l w k :
    heap s !! l = Some w →
    tstep t s (Deref l k) (ADeref l) s (k w)
| step_WithCancel s parent k :
    tstep t s (WithCancel parent k) (AWithCancel (next_ctx s))
      (set_next_ctx (S (next_ctx s)) s)
      (k (cancelCtx (next_ctx s) parent) (next_ctx s))
| step_Cancel s c k :
    tstep t s (CallCancel c k) (ACancel c)
      (set_cancelled ({[c]} ∪ cancelled s) s) k
| step_Add s w delta n k :
    wg_get s w = Some n →
    0 ≤ n + delta →
    tstep t s (WgAdd w delta k) (AAdd w delta) (wg_set w (n + delta) s) k
| step_Done s w n k :
    wg_get s w = Some n →
    0 < n →
    tstep t s (WgDone w k) (ADone w) (wg_set w (n - 1) s) k
| step_Wait s w k :
    wg_get s w = Some 0 →
    tstep t s (WgWait w k) (AWait w) s k
| step_Go s g k :
    tstep t s (Go g k) (AGo g) s k
| step_MakeChan s k :
    tstep t s (MakeChan k) (AMakeChan (next_chan s))
      (set_next_chan (S (next_chan s)) s) (k (next_chan s))
| step_Close s c k :
    c ∉ closed s →
    tstep t s (CloseChan c k) (AClose c) (set_closed ({[c]} ∪ closed s) s) k
| step_TimeAfter s d k :
    tstep t s (TimeAfter d k) (ATimeAfter (now s + d)) s (k (now s + d))
| step_Select s cases i c k :
    cases !! i = Some c →
    ready s c = true →
    tstep t s (Select cases k) (ASelect i) s (k i)
| step_CallTask s f ctx k :
    tstep t s (CallTask f ctx k) (ACallTask f ctx) s k.

(** A goroutine's own steps, each with the store before and after it. *)
Definition trace := list (State * act * State).

(** [run t E s p tr s' r]: started in store [s], goroutine [t] runs [p] to
    completion with result [r]; [tr] lists its own steps and [s'] is the store
    right after the last of them.  Before each of its steps the other
    goroutines may change the store as [E] allows. *)
Inductive run {R : Type} (t : tid) (E : State → State → Prop) :
    State → Prog R → trace → State → R → Prop :=
| run_Ret s r :
    run t E s (Ret r) [] s r
| run_Step s s1 p a s2 p2 tr s' r :
    E s s1 →
    tstep t s1 p a s2 p2 →
    run t E s2 p2 tr s' r →
    run t E s p ((s1, a, s2) :: tr) s' r.

(** The actions of a trace, and the goroutines it launched. *)
Definition acts (tr : trace) : list act := (λ x, x.1.2) <$> tr.

Definition launched (tr : trace) : list (Prog unit) :=
  omap (λ x, match x.1.2 with AGo g => Some g | _ => None end) tr.

(** ** Well-formed stores *)

(** What every store built by the manager satisfies: the parent context is a
    cancel context derived from [context.Background()]; every task wrapper holds
    a child of the parent context together with its own cancel function, and
    no two wrappers share one; the registry points into the heap, to a
    different wrapper for each name; the counters are not negative. *)
Record wf (s : State) : Prop := {
  wf_parentCtx : parentCtx (gm s) = cancelCtx (parentCancel (gm s)) Background;
  wf_parent_alloc : (parentCancel (gm s) < next_ctx s)%nat;
  wf_cancelled : ∀ id, id ∈ cancelled s → (id < next_ctx s)%nat;
  wf_childCtx : ∀ l w, heap s !! l = Some w →
    childCtx w = cancelCtx (childCancel w) (parentCtx (gm s));
  wf_child_alloc : ∀ l w, heap s !! l = Some w →
    (childCancel w < next_ctx s)%nat ∧ childCancel w ≠ parentCancel (gm s);
  wf_child_inj : ∀ l1 l2 w1 w2, heap s !! l1 = Some w1 → heap s !! l2 = Some w2 →
    childCancel w1 = childCancel w2 → l1 = l2;
  wf_tasks : ∀ name l, tasks (gm s) !! name = Some l → is_Some (heap s !! l);
  wf_tasks_inj : ∀ n1 n2 l, tasks (gm s) !! n1 = Some l →
    tasks (gm s) !! n2 = Some l → n1 = n2;
  wf_parentWG : 0 ≤ parentWG (gm s);
  wf_childWG : ∀ l w, heap s !! l = Some w → 0 ≤ childWG w
}.

(** ** Interference

    [rely t s s']: what the goroutines other than [t] may do to the store
    between two steps of [t].  Cancellation, closed channels and the clock only
    grow, and the fields of a task wrapper other than its counter never change.
    While [t] holds the mutex no one else changes the registry, cancels a
    context, allocates, or increments a counter.  (That the other goroutines of
    a manager do behave so is [step_rely] below.) *)
Record rely (t : tid) (s s' : State) : Prop := {
  rely_wf : wf s → wf s';
  rely_parentCtx : parentCtx (gm s') = parentCtx (gm s);
  rely_parentCancel : parentCancel (gm s') = parentCancel (gm s);
  rely_cancelled : cancelled s ⊆ cancelled s';
  rely_closed : closed s ⊆ closed s';
  rely_now : now s ≤ now s';
  rely_next_ctx : (next_ctx s ≤ next_ctx s')%nat;
  rely_next_chan : (next_chan s ≤ next_chan s')%nat;
  rely_heap : ∀ l w, heap s !! l = Some w →
    ∃ n, heap s' !! l = Some (set_childWG n w);
  rely_free : mu (gm s) ≠ Some t → mu (gm s') ≠ Some t;
  rely_held : mu (gm s) = Some t →
    mu (gm s') = Some t ∧
    tasks (gm s') = tasks (gm s) ∧
    cancelled s' = cancelled s ∧
    dom (heap s') = dom (heap s) ∧
    next_ctx s' = next_ctx s ∧
    next_chan s' = next_chan s ∧
    parentWG (gm s') ≤ parentWG (gm s) ∧
    (∀ l w w', heap s !! l = Some w → heap s' !! l = Some w' →
       childWG w' ≤ childWG w)
}.

(** No interference at all: the goroutine runs alone. *)
Definition alone (s s' : State) : Prop := s = s'.

(** ** The pool of goroutines *)

(** The calls a client can make on the manager. *)
Inductive Call :=
| CallAddTask (name : string) (task : TaskFn)
| CallRemoveTask (name : string) (timeout : Duration)
| CallStartAll
| CallStopAll (timeout : Duration)
| CallStart (name : string)
| CallStop (name : string) (timeout : Duration).

(** A goroutine: a call returning an [error], or one returning nothing (the
    calls [AddTask] and [StartAll] and the goroutines launched with [go]). *)
Inductive Thread :=
| ThErr (p : Prog error)
| ThUnit (p : Prog unit).

Definition call_thread (c : Call) : Thread :=
  match c with
  | CallAddTask name f => ThUnit (AddTask name f)
  | CallRemoveTask name d => ThErr (RemoveTask name d)
  | CallStartAll => ThUnit StartAll
  | CallStopAll d => ThErr (StopAll d)
  | CallStart name => ThErr (Start name)
  | CallStop name d => ThErr (Stop name d)
  end.

Definition spawned (a : act) : list Thread :=
  match a with
  | AGo g => [ThUnit g]
  | _ => []
  end.

(** A configuration: the store and the goroutines, indexed by their position. *)
Definition Config : Type := State * list Thread.

(** One step of the whole system: goroutine [t] takes a step (and may launch
    another), time passes, or a client goroutine arrives with a call.  The
    second argument tells which goroutine moved. *)
Inductive step : Config → option tid → Config → Prop :=
| step_err s pool t p a s' p' :
    pool !! t = Some (ThErr p) →
    tstep t s p a s' p' →
    step (s, pool) (Some t) (s', <[t := ThErr p']> pool ++ spawned a)
| step_unit s pool t p a s' p' :
    pool !! t = Some (ThUnit p) →
    tstep t s p a s' p' →
    step (s, pool) (Some t) (s', <[t := ThUnit p']> pool ++ spawned a)
| step_tick s pool d :
    0 < d →
    step (s, pool) None (set_now (now s + d) s, pool)
| step_call s pool c :
    step (s, pool) None (s, pool ++ [call_thread c]).

(** The configurations a manager can be in: from [NewGoroutineManager()], any
    number of steps. *)
Inductive reachable : Config → Prop :=
| reachable_init : reachable (NewGoroutineManager, [])
| reachable_step c who c' : reachable c → step c who c' → reachable c'.

(** ** Relations between stores used in the statements *)

(** Every wrapper of [h] is still in [h'], with the same context, cancel
    function and task, and a counter that is not larger. *)
Definition wrappers_le (h h' : gmap loc taskWrapper) : Prop :=
  ∀ l w, h !! l = Some w → ∃ n, n ≤ childWG w ∧ h' !! l = Some (set_childWG n w).

(** What stays as it is between two points of a critical section in which the
    goroutine holding the mutex neither writes the registry, cancels a context
    nor starts a task: the mutex, the registry, the cancelled contexts and the
    set of wrappers; counters may have dropped, channels may have been closed,
    time may have passed. *)
Definition quiet (s s' : State) : Prop :=
  mu (gm s') = mu (gm s) ∧
  tasks (gm s') = tasks (gm s) ∧
  cancelled s' = cancelled s ∧
  dom (heap s') = dom (heap s) ∧
  wrappers_le (heap s) (heap s') ∧
  parentCtx (gm s') = parentCtx (gm s) ∧
  parentCancel (gm s') = parentCancel (gm s) ∧
  parentWG (gm s') ≤ parentWG (gm s) ∧
  next_ctx s' = next_ctx s ∧
  now s ≤ now s' ∧
  closed s ⊆ closed s'.

(** The goroutine launched by [WaitGroupWithTimeout]:
    [go func() { defer close(done); wg.Wait() }()]. *)
Definition wg_watcher (wg : wgref) (done : chan) : Prog unit :=
  defer (close_chan done) (wg_Wait wg).

(** The store after [gm.mu.Lock()] by [t], after [gm.mu.Unlock()], and after
    calling the cancel function [c]. *)
Definition lock_by (t : tid) (s : State) : State := set_gm (set_mu (Some t) (gm s)) s.
Definition unlock (s : State) : State := set_gm (set_mu None (gm s)) s.
Definition call_cancel_at (c : CancelFunc) (s : State) : State :=
  set_cancelled ({[c]} ∪ cancelled s) s.

(** A step that leaves the registry and the heap as they are. *)
Definition frame_step (x : State * act * State) : Prop :=
  tasks (gm x.2) = tasks (gm x.1.1) ∧ heap x.2 = heap x.1.1.

(** A program that never executes [delete(gm.tasks, name)], whatever values
    it reads, including in the goroutines it launches. *)
Fixpoint never_deletes {R : Type} (p : Prog R) : Prop :=
  match p with
  | Ret _ => True
  | TasksDelete _ _ => False
  | MuLock k | MuUnlock k | TasksStore _ _ k | CallCancel _ k
  | WgAdd _ _ k | WgDone _ k | WgWait _ k | CloseChan _ k | CallTask _ _ k =>
      never_deletes k
  | Go g k => never_deletes g ∧ never_deletes k
  | GetParentCtx k => ∀ x, never_deletes (k x)
  | GetParentCancel k => ∀ x, never_deletes (k x)
  | TasksLookup _ k => ∀ x, never_deletes (k x)
  | TasksRange k => ∀ x, never_deletes (k x)
  | NewTaskWrapper _ _ _ k => ∀ x, never_deletes (k x)
  | Deref _ k => ∀ x, never_deletes (k x)
  | WithCancel _ k => ∀ x y, never_deletes (k x y)
  | MakeChan k => ∀ x, never_deletes (k x)
  | TimeAfter _ k => ∀ x, never_deletes (k x)
  | Select _ k => ∀ x, never_deletes (k x)
  end.

(** A run of a goroutine of either kind, its result forgotten. *)
Definition run_thread (t : tid) (E : State → State → Prop) (s : State)
    (th : Thread) (tr : trace) (s' : State) : Prop :=
  match th with
  | ThErr p => ∃ r, run t E s p tr s' r
  | ThUnit p => ∃ r, run t E s p tr s' r
  end.

(** A step of a call on task [A] leaves every other registered task [B] alone:
    [B]'s entry, [B]'s wrapper (so its counter), whether [B]'s context is done
    and whether the parent context is done are the same after the step. *)
Definition isolated (A : string) (x : State * act * State) : Prop :=
  ∀ B lB wB, B ≠ A →
    tasks (gm x.1.1) !! B = Some lB → heap x.1.1 !! lB = Some wB →
    tasks (gm x.2) !! B = Some lB ∧
    heap x.2 !! lB = Some wB ∧
    ctx_done x.2 (childCtx wB) = ctx_done x.1.1 (childCtx wB) ∧
    ctx_done x.2 (parentCtx (gm x.1.1)) = ctx_done x.1.1 (parentCtx (gm x.1.1)).

(** ** Counting

    [Start] and [StartAll] increment the manager's counter and then the
    handle's; a task goroutine decrements the handle's and then the manager's.
    [mid p] is 1 when [p] is between the two halves of such a pair, and
    [act_delta a] is what the action [a] adds to the difference between the
    manager's counter and the sum of the handles' counters. *)
Definition mid {R : Type} (p : Prog R) : Z :=
  match p with
  | WgAdd (ChildWG _) _ _ => 1
  | WgDone ParentWG _ => 1
  | _ => 0
  end.

Definition act_delta (a : act) : Z :=
  match a with
  | AAdd ParentWG n => n
  | AAdd (ChildWG _) n => - n
  | ADone ParentWG => -1
  | ADone (ChildWG _) => 1
  | _ => 0
  end.

Definition mid_thread (th : Thread) : Z :=
  match th with
  | ThErr p => mid p
  | ThUnit p => mid p
  end.

(** The number of goroutines of the pool that are between the halves of a pair. *)
Definition mid_pool (pool : list Thread) : Z :=
  foldr (λ th acc, mid_thread th + acc) 0 pool.

(** The sum of the counters of all task wrappers ever allocated. *)
Definition sum_childWG (h : gmap loc taskWrapper) : Z :=
  map_fold (λ _ w acc, childWG w + acc) 0 h.

(** The sum of the counters of the handles of a registry [m], looked up in the
    heap [h]; and of the manager's registry. *)
Definition sum_handles (h : gmap loc taskWrapper) (m : gmap string loc) : Z :=
  map_fold (λ _ l acc, default 0 (childWG <$> h !! l) + acc) 0 m.

Definition sum_registered (s : State) : Z := sum_handles (heap s) (tasks (gm s)).

(** A schedule: the goroutine that moves at each step ([None] when time passes
    or a call arrives). *)
Inductive steps : Config → list (option tid) → Config → Prop :=
| steps_nil c : steps c [] c
| steps_cons c who c1 sched c' :
    step c who c1 → steps c1 sched c' → steps c (who :: sched) c'.

(** ** The discipline of the goroutines

    What a goroutine does while it does not hold the mutex. *)
Definition benign (a : act) : Prop :=
  match a with
  | ADeref _ | ACallTask _ _ | ADone _ | AWait _ | AClose _ => True
  | _ => False
  end.

(** A goroutine launched with [go]: it never touches the mutex, the registry,
    the contexts or the allocators, keeps the store well formed and decrements
    the counters in pairs. *)
Inductive bystander : Prog unit → Prop :=
| bystander_intro p :
    (∀ t s a s' p',
       wf s → tstep t s p a s' p' →
       benign a ∧ wf s' ∧ mid p' = mid p + act_delta a) →
    (∀ t s a s' p', wf s → tstep t s p a s' p' → bystander p') →
    bystander p.

(** The body of a critical section of goroutine [t], from store [s] on,
    whatever the other goroutines do meanwhile ([quiet]): it never locks,
    unlocks or calls a task, keeps the store well formed, increments the
    counters in pairs and launches only bystanders. *)
Inductive safe {R : Type} (t : tid) : State → Prog R → Prop :=
| safe_intro s p :
    (∀ s1 a s2 p2,
       quiet s s1 → wf s1 → mu (gm s1) = Some t → tstep t s1 p a s2 p2 →
       a ≠ ALock ∧ a ≠ AUnlock ∧ (∀ f ctx, a ≠ ACallTask f ctx) ∧
       wf s2 ∧ mu (gm s2) = Some t ∧
       mid p2 = mid p + act_delta a ∧
       (∀ g, a = AGo g → bystander g ∧ mid g = 0)) →
    (∀ s1 a s2 p2,
       quiet s s1 → wf s1 → mu (gm s1) = Some t → tstep t s1 p a s2 p2 →
       safe t s2 p2) →
    safe t s p.

(** A goroutine inside its critical section: a safe body, then the deferred
    [gm.mu.Unlock()]. *)
Definition crit {R : Type} (t : tid) (s : State) (p : Prog R) : Prop :=
  ∃ body : Prog R, p = bind body (λ r, MuUnlock (Ret r)) ∧ safe t s body.

(** A call outside its critical section: about to lock, or returned. *)
Definition idle {R : Type} (t : tid) (p : Prog R) : Prop :=
  (∃ r, p = Ret r) ∨
  (∃ k, p = MuLock k ∧ mid k = 0 ∧
        ∀ s, wf s → mu (gm s) = None → crit t (lock_by t s) k).

Definition outside (t : tid) (th : Thread) : Prop :=
  match th with
  | ThErr p => idle t p
  | ThUnit p => idle t p ∨ bystander p
  end.

Definition inside (t : tid) (s : State) (th : Thread) : Prop :=
  match th with
  | ThErr p => crit t s p
  | ThUnit p => crit t s p
  end.

(** Where goroutine [t] stands with respect to the mutex. *)
Definition status (s : State) (t : tid) (th : Thread) : Prop :=
  (mu (gm s) ≠ Some t ∧ outside t th) ∨ (mu (gm s) = Some t ∧ inside t s th).

(** A step of a goroutine of either kind. *)
Definition tstep_thread (t : tid) (s : State) (th : Thread) (a : act)
    (s' : State) (th' : Thread) : Prop :=
  match th, th' with
  | ThErr p, ThErr p' => tstep t s p a s' p'
  | ThUnit p, ThUnit p' => tstep t s p a s' p'
  | _, _ => False
  end.

(** The invariant of the system: the store is well formed; the mutex is held
    by a goroutine of the pool, which is inside its critical section, and all
    others are outside; and the manager's counter is the sum of the counters
    of all wrappers plus the number of goroutines between the halves of a
    pair. *)
Record inv (c : Config) : Prop := {
  inv_wf : wf c.1;
  inv_holder : ∀ t, mu (gm c.1) = Some t → (t < length c.2)%nat;
  inv_threads : ∀ t th, c.2 !! t = Some th → status c.1 t th;
  inv_count : parentWG (gm c.1) = sum_childWG (heap c.1) + mid_pool c.2
}.

(** A program blocked on, or about to perform, a wait: [wg.Wait()] or a
    [select]; a program about to call a task. *)
Definition is_wait {R : Type} (p : Prog R) : Prop :=
  match p with
  | WgWait _ _ | Select _ _ => True
  | _ => False
  end.

Definition is_task_call {R : Type} (p : Prog R) : Prop :=
  match p with
  | CallTask _ _ _ => True
  | _ => False
  end.

(** A goroutine that cannot take a step in a store. *)
Definition blocked {R : Type} (t : tid) (s : State) (p : Prog R) : Prop :=
  ∀ a s' p', ¬ tstep t s p a s' p'.

(** ** Example stores *)

(** The store after [AddTask("a", 7)] and [AddTask("b", 8)] on a new manager,
    and the store after [Start("a")] and [Start("b")] on that. *)
Definition two_tasks : State :=
  {| gm := {| mu := None; parentWG := 0;
              parentCtx := cancelCtx 0 Background; parentCancel := 0%nat;
              tasks := {["a" := 0%nat; "b" := 1%nat]} |};
     heap := {[0%nat := mkTaskWrapper 0 (cancelCtx 1 (cancelCtx 0 Background)) 1%nat 7%nat;
               1%nat := mkTaskWrapper 0 (cancelCtx 2 (cancelCtx 0 Background)) 2%nat 8%nat]};
     cancelled := ∅; next_ctx := 3%nat;
     closed := ∅; next_chan := 0%nat; now := 0 |}.

Definition two_running : State :=
  set_heap (alter (set_childWG 1) 1%nat (alter (set_childWG 1) 0%nat (heap two_tasks)))
    (set_gm (set_parentWG 2 (gm two_tasks)) two_tasks).

(** ** Further notions used in the statements *)

(** What [StartAll] does for the handles [ts], in order. *)
Definition start_acts (ts : list loc) : list act :=
  ts ≫= (λ l, [AAdd ParentWG 1; AAdd (ChildWG l) 1; AGo (task_goroutine l)]).

(** A step of a method's own, between its [Lock] and its [Unlock]: the
    goroutine holds the mutex before and after it, it is neither a lock, an
    unlock nor a call of a task body, and the store is well formed. *)
Definition inner_step (t : tid) (x : State * act * State) : Prop :=
  mu (gm x.1.1) = Some t ∧ mu (gm x.2) = Some t ∧
  x.1.2 ≠ ALock ∧ x.1.2 ≠ AUnlock ∧ (∀ f ctx, x.1.2 ≠ ACallTask f ctx) ∧
  wf x.1.1 ∧ wf x.2.

(** The actions on what the mutex protects: reading and writing the registry,
    reading the parent context and its cancel function, deriving and
    cancelling a context, creating a handle, incrementing a counter,
    launching a goroutine, and unlocking. *)
Definition guarded (a : act) : Prop :=
  match a with
  | AUnlock | AGetParentCtx | AGetParentCancel
  | ALookup _ _ | AStore _ _ | ADelete _ | ARange _
  | ANew _ | AWithCancel _ | ACancel _ | AAdd _ _ | AGo _ => True
  | _ => False
  end.

(** The head of a goroutine's program is [gm.mu.Unlock()], or
    [gm.parentWG.Done()]. *)
Definition at_unlock (th : Thread) : Prop :=
  match th with
  | ThErr (MuUnlock _) | ThUnit (MuUnlock _) => True
  | _ => False
  end.

Definition at_parent_done (th : Thread) : Prop :=
  match th with
  | ThErr (WgDone ParentWG _) | ThUnit (WgDone ParentWG _) => True
  | _ => False
  end.

(** A goroutine of either kind can take a step. *)
Definition can_step (t : tid) (s : State) (th : Thread) : Prop :=
  ∃ a s' th', tstep_thread t s th a s' th'.

(** ** What goroutines still owe

    A goroutine launched by the manager has something left to do for the
    counter of a handle (a [Done]) or for a channel (a [close]).  [gow g i] is
    what the launched goroutine [g] still owes to [i], and [delta a i] is what
    the action [a] adds to the balance of [i] in the store.  A method that is
    about to execute [go g] holds what [g] will owe. *)
Section Tracking.
Context {I : Type}.
Variable gow : Prog unit → I → Z.
Variable delta : act → I → Z.

Definition ow {R : Type} (p : Prog R) (i : I) : Z :=
  match p with
  | Go g _ => gow g i
  | _ => 0
  end.

Definition uow (p : Prog unit) (i : I) : Z := ow p i + gow p i.

Definition thread_owes (th : Thread) (i : I) : Z :=
  match th with
  | ThErr p => ow p i
  | ThUnit p => uow p i
  end.

Definition pool_owes (pool : list Thread) (i : I) : Z :=
  foldr (λ th acc, thread_owes th i + acc) 0 pool.

Definition spawn_owes (a : act) (i : I) : Z :=
  match a with
  | AGo g => uow g i
  | _ => 0
  end.

(** The step from [p] to [p'] by action [a] keeps the books: what the
    goroutine and the goroutine it launches owe afterwards is what it owed
    before plus what the action adds. *)
Definition keeps {R : Type} (F : Prog R → I → Z) (p : Prog R) (a : act)
    (p' : Prog R) : Prop :=
  ∀ i, F p' i + spawn_owes a i = F p i + delta a i.

(** Every step that [p] can ever take keeps the books, whatever values it
    reads, also in the goroutines it launches. *)
Fixpoint tracks {R : Type} (F : Prog R → I → Z) (p : Prog R) : Prop :=
  match p with
  | Ret _ => True
  | MuLock k => keeps F p ALock k ∧ tracks F k
  | MuUnlock k => keeps F p AUnlock k ∧ tracks F k
  | GetParentCtx k => ∀ x, keeps F p AGetParentCtx (k x) ∧ tracks F (k x)
  | GetParentCancel k => ∀ x, keeps F p AGetParentCancel (k x) ∧ tracks F (k x)
  | TasksLookup n k => ∀ x, keeps F p (ALookup n x) (k x) ∧ tracks F (k x)
  | TasksStore n t k => keeps F p (AStore n t) k ∧ tracks F k
  | TasksDelete n k => keeps F p (ADelete n) k ∧ tracks F k
  | TasksRange k => ∀ ts, keeps F p (ARange ts) (k ts) ∧ tracks F (k ts)
  | NewTaskWrapper _ _ _ k => ∀ l, keeps F p (ANew l) (k l) ∧ tracks F (k l)
  | Deref t k => ∀ w, keeps F p (ADeref t) (k w) ∧ tracks F (k w)
  | WithCancel _ k => ∀ ctx id, keeps F p (AWithCancel id) (k ctx id) ∧ tracks F (k ctx id)
  | CallCancel c k => keeps F p (ACancel c) k ∧ tracks F k
  | WgAdd w n k => keeps F p (AAdd w n) k ∧ tracks F k
  | WgDone w k => keeps F p (ADone w) k ∧ tracks F k
  | WgWait w k => keeps F p (AWait w) k ∧ tracks F k
  | Go g k => keeps F p (AGo g) k ∧ tracks uow g ∧ tracks F k
  | MakeChan k => ∀ c, keeps F p (AMakeChan c) (k c) ∧ tracks F (k c)
  | CloseChan c k => keeps F p (AClose c) k ∧ tracks F k
  | TimeAfter _ k => ∀ dl, keeps F p (ATimeAfter dl) (k dl) ∧ tracks F (k dl)
  | Select _ k => ∀ i, keeps F p (ASelect i) (k i) ∧ tracks F (k i)
  | CallTask f ctx k => keeps F p (ACallTask f ctx) k ∧ tracks F k
  end.

Definition tracks_thread (th : Thread) : Prop :=
  match th with
  | ThErr p => tracks ow p
  | ThUnit p => tracks uow p
  end.
End Tracking.

(** For the counter of handle [l]: a task goroutine owes one [Done] from its
    launch until it has executed [tw.childWG.Done()]. *)
Definition owes_done (p : Prog unit) (l : loc) : Z :=
  match p with
  | Deref l' _ | CallTask _ _ (WgDone (ChildWG l') _) | WgDone (ChildWG l') _ =>
      if decide (l' = l) then 1 else 0
  | _ => 0
  end.

Definition counter_delta (a : act) (l : loc) : Z :=
  match a with
  | AAdd (ChildWG l') n => if decide (l' = l) then n else 0
  | ADone (ChildWG l') => if decide (l' = l) then -1 else 0
  | _ => 0
  end.

(** The counter of handle [l] in the store (0 when there is no such handle). *)
Definition counter (s : State) (l : loc) : Z := default 0 (childWG <$> heap s !! l).

(** For channel [c]: a watcher owes one [close] until it has executed it. *)
Definition owes_close (p : Prog unit) (c : chan) : Z :=
  match p with
  | WgWait _ (CloseChan c' _) | CloseChan c' _ => if decide (c' = c) then 1 else 0
  | _ => 0
  end.

Definition chan_delta (a : act) (c : chan) : Z :=
  match a with
  | AMakeChan c' => if decide (c' = c) then 1 else 0
  | AClose c' => if decide (c' = c) then -1 else 0
  | _ => 0
  end.

(** 1 for a channel that has been made and not closed, 0 for the others (-1
    would be a closed channel that was never made). *)
Definition open_chan (s : State) (c : chan) : Z :=
  (if decide (c < next_chan s)%nat then 1 else 0) -
  (if decide (c ∈ closed s) then 1 else 0).

(** Every call of a task body in [p], and in the goroutines it launches, is
    followed by the two deferred decrements [tw.childWG.Done()] and
    [gm.parentWG.Done()], whatever values [p] reads. *)
Fixpoint counted {R : Type} (p : Prog R) : Prop :=
  match p with
  | Ret _ => True
  | CallTask _ _ k =>
      match k with
      | WgDone (ChildWG _) (WgDone ParentWG _) => True
      | _ => False
      end ∧ counted k
  | MuLock k | MuUnlock k | TasksStore _ _ k | TasksDelete _ k | CallCancel _ k
  | WgAdd _ _ k | WgDone _ k | WgWait _ k | CloseChan _ k => counted k
  | Go g k => counted g ∧ counted k
  | GetParentCtx k => ∀ x, counted (k x)
  | GetParentCancel k => ∀ x, counted (k x)
  | TasksLookup _ k => ∀ x, counted (k x)
  | TasksRange k => ∀ x, counted (k x)
  | NewTaskWrapper _ _ _ k => ∀ x, counted (k x)
  | Deref _ k => ∀ x, counted (k x)
  | WithCancel _ k => ∀ x y, counted (k x y)
  | MakeChan k => ∀ x, counted (k x)
  | TimeAfter _ k => ∀ x, counted (k x)
  | Select _ k => ∀ x, counted (k x)
  end.

Definition counted_thread (th : Thread) : Prop :=
  match th with
  | ThErr p => counted p
  | ThUnit p => counted p
  end.
(** ** Basic facts *)

Lemma rely_refl t s : rely t s s.
Proof.
  split; try done.
  - intros l w Hw. exists (childWG w). by destruct w.
  - intros H. split_and!; try done. intros l w w' H1 H2. by simplify_eq.
Qed.

Lemma rely_trans t s1 s2 s3 : rely t s1 s2 → rely t s2 s3 → rely t s1 s3.
Proof.
  intros H12 H23; split.
  - intros H. by apply (rely_wf _ _ _ H23), (rely_wf _ _ _ H12).
  - rewrite (rely_parentCtx _ _ _ H23). apply (rely_parentCtx _ _ _ H12).
  - rewrite (rely_parentCancel _ _ _ H23). apply (rely_parentCancel _ _ _ H12).
  - pose proof (rely_cancelled _ _ _ H12). pose proof (rely_cancelled _ _ _ H23).
    set_solver.
  - pose proof (rely_closed _ _ _ H12). pose proof (rely_closed _ _ _ H23).
    set_solver.
  - pose proof (rely_now _ _ _ H12). pose proof (rely_now _ _ _ H23). lia.
  - pose proof (rely_next_ctx _ _ _ H12). pose proof (rely_next_ctx _ _ _ H23). lia.
  - pose proof (rely_next_chan _ _ _ H12). pose proof (rely_next_chan _ _ _ H23). lia.
  - intros l w Hw.
    destruct (rely_heap _ _ _ H12 l w Hw) as [n Hn].
    destruct (rely_heap _ _ _ H23 l _ Hn) as [m Hm]. exists m. by destruct w.
  - intros H. by apply (rely_free _ _ _ H23), (rely_free _ _ _ H12).
  - intros H.
    destruct (rely_held _ _ _ H12 H) as (Hm & Ht & Hc & Hd & Hx & Hy & Hp & Hw).
    destruct (rely_held _ _ _ H23 Hm) as (Hm' & Ht' & Hc' & Hd' & Hx' & Hy' & Hp' & Hw').
    repeat split; try congruence; try lia.
    intros l w w' H1 H3.
    destruct (rely_heap _ _ _ H12 l w H1) as [n Hn].
    specialize (Hw l _ _ H1 Hn). specialize (Hw' l _ _ Hn H3). lia.
Qed.

Lemma alone_rely t s s' : alone s s' → rely t s s'.
Proof. intros ->. apply rely_refl. Qed.

Lemma run_mono {R} t (E E' : State → State → Prop) s (p : Prog R) tr s' r :
  (∀ x y, E x y → E' x y) → run t E s p tr s' r → run t E' s p tr s' r.
Proof. intros HE. induction 1; econstructor; eauto. Qed.

(** ** Running programs *)

Ltac invert H := inversion H; subst; clear H.

Lemma tstep_bind {A B} t s (p : Prog A) a s' p' (f : A → Prog B) :
  tstep t s p a s' p' → tstep t s (bind p f) a s' (bind p' f).
Proof.
  destruct 1; simpl; try (econstructor; eauto; fail).
  by apply (step_Deref t s l w (λ x, bind (k x) f)).
Qed.

(** A run of [p] followed by a run of the continuation is a run of the
    sequence, and every run of a sequence splits so. *)
Lemma run_bind {A B} t E s (p : Prog A) (f : A → Prog B) tr1 s1 x tr2 s' r :
  run t E s p tr1 s1 x → run t E s1 (f x) tr2 s' r →
  run t E s (bind p f) (tr1 ++ tr2) s' r.
Proof.
  induction 1; intros H2; simpl; [done|].
  eapply run_Step; eauto using tstep_bind.
Qed.

Lemma run_bind_inv {A B} t E s (p : Prog A) (f : A → Prog B) tr s' r :
  run t E s (bind p f) tr s' r →
  ∃ tr1 s1 x tr2,
    run t E s p tr1 s1 x ∧ run t E s1 (f x) tr2 s' r ∧ tr = tr1 ++ tr2.
Proof.
  intros H. remember (bind p f) as q eqn:Hq. revert p Hq.
  induction H as [s r|s s1 q a s2 q2 tr s' r HE Hs Hrun IH]; intros p Hq.
  - destruct p; simpl in Hq; try discriminate.
    exists [], s, r0, []. split; [constructor|]. split; [|done].
    rewrite <- Hq. constructor.
  - destruct p; simpl in Hq; subst q;
      [ exists [], s, r0, ((s1, a, s2) :: tr); split; [constructor|];
        split; [|done]; econstructor; eauto | .. ].
    all: inversion Hs; subst.
    all: edestruct IH as (tr1 & sm & x & tr2 & Hr1 & Hr2 & ->); [reflexivity|].
    all: eexists _, _, _, _; split;
      [econstructor; [eauto| |eauto]; econstructor; eauto|].
    all: split; eauto.
Qed.

(** Symbolic execution of a [run] hypothesis, one step at a time. *)
Ltac norm :=
  unfold defer, mu_Lock, mu_Unlock, get_parentCtx, get_parentCancel,
    tasks_lookup, tasks_store, tasks_delete, tasks_range, new_taskWrapper,
    deref, context_WithCancel, call_cancel, wg_Add, wg_Done, wg_Wait, go,
    make_chan, close_chan, time_After, select, recv, call_task,
    mret, mbind, Prog_ret, Prog_bind in *;
  cbn [bind] in *.

Ltac is_effect p :=
  lazymatch p with
  | MuLock _ => idtac | MuUnlock _ => idtac
  | GetParentCtx _ => idtac | GetParentCancel _ => idtac
  | TasksLookup _ _ => idtac | TasksStore _ _ _ => idtac
  | TasksDelete _ _ => idtac | TasksRange _ => idtac
  | NewTaskWrapper _ _ _ _ => idtac | Deref _ _ => idtac
  | WithCancel _ _ => idtac | CallCancel _ _ => idtac
  | WgAdd _ _ _ => idtac | WgDone _ _ => idtac | WgWait _ _ => idtac
  | Go _ _ => idtac | MakeChan _ => idtac | CloseChan _ _ => idtac
  | TimeAfter _ _ => idtac | Select _ _ => idtac | CallTask _ _ _ => idtac
  end.

Ltac exec1 :=
  norm;
  match goal with
  | H : run _ _ _ (Ret _) _ _ _ |- _ =>
      invert H;
      try match goal with Hs : tstep _ _ (Ret _) _ _ _ |- _ => by invert Hs end
  | H : run _ _ _ ?p _ _ _ |- _ =>
      is_effect p;
      invert H;
      match goal with
      | Hs : tstep _ _ _ _ _ _ |- _ => invert Hs
      end
  end; norm.

Ltac split_bind :=
  match goal with
  | H : run _ _ _ (bind _ _) _ _ _ |- _ =>
      apply run_bind_inv in H;
      let tr1 := fresh "tr" in let sm := fresh "s" in let x := fresh "x" in
      let tr2 := fresh "tr" in let H1 := fresh "Hrun" in
      destruct H as (tr1 & sm & x & tr2 & H1 & H & ->); simpl in H
  end.

Ltac pick_case :=
  match goal with
  | H : [_] !! ?i = Some _ |- _ => destruct i as [|[|?]]; simpl in H; simplify_eq
  | H : [_; _] !! ?i = Some _ |- _ => destruct i as [|[|?]]; simpl in H; simplify_eq
  end.

Ltac learn_now :=
  repeat match goal with
  | H : rely _ ?x ?y |- _ =>
      lazymatch goal with
      | _ : now x ≤ now y |- _ => fail
      | _ => pose proof (rely_now _ _ _ H)
      end
  end; simpl in *.

Ltac use_ready :=
  match goal with
  | H : ready _ _ = true |- _ => simpl in H; try apply bool_decide_eq_true in H
  end.

Lemma wrappers_le_refl h : wrappers_le h h.
Proof. intros l w Hw. exists (childWG w). split; [lia|]. by destruct w. Qed.

Lemma wrappers_le_trans h1 h2 h3 :
  wrappers_le h1 h2 → wrappers_le h2 h3 → wrappers_le h1 h3.
Proof.
  intros H12 H23 l w Hw.
  destruct (H12 l w Hw) as (n & Hn & Hl).
  destruct (H23 l _ Hl) as (m & Hm & Hl').
  exists m. split; [simpl in Hm; lia|]. by destruct w.
Qed.

Lemma quiet_refl s : quiet s s.
Proof. unfold quiet. split_and!; try done. apply wrappers_le_refl. Qed.

Lemma quiet_trans s1 s2 s3 : quiet s1 s2 → quiet s2 s3 → quiet s1 s3.
Proof.
  unfold quiet. intros (?&?&?&?&?&?&?&?&?&?&?) (?&?&?&?&?&?&?&?&?&?&?).
  split_and!; try congruence; try lia; eauto using wrappers_le_trans.
  by etrans.
Qed.

(** While the mutex is held, the other goroutines leave the store quiet. *)
Lemma rely_quiet t s s' : rely t s s' → mu (gm s) = Some t → quiet s s'.
Proof.
  intros H Hm.
  destruct (rely_held _ _ _ H Hm) as (? & ? & ? & ? & ? & ? & ? & Hw).
  unfold quiet. split_and!; try done; try congruence; try apply H.
  intros l w Hl. destruct (rely_heap _ _ _ H l w Hl) as [n Hn].
  exists n. split; [|done]. apply (Hw l w _ Hl Hn).
Qed.

Lemma quiet_mu s s' : quiet s s' → mu (gm s') = mu (gm s).
Proof. by intros (?&_). Qed.

(** ** Effect of the steps on the store *)

(** Cancellation is never undone, channels are never reopened, the clock
    never runs backwards and the manager's contexts are never replaced:
    by any step of any program. *)
Lemma tstep_mono {R} t s (p : Prog R) a s' p' :
  tstep t s p a s' p' →
  cancelled s ⊆ cancelled s' ∧ closed s ⊆ closed s' ∧ now s = now s' ∧
  (next_ctx s ≤ next_ctx s')%nat ∧ (next_chan s ≤ next_chan s')%nat ∧
  parentCtx (gm s') = parentCtx (gm s) ∧
  parentCancel (gm s') = parentCancel (gm s).
Proof.
  destruct 1; simpl; split_and!; try done; try set_solver; try lia.
  all: destruct w; simpl; done.
Qed.

Lemma ctx_done_mono s s' ctx :
  cancelled s ⊆ cancelled s' → ctx_done s ctx = true → ctx_done s' ctx = true.
Proof.
  intros Hsub. induction ctx as [|id parent IH]; simpl; [done|].
  rewrite !orb_true_iff, !bool_decide_eq_true. intros [?|?]; [left|right]; auto.
Qed.

Lemma ctx_done_same s s' ctx :
  cancelled s' = cancelled s → ctx_done s' ctx = ctx_done s ctx.
Proof. intros Heq. induction ctx as [|id parent IH]; simpl; [done|]. by rewrite Heq, IH. Qed.

(** ** Chains of quiet steps under the mutex *)

Ltac to_quiet :=
  repeat match goal with
  | H : rely ?t ?x ?y |- _ =>
      let Q := fresh "Q" in
      assert (Q : quiet x y) by (apply (rely_quiet t); [exact H | simpl; congruence]);
      let Hq := fresh "Hq" in
      pose proof (quiet_mu _ _ Q) as Hq; simpl in Hq; clear H
  end.

Ltac solve_quiet :=
  repeat first [ eassumption | apply quiet_refl | eapply quiet_trans; [eassumption|] ].

Lemma wf_set_mu m s : wf s → wf (set_gm (set_mu m (gm s)) s).
Proof. by intros []. Qed.

Lemma wf_set_mu_inv m s : wf (set_gm (set_mu m (gm s)) s) → wf s.
Proof. by intros []. Qed.

Lemma wf_set_next_chan n s : wf s → wf (set_next_chan n s).
Proof. by intros []. Qed.

Ltac learn_wf :=
  repeat match goal with
  | H : rely _ ?x ?y |- _ =>
      lazymatch goal with
      | _ : wf x → wf y |- _ => fail
      | _ => pose proof (rely_wf _ _ _ H)
      end
  end.

(** ** The bounded waits *)

Ltac chan_steps :=
  repeat (constructor; [simpl; first [by left | by right; eexists] |]);
  constructor.

Lemma WaitGroupWithTimeout_run t s w d tr s' r :
  run t (rely t) s (WaitGroupWithTimeout (Some w) d) tr s' r →
  (d < 0 → r = WaitSuccess ∧ wg_get s' w = Some 0 ∧ acts tr = [AWait w]) ∧
  (0 ≤ d → ∃ c dl i,
     acts tr = [AMakeChan c; AGo (wg_watcher w c); ATimeAfter dl; ASelect i] ∧
     ((r = WaitSuccess ∧ i = 0%nat ∧ c ∈ closed s') ∨
      (r = WaitTimeout ∧ i = 1%nat ∧ now s + d ≤ now s'))) ∧
  Forall (λ x, set_next_chan (next_chan x.2) x.1.1 = x.2) tr.
Proof.
  unfold WaitGroupWithTimeout. intros H.
  assert (∀ tr', Forall (λ x, x.2 = x.1.1 ∨ ∃ n, x.2 = set_next_chan n x.1.1) tr' →
    Forall (λ x : State * act * State, set_next_chan (next_chan x.2) x.1.1 = x.2) tr')
    as Hsteps.
  { intros tr' Htr. eapply Forall_impl; [exact Htr|]. intros [[x a] y]; simpl.
    intros [->|[n ->]]; by destruct x. }
  destruct (decide (d < 0)); norm.
  - exec1. exec1. split_and!; [done|lia|]. apply Hsteps; chan_steps.
  - exec1. exec1. exec1. exec1. pick_case; exec1; use_ready; learn_now.
    + split_and!; [lia| |apply Hsteps; chan_steps].
      intros _. eexists _, _, _. split; [done|]. left. by split_and!.
    + split_and!; [lia| |apply Hsteps; chan_steps].
      intros _. eexists _, _, _. split; [done|]. right. split_and!; try done. lia.
Qed.

Lemma WaitGroupWithTimeout_quiet t s w d tr s' r :
  run t (rely t) s (WaitGroupWithTimeout (Some w) d) tr s' r →
  mu (gm s) = Some t → quiet s s' ∧ (wf s → wf s').
Proof.
  unfold WaitGroupWithTimeout. intros H Hm.
  destruct (decide (d < 0)); norm.
  - exec1. exec1. learn_wf. to_quiet. split; [solve_quiet|tauto].
  - exec1. exec1. exec1. exec1. pick_case; exec1; learn_wf; to_quiet.
    all: split; [solve_quiet|].
    all: intros; repeat match goal with
           | H : wf (set_next_chan ?n ?x) → _ |- _ =>
               specialize (H (wf_set_next_chan n x ltac:(tauto)))
           end; tauto.
Qed.

(** ** The calls, path by path

    Each lemma lists the runs of one method: the steps taken on each path,
    with the stores they were taken in. *)

#[local] Arguments WaitGroupWithTimeout : simpl never.

Ltac wait_quiet :=
  match goal with H : run ?t _ ?x (WaitGroupWithTimeout _ _) _ _ _ |- _ =>
    let Hmc := fresh "Hmc" in let Qw := fresh "Qw" in let Hqw := fresh "Hqw" in
    let Hww := fresh "Hww" in
    assert (mu (gm x) = Some t) as Hmc by (simpl; congruence);
    pose proof (WaitGroupWithTimeout_quiet _ _ _ _ _ _ _ H Hmc) as [Qw Hww];
    pose proof (quiet_mu _ _ Qw) as Hqw; simpl in Hqw
  end.

Lemma RemoveTask_cases t s name d tr s' r :
  run t (rely t) s (RemoveTask name d) tr s' r →
  ∃ s0, rely t s s0 ∧ mu (gm s0) = None ∧
    ((tasks (gm s0) !! name = None ∧ r = None ∧
      ∃ s1 s2, tr = [(s0, ALock, lock_by t s0); (s1, ALookup name None, s1);
                     (s2, AUnlock, unlock s2)] ∧
        quiet (lock_by t s0) s2 ∧ s' = unlock s2) ∨
     (∃ l w s1 s2 s3 s4 trw res tl,
        tasks (gm s0) !! name = Some l ∧ heap s2 !! l = Some w ∧
        tr = (s0, ALock, lock_by t s0) :: (s1, ALookup name (Some l), s1) ::
             (s2, ADeref l, s2) ::
             (s3, ACancel (childCancel w), call_cancel_at (childCancel w) s3) ::
             trw ++ tl ∧
        quiet (lock_by t s0) s1 ∧ quiet s1 s2 ∧ quiet s2 s3 ∧ (wf s0 → wf s3) ∧
        run t (rely t) (call_cancel_at (childCancel w) s3)
          (WaitGroupWithTimeout (Some (ChildWG l)) d) trw s4 res ∧
        ((res ≠ WaitSuccess ∧ r = Some (ErrGoroutineTimeout name d) ∧
          ∃ s5, tl = [(s5, AUnlock, unlock s5)] ∧ quiet s4 s5 ∧ s' = unlock s5) ∨
         (res = WaitSuccess ∧ r = None ∧
          ∃ s5 s6, tl = [(s5, ADelete name,
                          set_gm (set_tasks (delete name (tasks (gm s5))) (gm s5)) s5);
                         (s6, AUnlock, unlock s6)] ∧
            quiet s4 s5 ∧
            quiet (set_gm (set_tasks (delete name (tasks (gm s5))) (gm s5)) s5) s6 ∧
            s' = unlock s6)))).
Proof.
  unfold RemoveTask. intros H. exec1. eexists; split; [eassumption|]. split; [done|].
  exec1.
  match goal with |- context [tasks (gm ?x) !! name = None] => rename x into s0 end.
  match goal with H : run _ _ ?x _ _ _ _ |- _ => rename x into s1 end.
  assert (Q1: quiet (lock_by t s0) s1) by (unfold lock_by; to_quiet; solve_quiet).
  assert (Ht : tasks (gm s0) !! name = tasks (gm s1) !! name).
  { destruct Q1 as (_ & -> & _). done. }
  rewrite Ht.
  destruct (tasks (gm s1) !! name) as [l|] eqn:Hl; norm.
  - right. exec1. exec1. split_bind. split_bind.
    assert (wf s0 → wf s3) as Hwf.
    { intros Hwf0. learn_wf. eauto using wf_set_mu. }
    to_quiet. wait_quiet.
    destruct (decide (x0 ≠ WaitSuccess)) as [Hx|Hx].
    + exec1; exec1; exec1; to_quiet.
      eexists l, _, _, _, _, _, _, _, _.
      (split; [done|]); (split; [eassumption|]).
      (split; [rewrite app_nil_r; reflexivity|]).
      split_and!; try done. left. split_and!; try done. eauto.
    + apply dec_stable in Hx. subst x0.
      exec1; exec1; exec1; exec1; to_quiet.
      eexists l, _, _, _, _, _, _, _, _.
      (split; [done|]); (split; [eassumption|]).
      (split; [rewrite <- app_assoc; reflexivity|]).
      split_and!; try done. right. split_and!; try done.
      eexists _, _. split_and!; try done.
  - left. exec1. exec1. to_quiet. split_and!; try done.
    eexists _, _. split_and!; try done. unfold lock_by. solve_quiet.
Qed.

Lemma StopAll_cases t s d tr s' r :
  run t (rely t) s (StopAll d) tr s' r →
  ∃ s0 s1 s2 s3 s4 trw res,
    rely t s s0 ∧ mu (gm s0) = None ∧
    tr = (s0, ALock, lock_by t s0) :: (s1, AGetParentCancel, s1) ::
         (s2, ACancel (parentCancel (gm s1)),
          call_cancel_at (parentCancel (gm s1)) s2) ::
         trw ++ [(s4, AUnlock, unlock s4)] ∧
    quiet (lock_by t s0) s1 ∧ quiet s1 s2 ∧ (wf s0 → wf s2) ∧
    run t (rely t) (call_cancel_at (parentCancel (gm s1)) s2)
      (WaitGroupWithTimeout (Some ParentWG) d) trw s3 res ∧
    quiet s3 s4 ∧ s' = unlock s4 ∧
    (wf (call_cancel_at (parentCancel (gm s1)) s2) → wf s') ∧
    r = if decide (res ≠ WaitSuccess) then Some (ErrGoroutinesTimeout d) else None.
Proof.
  unfold StopAll. intros H. exec1. exec1. exec1. split_bind. split_bind.
  learn_wf.
  destruct (decide (x0 ≠ WaitSuccess)) as [Hx|Hx].
  all: exec1; exec1; exec1.
  all: eexists _, _, _, _, _, _, _.
  all: (split; [eassumption|]); (split; [done|]).
  all: (split; [rewrite app_nil_r; reflexivity|]).
  all: learn_wf; to_quiet; wait_quiet; to_quiet.
  all: split_and!; try done; eauto using wf_set_mu.
  all: by destruct (decide (x0 ≠ WaitSuccess)).
Qed.

Lemma Start_cases t s name tr s' r :
  run t (rely t) s (Start name) tr s' r →
  ∃ s0, rely t s s0 ∧ mu (gm s0) = None ∧
    ((tasks (gm s0) !! name = None ∧ r = Some (ErrTaskNotExist name) ∧
      ∃ s1 s2, tr = [(s0, ALock, lock_by t s0); (s1, ALookup name None, s1);
                     (s2, AUnlock, unlock s2)] ∧
        quiet (lock_by t s0) s2 ∧ s' = unlock s2) ∨
     (∃ l s1 s2 s3 s4 s5 n m,
        tasks (gm s0) !! name = Some l ∧ r = None ∧
        tr = [(s0, ALock, lock_by t s0); (s1, ALookup name (Some l), s1);
              (s2, AAdd ParentWG 1, wg_set ParentWG (n + 1) s2);
              (s3, AAdd (ChildWG l) 1, wg_set (ChildWG l) (m + 1) s3);
              (s4, AGo (task_goroutine l), s4);
              (s5, AUnlock, unlock s5)] ∧
        wg_get s2 ParentWG = Some n ∧ wg_get s3 (ChildWG l) = Some m ∧
        quiet (lock_by t s0) s2 ∧
        quiet (wg_set ParentWG (n + 1) s2) s3 ∧
        quiet (wg_set (ChildWG l) (m + 1) s3) s5 ∧
        s' = unlock s5)).
Proof.
  unfold Start. intros H. exec1. eexists; split; [eassumption|]. split; [done|].
  exec1.
  match goal with |- context [tasks (gm ?x) !! name = None] => rename x into s0 end.
  match goal with H : run _ _ ?x _ _ _ _ |- _ => rename x into s1 end.
  assert (Q1: quiet (lock_by t s0) s1) by (unfold lock_by; to_quiet; solve_quiet).
  assert (Ht : tasks (gm s0) !! name = tasks (gm s1) !! name).
  { destruct Q1 as (_ & -> & _). done. }
  rewrite Ht.
  destruct (tasks (gm s1) !! name) as [l|] eqn:Hl; norm.
  - right. exec1. exec1. exec1. exec1. exec1.
    eexists l, _, _, _, _, _, _, _.
    (split; [done|]); (split; [done|]). split; [reflexivity|].
    to_quiet. split_and!; try done; unfold lock_by; solve_quiet.
  - left. exec1. exec1. to_quiet. split_and!; try done.
    eexists _, _. split_and!; try done. unfold lock_by. solve_quiet.
Qed.

Lemma AddTask_cases t s name f tr s' r :
  run t (rely t) s (AddTask name f) tr s' r →
  ∃ s0 s1 s2 s3 s4 s5 l w,
    rely t s s0 ∧ mu (gm s0) = None ∧
    w = mkTaskWrapper 0 (cancelCtx (next_ctx s2) (parentCtx (gm s1))) (next_ctx s2) f ∧
    tr = [(s0, ALock, lock_by t s0); (s1, AGetParentCtx, s1);
          (s2, AWithCancel (next_ctx s2), set_next_ctx (S (next_ctx s2)) s2);
          (s3, ANew l, set_heap (<[l := w]> (heap s3)) s3);
          (s4, AStore name l,
           set_gm (set_tasks (<[name := l]> (tasks (gm s4))) (gm s4)) s4);
          (s5, AUnlock, unlock s5)] ∧
    heap s3 !! l = None ∧
    quiet (lock_by t s0) s1 ∧
    quiet (lock_by t s0) s2 ∧
    quiet (set_next_ctx (S (next_ctx s2)) s2) s3 ∧
    quiet (set_heap (<[l := w]> (heap s3)) s3) s4 ∧
    quiet (set_gm (set_tasks (<[name := l]> (tasks (gm s4))) (gm s4)) s4) s5 ∧
    (wf s0 → wf s2) ∧
    (wf (set_next_ctx (S (next_ctx s2)) s2) → wf s3) ∧
    (wf (set_heap (<[l := w]> (heap s3)) s3) → wf s4) ∧
    (wf (set_gm (set_tasks (<[name := l]> (tasks (gm s4))) (gm s4)) s4) → wf s') ∧
    s' = unlock s5.
Proof.
  unfold AddTask. intros H. exec1. exec1. exec1. exec1. exec1. exec1. exec1.
  eexists _, _, _, _, _, _, _, _.
  (split; [eassumption|]); (split; [done|]). split; [reflexivity|].
  split; [reflexivity|]. learn_wf. to_quiet.
  split_and!; try done; unfold lock_by, unlock; try solve_quiet.
  all: eauto using wf_set_mu.
Qed.


Lemma Stop_cases t s name d tr s' r :
  run t (rely t) s (Stop name d) tr s' r →
  ∃ s0, rely t s s0 ∧ mu (gm s0) = None ∧
    ((tasks (gm s0) !! name = None ∧ r = None ∧
      ∃ s1 s2, tr = [(s0, ALock, lock_by t s0); (s1, ALookup name None, s1);
                     (s2, AUnlock, unlock s2)] ∧
        quiet (lock_by t s0) s2 ∧ s' = unlock s2) ∨
     (∃ l w s1 s2 s3 s4 s5 trw res,
        tasks (gm s0) !! name = Some l ∧ heap s2 !! l = Some w ∧
        tr = (s0, ALock, lock_by t s0) :: (s1, ALookup name (Some l), s1) ::
             (s2, ADeref l, s2) :: (s3, ACancel (childCancel w), call_cancel_at (childCancel w) s3) ::
             trw ++ [(s5, AUnlock, unlock s5)] ∧
        quiet (lock_by t s0) s1 ∧ quiet s1 s2 ∧ quiet s2 s3 ∧ (wf s0 → wf s3) ∧
        run t (rely t) (call_cancel_at (childCancel w) s3)
          (WaitGroupWithTimeout (Some (ChildWG l)) d) trw s4 res ∧
        quiet s4 s5 ∧ s' = unlock s5 ∧
        r = if decide (res ≠ WaitSuccess) then Some (ErrGoroutineTimeout name d) else None)).
Proof.
  unfold Stop. intros H. exec1. eexists; split; [eassumption|]. split; [done|].
  exec1.
  match goal with |- context [tasks (gm ?x) !! name = None] => rename x into s0 end.
  match goal with H : run _ _ ?x _ _ _ _ |- _ => rename x into s1 end.
  assert (Q1: quiet (lock_by t s0) s1) by (unfold lock_by; to_quiet; solve_quiet).
  assert (Ht : tasks (gm s0) !! name = tasks (gm s1) !! name).
  { destruct Q1 as (_ & -> & _). done. }
  rewrite Ht.
  destruct (tasks (gm s1) !! name) as [l|] eqn:Hl; norm.
  - right. exec1. exec1. split_bind. split_bind.
    assert (wf s0 → wf s3) as Hwf.
    { intros Hwf0. learn_wf. eauto using wf_set_mu. }
    to_quiet.
    match goal with H : run _ _ ?x (WaitGroupWithTimeout _ _) _ _ _ |- _ =>
      assert (mu (gm x) = Some t) as Hmc by (simpl; congruence);
      pose proof (WaitGroupWithTimeout_quiet _ _ _ _ _ _ _ H Hmc) as [Qw _];
      pose proof (quiet_mu _ _ Qw) as Hqw; simpl in Hqw
    end.
    destruct (decide (x0 ≠ WaitSuccess)) as [Hx|Hx].
    all: exec1; exec1; exec1; to_quiet.
    all: eexists l, _, _, _, _, _, _, _, _.
    all: (split; [done|]); (split; [eassumption|]).
    all: (split; [rewrite app_nil_r; reflexivity|]).
    all: split_and!; try done.
    all: by destruct (decide (x0 ≠ WaitSuccess)).
  - left. exec1. exec1. to_quiet. split_and!; try done.
    eexists _, _. split_and!; try done. unfold lock_by. solve_quiet.
Qed.

(** ** Deleting from the registry *)

Lemma never_deletes_bind {A B} (p : Prog A) (f : A → Prog B) :
  never_deletes p → (∀ x, never_deletes (f x)) → never_deletes (bind p f).
Proof.
  intros Hp Hf. induction p; simpl in *; try done; eauto.
  destruct Hp. eauto.
Qed.

Lemma never_deletes_step {R} t s (p : Prog R) a s' p' :
  never_deletes p → tstep t s p a s' p' →
  never_deletes p' ∧ dom (tasks (gm s)) ⊆ dom (tasks (gm s')) ∧
  (∀ g, a = AGo g → never_deletes g).
Proof.
  intros Hp Hs. destruct Hs; simpl in *; try done.
  all: try (split_and!; [by eauto|set_solver|done]).
  - split_and!; [done| |done]. by destruct w.
  - split_and!; [done| |done]. by destruct w.
  - destruct Hp. split_and!; [done|done|]. by intros ? [= <-].
Qed.

Lemma never_deletes_run {R} t E s (p : Prog R) tr s' r :
  never_deletes p → run t E s p tr s' r →
  Forall (λ x, dom (tasks (gm x.1.1)) ⊆ dom (tasks (gm x.2))) tr ∧
  Forall (λ g, never_deletes g) (launched tr).
Proof.
  intros Hp Hrun. induction Hrun as [|s s1 p a s2 p2 tr s' r HE Hs Hrun IH].
  - by split.
  - destruct (never_deletes_step _ _ _ _ _ _ Hp Hs) as (Hp2 & Hd & Hg).
    destruct (IH Hp2) as [IH1 IH2]. split; [by constructor|].
    unfold launched in *. simpl. destruct a; simpl; try done.
    constructor; eauto.
Qed.

Lemma never_deletes_WaitGroupWithTimeout wg d :
  never_deletes (WaitGroupWithTimeout wg d).
Proof.
  unfold WaitGroupWithTimeout. destruct wg; [|done].
  destruct (decide (d < 0)); norm; simpl; [done|].
  intros c. split; [done|]. intros dl [|i]; done.
Qed.

Lemma never_deletes_StartAll_loop ts : never_deletes (StartAll_loop ts).
Proof.
  induction ts as [|l ts IH]; simpl; [done|]. norm. simpl. split; [|done].
  done.
Qed.

Lemma never_deletes_call c :
  (∀ name d, c ≠ CallRemoveTask name d) →
  match call_thread c with
  | ThErr p => never_deletes p
  | ThUnit p => never_deletes p
  end.
Proof.
  intros Hc. destruct c; simpl.
  - unfold AddTask. norm. simpl. done.
  - by destruct (Hc name timeout).
  - unfold StartAll. norm. simpl. intros ts.
    apply never_deletes_bind; [apply never_deletes_StartAll_loop|done].
  - unfold StopAll. norm. simpl. intros _.
    apply never_deletes_bind;
      [apply never_deletes_bind; [apply never_deletes_WaitGroupWithTimeout|]|];
      intros x; [by destruct (decide (x ≠ WaitSuccess))|done].
  - unfold Start. norm. simpl. intros [l|]; simpl; [|done]. split; [|done]. done.
  - unfold Stop. norm. simpl. intros [l|]; simpl; [|done]. intros w.
    apply never_deletes_bind;
      [apply never_deletes_bind; [apply never_deletes_WaitGroupWithTimeout|]|];
      intros x; [by destruct (decide (x ≠ WaitSuccess))|done].
Qed.

(** ** [Stop] *)

Ltac run_tac :=
  norm;
  repeat (eapply run_Step; [apply rely_refl | econstructor; try done | norm; simpl]);
  try apply run_Ret.

Lemma Stop_missing_run :
  run 0%nat (rely 0%nat) NewGoroutineManager (Stop "missing" 0)
    [(NewGoroutineManager, ALock, lock_by 0%nat NewGoroutineManager);
     (lock_by 0%nat NewGoroutineManager, ALookup "missing" None, lock_by 0%nat NewGoroutineManager);
     (lock_by 0%nat NewGoroutineManager, AUnlock, unlock (lock_by 0%nat NewGoroutineManager))]
    (unlock (lock_by 0%nat NewGoroutineManager)) None.
Proof.
  unfold Stop. norm.
  eapply run_Step; [apply rely_refl | by constructor |].
  eapply run_Step; [apply rely_refl | constructor |]. 
  change (tasks (gm (lock_by 0%nat NewGoroutineManager)) !! "missing") with (@None loc). norm.
  eapply run_Step; [apply rely_refl | by econstructor |].
  apply run_Ret.
Qed.


Ltac qfacts :=
  repeat match goal with
  | Q : quiet _ _ |- _ =>
      let H := fresh "Hqh" in
      destruct Q as (? & ? & ? & ? & H & ? & ? & ? & ? & ? & ?); simpl in H
  end; unfold lock_by, unlock, call_cancel_at in *; simpl in *.

Ltac heap_chain :=
  repeat first [ eassumption | apply wrappers_le_refl
               | eapply wrappers_le_trans; [eassumption|] ].

Lemma chan_step_frame tr :
  Forall (λ x : State * act * State, set_next_chan (next_chan x.2) x.1.1 = x.2) tr →
  Forall frame_step tr.
Proof.
  intros H. eapply Forall_impl; [exact H|]. intros [[x a] y]; simpl.
  intros <-. by split.
Qed.

(** C4 (as amended).  [Stop] on a name that is not registered when the mutex
    is taken returns [nil], not an error: it only locks, looks the name up and
    unlocks; registry, cancelled contexts and wrappers are left as they were. *)
Theorem Stop_unregistered t s name d tr s' r :
  run t (rely t) s (Stop name d) tr s' r →
  ∃ s0, rely t s s0 ∧ head tr = Some (s0, ALock, lock_by t s0) ∧
    (tasks (gm s0) !! name = None →
     r = None ∧ acts tr = [ALock; ALookup name None; AUnlock] ∧
     tasks (gm s') = tasks (gm s0) ∧ cancelled s' = cancelled s0 ∧
     wrappers_le (heap s0) (heap s')).
Proof.
  intros H. destruct (Stop_cases _ _ _ _ _ _ _ H) as (s0 & Hr & Hm & Hc).
  exists s0. split; [done|].
  destruct Hc as [(Hn & -> & s1 & s2 & -> & Q & ->)
                 |(l & w & s1 & s2 & s3 & s4 & s5 & trw & res & Hl & _ & -> & _)].
  - split; [done|]. intros _. qfacts. split_and!; try done.
  - split; [done|]. intros Hn. congruence.
Qed.

Lemma Stop_unregistered_witness :
  ∃ s0, rely 0%nat NewGoroutineManager s0 ∧
    (tasks (gm s0) !! "missing" = None →
     (None : error) = None ∧
     tasks (gm (unlock (lock_by 0%nat NewGoroutineManager))) = tasks (gm s0)).
Proof.
  destruct (Stop_unregistered _ _ _ _ _ _ _ Stop_missing_run) as (s0 & Hr & Hh & H).
  exists s0. split; [done|]. intros Hn. destruct (H Hn) as (? & ? & ? & ?). done.
Defined.

(** C4 as stated fails: on a fresh manager [Stop("missing", 0)] returns [nil],
    where the claim wants a not-found error. *)
Lemma Stop_unregistered_counterexample :
  tasks (gm NewGoroutineManager) !! "missing" = None ∧
  ¬ (∀ tr s' r,
       run 0%nat (rely 0%nat) NewGoroutineManager (Stop "missing" 0) tr s' r →
       ∃ name, r = Some (ErrTaskNotExist name)).
Proof.
  split; [done|]. intros H.
  destruct (H _ _ _ Stop_missing_run) as [name Hn]. discriminate.
Qed.

Lemma Stop_frame_run t s name d tr s' r :
  run t (rely t) s (Stop name d) tr s' r →
  Forall frame_step tr ∧
  ∃ s0, rely t s s0 ∧ head tr = Some (s0, ALock, lock_by t s0) ∧
    tasks (gm s') = tasks (gm s0) ∧ dom (heap s') = dom (heap s0) ∧
    wrappers_le (heap s0) (heap s').
Proof.
  intros H. destruct (Stop_cases _ _ _ _ _ _ _ H) as (s0 & Hr & Hm & Hc).
  destruct Hc as [(Hn & -> & s1 & s2 & -> & Q & ->)
                 |(l & w & s1 & s2 & s3 & s4 & s5 & trw & res & Hl & Hw & -> & Q1 & Q2 & Q3 & _ & Hrun & Q4 & -> & _)].
  - split; [by repeat constructor|]. exists s0. qfacts. by split_and!.
  - assert (mu (gm (call_cancel_at (childCancel w) s3)) = Some t) as Hmu.
    { qfacts. congruence. }
    destruct (WaitGroupWithTimeout_quiet _ _ _ _ _ _ _ Hrun Hmu) as [Qw _].
    destruct (WaitGroupWithTimeout_run _ _ _ _ _ _ _ Hrun) as (_ & _ & Hfr).
    apply chan_step_frame in Hfr.
    split.
    + repeat (constructor; [by split|]). apply Forall_app. split; [done|].
      by repeat constructor.
    + exists s0. qfacts. split_and!; try done; try congruence. heap_chain.
Qed.

(** C10.  [Stop] never modifies the registry.  In every run of [Stop], on
    every path (name absent, wait succeeded, wait timed out): no step of the
    call changes the registry or the heap of task wrappers; and from the
    moment the mutex is taken to the return, the registry is the same map and
    every wrapper keeps its context, cancel function and task.  Moreover no
    call other than [RemoveTask] ever shrinks the set of registered names. *)
Theorem Stop_never_modifies_registry t s name d tr s' r :
  run t (rely t) s (Stop name d) tr s' r →
  Forall frame_step tr ∧
  (∃ s0, rely t s s0 ∧ head tr = Some (s0, ALock, lock_by t s0) ∧
     tasks (gm s') = tasks (gm s0) ∧ dom (heap s') = dom (heap s0) ∧
     wrappers_le (heap s0) (heap s')) ∧
  (∀ c t2 s2 tr2 s2',
     (∀ name2 d2, c ≠ CallRemoveTask name2 d2) →
     run_thread t2 (rely t2) s2 (call_thread c) tr2 s2' →
     Forall (λ x, dom (tasks (gm x.1.1)) ⊆ dom (tasks (gm x.2))) tr2).
Proof.
  intros H. destruct (Stop_frame_run _ _ _ _ _ _ _ H) as [H1 H2].
  split_and!; [done|done|].
  intros c t2 s2 tr2 s2' Hc Hrun.
  pose proof (never_deletes_call c Hc) as Hnd.
  destruct (call_thread c); destruct Hrun as [r2 Hrun];
    by destruct (never_deletes_run _ _ _ _ _ _ _ Hnd Hrun).
Qed.

(** ** [RemoveTask] *)

Lemma RemoveTask_missing_run :
  run 0%nat (rely 0%nat) NewGoroutineManager (RemoveTask "missing" 0)
    [(NewGoroutineManager, ALock, lock_by 0%nat NewGoroutineManager);
     (lock_by 0%nat NewGoroutineManager, ALookup "missing" None,
      lock_by 0%nat NewGoroutineManager);
     (lock_by 0%nat NewGoroutineManager, AUnlock,
      unlock (lock_by 0%nat NewGoroutineManager))]
    (unlock (lock_by 0%nat NewGoroutineManager)) None.
Proof.
  unfold RemoveTask. norm.
  eapply run_Step; [apply rely_refl | by constructor |].
  eapply run_Step; [apply rely_refl | constructor |].
  change (tasks (gm (lock_by 0%nat NewGoroutineManager)) !! "missing") with (@None loc). norm.
  eapply run_Step; [apply rely_refl | by econstructor |].
  apply run_Ret.
Qed.

Ltac cancelled_in :=
  match goal with
  | |- ?c ∈ cancelled ?x =>
      match goal with
      | _ : context [ {[c]} ∪ cancelled ?y ] |- _ =>
          let H := fresh in
          assert (cancelled x = {[c]} ∪ cancelled y) as H by congruence;
          rewrite H; apply elem_of_union; left; by apply elem_of_singleton
      end
  end.

Lemma WaitGroupWithTimeout_outcome t s w d tr s' r :
  run t (rely t) s (WaitGroupWithTimeout (Some w) d) tr s' r →
  (r = WaitSuccess ∧ (d < 0 → wg_get s' w = Some 0)) ∨
  (r = WaitTimeout ∧ 0 ≤ d ∧ now s + d ≤ now s').
Proof.
  intros H. destruct (WaitGroupWithTimeout_run _ _ _ _ _ _ _ H) as (Hn & Hp & _).
  destruct (decide (d < 0)) as [Hd|Hd].
  - left. destruct (Hn Hd) as (-> & ? & _). done.
  - destruct Hp as (c & dl & i & _ & [(-> & _)|(-> & _ & ?)]); [lia| |].
    + left. split; [done|lia].
    + right. split_and!; [done|lia|done].
Qed.

(** C5.  [RemoveTask]: on a name that is not registered when the mutex is
    taken it returns [nil] and leaves the registry as it is; on a registered
    name it cancels the handle's context and runs the bounded wait on the
    handle's counter, and then either the wait succeeded, the entry is deleted
    (nothing else changes in the registry) and [nil] is returned, or the wait
    timed out, the timeout error is returned and the registry is unchanged. *)
Theorem RemoveTask_removes_iff_wait_succeeds t s name d tr s' r :
  run t (rely t) s (RemoveTask name d) tr s' r →
  ∃ s0, rely t s s0 ∧ head tr = Some (s0, ALock, lock_by t s0) ∧
    (tasks (gm s0) !! name = None →
     r = None ∧ tasks (gm s') = tasks (gm s0) ∧
     acts tr = [ALock; ALookup name None; AUnlock]) ∧
    (∀ l, tasks (gm s0) !! name = Some l →
     ∃ w sa sb pre trw post res,
       tr = pre ++ trw ++ post ∧
       acts pre = [ALock; ALookup name (Some l); ADeref l; ACancel (childCancel w)] ∧
       childCancel w ∈ cancelled s' ∧
       run t (rely t) sa (WaitGroupWithTimeout (Some (ChildWG l)) d) trw sb res ∧
       ((res = WaitSuccess ∧ r = None ∧
         tasks (gm s') = delete name (tasks (gm s0)) ∧
         acts post = [ADelete name; AUnlock]) ∨
        (res = WaitTimeout ∧ r = Some (ErrGoroutineTimeout name d) ∧
         tasks (gm s') = tasks (gm s0) ∧ acts post = [AUnlock] ∧
         0 ≤ d ∧ now sa + d ≤ now sb))).
Proof.
  intros H. destruct (RemoveTask_cases _ _ _ _ _ _ _ H) as (s0 & Hr & Hm & Hc).
  exists s0. split; [done|].
  destruct Hc as [(Hn & -> & s1 & s2 & -> & Q & ->)
                 |(l & w & s1 & s2 & s3 & s4 & trw & res & tl & Hl & Hw & -> &
                   Q1 & Q2 & Q3 & _ & Hrun & Hout)].
  - split; [done|]. split; [|congruence]. intros _. qfacts. by split_and!.
  - split; [done|]. split; [congruence|]. intros l' Hl'.
    assert (l' = l) as -> by congruence.
    assert (mu (gm (call_cancel_at (childCancel w) s3)) = Some t) as Hmu.
    { qfacts. congruence. }
    destruct (WaitGroupWithTimeout_quiet _ _ _ _ _ _ _ Hrun Hmu) as [Qw _].
    pose proof (WaitGroupWithTimeout_outcome _ _ _ _ _ _ _ Hrun) as Hres.
    eexists w, _, _, [_; _; _; _], trw, tl, res.
    split; [reflexivity|]. split; [reflexivity|].
    destruct Hout as [(Hne & -> & s5 & -> & Q5 & ->)
                     |(-> & -> & s5 & s6 & -> & Q5 & Q6 & ->)].
    + qfacts. split; [cancelled_in|]. split; [done|]. right.
      destruct Hres as [(-> & _)|(-> & ? & ?)]; [done|].
      split_and!; try done. congruence.
    + qfacts. split; [cancelled_in|]. split; [done|]. left.
      split_and!; try done. congruence.
Qed.

(** ** [StopAll] *)

Lemma wf_call_cancel c s : wf s → (c < next_ctx s)%nat → wf (call_cancel_at c s).
Proof.
  intros [] Hc. split; simpl; try done.
  intros id. rewrite elem_of_union, elem_of_singleton. intros [->|?]; auto.
Qed.

(** Once the parent context is cancelled, the context of every task wrapper
    is done. *)
Lemma parent_cancelled_all_done s :
  wf s → parentCancel (gm s) ∈ cancelled s →
  ctx_done s (parentCtx (gm s)) = true ∧
  ∀ l w, heap s !! l = Some w → ctx_done s (childCtx w) = true.
Proof.
  intros Hwf Hc.
  assert (ctx_done s (parentCtx (gm s)) = true) as Hp.
  { rewrite (wf_parentCtx _ Hwf). simpl. by rewrite bool_decide_eq_true_2. }
  split; [done|]. intros l w Hw.
  rewrite (wf_childCtx _ Hwf l w Hw). simpl. rewrite Hp. apply orb_true_r.
Qed.

Lemma StopAll_idle_run t s d :
  d < 0 → mu (gm s) = None → parentWG (gm s) = 0 →
  ∃ tr s', run t alone s (StopAll d) tr s' None.
Proof.
  intros Hd Hm Hz. unfold StopAll, WaitGroupWithTimeout.
  rewrite decide_True by done. norm.
  eexists _, _.
  eapply run_Step; [done | by constructor |].
  eapply run_Step; [done | constructor |].
  eapply run_Step; [done | constructor |].
  eapply run_Step; [done | constructor; simpl; by rewrite Hz |].
  rewrite decide_False by (by intros ?).
  eapply run_Step; [done | by econstructor |].
  apply run_Ret.
Qed.

(** C1.  Every run of [StopAll(timeout)] from a well-formed store: it locks,
    reads and calls the parent cancel function, and only then runs the bounded
    wait on the parent wait group; from the cancel on, the parent context and
    the context of every task wrapper are done, and at the return so is the
    context of every registered handle; it returns the timeout error when the
    wait timed out (which needs [0 ≤ timeout] and the timer's instant reached)
    and [nil] when the wait succeeded.  With a negative timeout it can only
    return [nil], with the active count at zero; and once the active count is
    zero such a call does run to completion. *)
Theorem StopAll_cancels_then_waits t s d tr s' r :
  run t (rely t) s (StopAll d) tr s' r → wf s →
  (∃ s0 sa sb pre trw post res,
     rely t s s0 ∧ head tr = Some (s0, ALock, lock_by t s0) ∧
     tr = pre ++ trw ++ post ∧
     acts pre = [ALock; AGetParentCancel; ACancel (parentCancel (gm s0))] ∧
     acts post = [AUnlock] ∧
     run t (rely t) sa (WaitGroupWithTimeout (Some ParentWG) d) trw sb res ∧
     ctx_done sa (parentCtx (gm s0)) = true ∧
     (∀ l w, heap sa !! l = Some w → ctx_done sa (childCtx w) = true) ∧
     ctx_done s' (parentCtx (gm s0)) = true ∧
     (∀ name l, tasks (gm s0) !! name = Some l →
        ∃ w, heap s' !! l = Some w ∧ ctx_done s' (childCtx w) = true) ∧
     ((res = WaitSuccess ∧ r = None) ∨
      (res = WaitTimeout ∧ r = Some (ErrGoroutinesTimeout d) ∧
       0 ≤ d ∧ now sa + d ≤ now sb)) ∧
     (d < 0 → r = None ∧ parentWG (gm s') = 0)) ∧
  (d < 0 → ∀ s1, mu (gm s1) = None → parentWG (gm s1) = 0 →
     ∃ tr1 s1', run t alone s1 (StopAll d) tr1 s1' None).
Proof.
  intros H Hwf. split; [|intros Hd s1; by apply StopAll_idle_run].
  destruct (StopAll_cases _ _ _ _ _ _ H)
    as (s0 & s1 & s2 & s3 & s4 & trw & res & Hr & Hm & -> & Q1 & Q2 & Hwf2 & Hrun &
        Q3 & -> & Hwf' & ->).
  assert (wf s0) as Hwf0 by (by apply (rely_wf _ _ _ Hr)).
  specialize (Hwf2 Hwf0).
  assert (parentCancel (gm s1) = parentCancel (gm s0)) as Hpc by (qfacts; congruence).
  rewrite Hpc in *.
  assert (parentCancel (gm s2) = parentCancel (gm s0)) as Hpc2 by (qfacts; congruence).
  assert (parentCtx (gm s2) = parentCtx (gm s0)) as Hpx2 by (qfacts; congruence).
  set (sa := call_cancel_at (parentCancel (gm s0)) s2) in *.
  assert (wf sa) as Hwfa.
  { apply wf_call_cancel; [done|]. rewrite <- Hpc2. apply (wf_parent_alloc _ Hwf2). }
  assert (parentCancel (gm sa) ∈ cancelled sa) as Hin.
  { unfold sa. simpl. rewrite Hpc2. set_unfold. by left. }
  destruct (parent_cancelled_all_done sa Hwfa Hin) as [Hpd Hcd].
  assert (mu (gm sa) = Some t) as Hmu by (unfold sa; qfacts; congruence).
  destruct (WaitGroupWithTimeout_quiet _ _ _ _ _ _ _ Hrun Hmu) as [Qw _].
  pose proof (WaitGroupWithTimeout_outcome _ _ _ _ _ _ _ Hrun) as Hres.
  specialize (Hwf' Hwfa).
  assert (cancelled (unlock s4) = cancelled sa) as Hcs by (unfold sa; qfacts; congruence).
  assert (parentCtx (gm (unlock s4)) = parentCtx (gm s0)) as Hpx by (qfacts; congruence).
  assert (parentCancel (gm (unlock s4)) ∈ cancelled (unlock s4)) as Hin'.
  { rewrite Hcs. unfold sa. qfacts. set_unfold. left. congruence. }
  destruct (parent_cancelled_all_done _ Hwf' Hin') as [Hpd' Hcd'].
  eexists s0, sa, s3, [_; _; _], trw, [_], res.
  split; [done|]. split; [done|]. split; [reflexivity|]. split; [reflexivity|].
  split; [reflexivity|]. split; [done|].
  split; [by rewrite <- Hpx2|]. split; [done|]. split; [by rewrite <- Hpx|].
  split.
  { intros name l Hl.
    assert (is_Some (heap (unlock s4) !! l)) as [w Hw].
    { apply elem_of_dom.
      assert (dom (heap (unlock s4)) = dom (heap s0)) as -> by (unfold sa in *; qfacts; congruence).
      apply elem_of_dom. by apply (wf_tasks _ Hwf0 name). }
    exists w. split; [done|]. by apply (Hcd' l). }
  split.
  { destruct Hres as [(-> & _)|(-> & ? & ?)]; [left|right]; by split_and!. }
  intros Hd. destruct Hres as [(-> & Hz)|(_ & ? & _)]; [|lia].
  split; [done|]. specialize (Hz Hd). simpl in Hz.
  assert (parentWG (gm s4) ≤ parentWG (gm s3)) by (qfacts; lia).
  pose proof (wf_parentWG _ Hwf'). simpl in *. injection Hz as Hz. lia.
Qed.

Lemma wf_NewGoroutineManager : wf NewGoroutineManager.
Proof. split; simpl; try done; try lia; intros; simplify_map_eq. Qed.

Lemma StopAll_fresh_run :
  ∃ tr s', run 0%nat (rely 0%nat) NewGoroutineManager (StopAll (-1)) tr s' None.
Proof.
  destruct (StopAll_idle_run 0%nat NewGoroutineManager (-1)) as (tr & s' & H);
    [lia|done|done|].
  exists tr, s'. eapply run_mono; [|exact H]. apply alone_rely.
Qed.

Lemma StopAll_cancels_then_waits_witness :
  ∃ tr s', run 0%nat (rely 0%nat) NewGoroutineManager (StopAll (-1)) tr s' None ∧
    wf NewGoroutineManager ∧
    ∃ tr1 s1', run 0%nat alone NewGoroutineManager (StopAll (-1)) tr1 s1' None.
Proof.
  destruct StopAll_fresh_run as (tr & s' & Hrun). exists tr, s'.
  split; [exact Hrun|]. split; [exact wf_NewGoroutineManager|].
  destruct (StopAll_cancels_then_waits _ _ _ _ _ _ Hrun wf_NewGoroutineManager)
    as [_ Hlive].
  apply Hlive; [lia|reflexivity|reflexivity].
Defined.

(** ** [Start] *)

(** The goroutine launched for a handle: it reads the wrapper, calls its task
    with its context and, when the task returns, decrements first the handle's
    counter and then the manager's. *)
Lemma task_goroutine_run t E l s tr s' u :
  run t E s (task_goroutine l) tr s' u →
  ∃ w x0 x1 x2 m x3 n,
    tr = [(x0, ADeref l, x0);
          (x1, ACallTask (task w) (childCtx w), x1);
          (x2, ADone (ChildWG l), wg_set (ChildWG l) (m - 1) x2);
          (x3, ADone ParentWG, wg_set ParentWG (n - 1) x3)] ∧
    heap x0 !! l = Some w ∧
    wg_get x2 (ChildWG l) = Some m ∧ 0 < m ∧
    wg_get x3 ParentWG = Some n ∧ 0 < n ∧
    s' = wg_set ParentWG (n - 1) x3.
Proof.
  unfold task_goroutine. intros H. exec1. exec1. exec1. exec1. exec1.
  eexists _, _, _, _, _, _, _. split; [reflexivity|]. by split_and!.
Qed.

(** No step of any program changes the context, the cancel function or the
    task of an existing wrapper. *)
Lemma tstep_wrapper_fields {R} t s (p : Prog R) a s' p' l w :
  tstep t s p a s' p' → heap s !! l = Some w →
  ∃ n, heap s' !! l = Some (set_childWG n w).
Proof.
  intros Hs Hl.
  assert (∃ n, heap s !! l = Some (set_childWG n w)) as Hsame.
  { exists (childWG w). by destruct w. }
  destruct Hs; simpl; try done.
  - exists (childWG w). rewrite lookup_insert_ne; [by destruct w|congruence].
  - destruct w0 as [|l0]; simpl; [done|].
    destruct (decide (l0 = l)) as [->|Hne].
    + exists (n + delta). rewrite lookup_alter_eq, Hl. done.
    + rewrite lookup_alter_ne by done. done.
  - destruct w0 as [|l0]; simpl; [done|].
    destruct (decide (l0 = l)) as [->|Hne].
    + exists (n - 1). rewrite lookup_alter_eq, Hl. done.
    + rewrite lookup_alter_ne by done. done.
Qed.

Lemma Start_missing_run :
  run 0%nat (rely 0%nat) NewGoroutineManager (Start "missing")
    [(NewGoroutineManager, ALock, lock_by 0%nat NewGoroutineManager);
     (lock_by 0%nat NewGoroutineManager, ALookup "missing" None,
      lock_by 0%nat NewGoroutineManager);
     (lock_by 0%nat NewGoroutineManager, AUnlock,
      unlock (lock_by 0%nat NewGoroutineManager))]
    (unlock (lock_by 0%nat NewGoroutineManager)) (Some (ErrTaskNotExist "missing")).
Proof.
  unfold Start. norm.
  eapply run_Step; [apply rely_refl | by constructor |].
  eapply run_Step; [apply rely_refl | constructor |].
  change (tasks (gm (lock_by 0%nat NewGoroutineManager)) !! "missing") with (@None loc). norm.
  eapply run_Step; [apply rely_refl | by econstructor |].
  apply run_Ret.
Qed.

(** C3.  [Start(name)]: when the name is not registered (at the time the
    mutex is taken) it returns the not-found error, launches nothing and
    changes no counter; when it is registered to handle [l] it returns [nil],
    having incremented the manager's counter and then the handle's counter by
    one each and launched exactly one goroutine, [task_goroutine l].  That
    goroutine calls the task stored in the handle with the context stored in
    the handle, once, and when the call returns it decrements the handle's
    counter and the manager's counter by one each.  (What a wrapper holds
    as context and task never changes, so these are the registered ones.) *)
Theorem Start_launches_one t s name tr s' r :
  run t (rely t) s (Start name) tr s' r →
  (∃ s0, rely t s s0 ∧ head tr = Some (s0, ALock, lock_by t s0) ∧
     (tasks (gm s0) !! name = None →
      r = Some (ErrTaskNotExist name) ∧ launched tr = [] ∧
      acts tr = [ALock; ALookup name None; AUnlock]) ∧
     (∀ l, tasks (gm s0) !! name = Some l →
      r = None ∧ launched tr = [task_goroutine l] ∧
      ∃ s1 s2 n s3 m s4 s5,
        tr = [(s0, ALock, lock_by t s0); (s1, ALookup name (Some l), s1);
              (s2, AAdd ParentWG 1, wg_set ParentWG (n + 1) s2);
              (s3, AAdd (ChildWG l) 1, wg_set (ChildWG l) (m + 1) s3);
              (s4, AGo (task_goroutine l), s4);
              (s5, AUnlock, unlock s5)] ∧
        wg_get s2 ParentWG = Some n ∧ wg_get s3 (ChildWG l) = Some m)) ∧
  (∀ l t' E x tr' x' u,
     run t' E x (task_goroutine l) tr' x' u →
     ∃ w x0 x1 x2 m x3 n,
       tr' = [(x0, ADeref l, x0);
              (x1, ACallTask (task w) (childCtx w), x1);
              (x2, ADone (ChildWG l), wg_set (ChildWG l) (m - 1) x2);
              (x3, ADone ParentWG, wg_set ParentWG (n - 1) x3)] ∧
       heap x0 !! l = Some w ∧
       wg_get x2 (ChildWG l) = Some m ∧ wg_get x3 ParentWG = Some n) ∧
  (∀ R t' x (p : Prog R) a x' p' l w,
     tstep t' x p a x' p' → heap x !! l = Some w →
     ∃ n, heap x' !! l = Some (set_childWG n w)).
Proof.
  intros H. split; [|split; [|apply @tstep_wrapper_fields]].
  - destruct (Start_cases _ _ _ _ _ _ H) as (s0 & Hr & Hm & Hc).
    exists s0. split; [done|].
    destruct Hc as [(Hn & -> & s1 & s2 & -> & Q & ->)
                   |(l & s1 & s2 & s3 & s4 & s5 & n & m & Hl & -> & -> & Hn & Hm' & _)].
    + split; [done|]. split; [done|]. intros l Hl. congruence.
    + split; [done|]. split; [congruence|]. intros l' Hl'.
      assert (l' = l) as -> by congruence.
      split; [done|]. split; [done|]. eexists _, _, _, _, _, _, _. by split_and!.
  - intros l t' E x tr' x' u Hg.
    destruct (task_goroutine_run _ _ _ _ _ _ _ Hg)
      as (w & x0 & x1 & x2 & m & x3 & n & -> & ? & ? & ? & ? & ? & ?).
    eexists _, _, _, _, _, _, _. by split_and!.
Qed.

(** *** Steps that keep the store well formed *)

Lemma wf_WithCancel s : wf s → wf (set_next_ctx (S (next_ctx s)) s).
Proof.
  intros [Hpc Hpa Hcan Hcc Hca Hinj Ht Htinj Hpw Hcw]. split; simpl; try done; try lia.
  - intros id Hid. specialize (Hcan id Hid). lia.
  - intros l w Hw. destruct (Hca l w Hw). split; [lia|done].
Qed.

Lemma wf_New s l id f :
  wf s → heap s !! l = None → (id < next_ctx s)%nat → id ≠ parentCancel (gm s) →
  (∀ l' w', heap s !! l' = Some w' → childCancel w' ≠ id) →
  wf (set_heap (<[l := mkTaskWrapper 0 (cancelCtx id (parentCtx (gm s))) id f]> (heap s)) s).
Proof.
  intros [Hpc Hpa Hcan Hcc Hca Hinj Ht Htinj Hpw Hcw] Hl Hid Hp Hfresh. split; simpl; try done.
  - intros l' w'. rewrite lookup_insert. case_decide; [intros [= <-]; done|eauto].
  - intros l' w'. rewrite lookup_insert. case_decide; [intros [= <-]; done|eauto].
  - intros l1 l2 w1 w2. rewrite !lookup_insert.
    repeat case_decide; subst; try done.
    + intros [= <-] H2 Heq. simpl in Heq. by destruct (Hfresh l2 w2 H2).
    + intros H1 [= <-] Heq. simpl in Heq. by destruct (Hfresh l1 w1 H1).
    + eauto.
  - intros name l' Hn. rewrite lookup_insert. case_decide; [done|eauto].
  - intros l' w'. rewrite lookup_insert. case_decide; [intros [= <-]; done|eauto].
Qed.

Lemma wf_Store s name l :
  wf s → is_Some (heap s !! l) → (∀ n, tasks (gm s) !! n ≠ Some l) →
  wf (set_gm (set_tasks (<[name := l]> (tasks (gm s))) (gm s)) s).
Proof.
  intros [Hpc Hpa Hcan Hcc Hca Hinj Ht Htinj Hpw Hcw] Hl Hfresh. split; simpl; try done.
  - intros n l'. rewrite lookup_insert. case_decide; [intros [= <-]; done|eauto].
  - intros n1 n2 l'. rewrite !lookup_insert.
    repeat case_decide; subst; try done.
    + intros [= <-] H2. by destruct (Hfresh n2).
    + intros H1 [= <-]. by destruct (Hfresh n1).
    + eauto.
Qed.

Lemma wf_Delete s name :
  wf s → wf (set_gm (set_tasks (delete name (tasks (gm s))) (gm s)) s).
Proof.
  intros [Hpc Hpa Hcan Hcc Hca Hinj Ht Htinj Hpw Hcw]. split; simpl; try done.
  - intros n l. rewrite lookup_delete. case_decide; [done|eauto].
  - intros n1 n2 l. rewrite !lookup_delete. repeat case_decide; try done. eauto.
Qed.

Lemma lookup_alter_childWG (h : gmap loc taskWrapper) n l l' w' :
  alter (set_childWG n) l h !! l' = Some w' →
  ∃ v, h !! l' = Some v ∧ childCtx w' = childCtx v ∧
       childCancel w' = childCancel v ∧ task w' = task v ∧
       (childWG w' = childWG v ∨ childWG w' = n).
Proof.
  rewrite lookup_alter. case_decide; subst.
  - destruct (h !! l') as [v|]; simpl; [|done]. intros [= <-]. exists v. simpl. split_and!; try done. by right.
  - intros Hv. exists w'. split_and!; try done. by left.
Qed.

Lemma wf_wg_set s w n : wf s → 0 ≤ n → wf (wg_set w n s).
Proof.
  intros [Hpc Hpa Hcan Hcc Hca Hinj Ht Htinj Hpw Hcw] Hn.
  destruct w as [|l]; split; simpl; try done.
  - intros l' w' Hw. apply lookup_alter_childWG in Hw as (v & Hv & -> & -> & _). eauto.
  - intros l' w' Hw. apply lookup_alter_childWG in Hw as (v & Hv & _ & -> & _). eauto.
  - intros l1 l2 w1 w2 H1 H2.
    apply lookup_alter_childWG in H1 as (v1 & Hv1 & _ & -> & _).
    apply lookup_alter_childWG in H2 as (v2 & Hv2 & _ & -> & _). eauto.
  - intros name l' Hl'. apply elem_of_dom. rewrite dom_alter_L.
    apply elem_of_dom. eauto.
  - intros l' w' Hw.
    apply lookup_alter_childWG in Hw as (v & Hv & _ & _ & _ & [->| ->]); eauto.
Qed.

Lemma wf_set_closed c s : wf s → wf (set_closed c s).
Proof. by intros []. Qed.

Lemma wf_set_now n s : wf s → wf (set_now n s).
Proof. by intros []. Qed.

(** ** [AddTask] *)

Lemma wrappers_le_lookup h h' l w :
  wrappers_le h h' → h' !! l = Some w → dom h' = dom h →
  ∃ v, h !! l = Some v ∧ childCtx w = childCtx v ∧ childCancel w = childCancel v ∧
       task w = task v.
Proof.
  intros Hle Hw Hd.
  assert (is_Some (h !! l)) as [v Hv].
  { apply elem_of_dom. rewrite <- Hd. apply elem_of_dom. eauto. }
  destruct (Hle l v Hv) as (n & _ & Hn). exists v. split; [done|].
  rewrite Hw in Hn. injection Hn as ->. done.
Qed.

(** C6.  Every run of [AddTask(name, task)] from a well-formed store: it
    derives a new cancel context from the parent context (one that no wrapper
    holds and that is not cancelled, so it is done exactly when the parent
    is), allocates a new wrapper [l] holding that context, its cancel function
    and [task], with counter zero, and stores it under [name]: the registry
    becomes [<[name := l]>] of what it was, so every other entry is as before.
    It launches no goroutine and cancels nothing, also when [name] was
    registered before: the previous wrapper stays in the heap with its context,
    cancel function and task, and the set of cancelled contexts is the same. *)
Theorem AddTask_registers t s name f tr s' u :
  run t (rely t) s (AddTask name f) tr s' u → wf s →
  ∃ s0 l id w,
    rely t s s0 ∧ head tr = Some (s0, ALock, lock_by t s0) ∧
    acts tr = [ALock; AGetParentCtx; AWithCancel id; ANew l; AStore name l; AUnlock] ∧
    launched tr = [] ∧
    w = mkTaskWrapper 0 (cancelCtx id (parentCtx (gm s0))) id f ∧
    heap s0 !! l = None ∧
    id = next_ctx s0 ∧
    (∀ l' w', heap s0 !! l' = Some w' → childCancel w' ≠ id) ∧
    id ≠ parentCancel (gm s0) ∧
    heap s' !! l = Some w ∧
    tasks (gm s') = <[name := l]> (tasks (gm s0)) ∧
    cancelled s' = cancelled s0 ∧
    wrappers_le (heap s0) (heap s') ∧
    ctx_done s' (childCtx w) = ctx_done s' (parentCtx (gm s0)) ∧
    wf s'.
Proof.
  intros H Hwf.
  destruct (AddTask_cases _ _ _ _ _ _ _ H)
    as (s0 & s1 & s2 & s3 & s4 & s5 & l & w & Hr & Hm & -> & -> & Hl & Q0 & Q1 & Q2 & Q3 &
        Q4 & Hw2 & Hw3 & Hw4 & Hw5 & ->).
  assert (wf s0) as Hwf0 by (by apply (rely_wf _ _ _ Hr)).
  specialize (Hw2 Hwf0).
  specialize (Hw3 (wf_WithCancel _ Hw2)).
  assert (next_ctx s2 = next_ctx s0) as Hid by (qfacts; congruence).
  assert (parentCtx (gm s1) = parentCtx (gm s0)) as Hpx by (qfacts; congruence).
  rewrite Hpx, Hid in *.
  set (id := next_ctx s0) in *.
  set (w := mkTaskWrapper 0 (cancelCtx id (parentCtx (gm s0))) id f) in *.
  assert (dom (heap s3) = dom (heap s0)) as Hd3 by (qfacts; congruence).
  assert (wrappers_le (heap s0) (heap s3)) as Hle3 by (qfacts; heap_chain).
  assert (∀ l' w', heap s3 !! l' = Some w' → childCancel w' ≠ id) as Hfresh3.
  { intros l' w' Hw'.
    destruct (wrappers_le_lookup _ _ _ _ Hle3 Hw' Hd3) as (v & Hv & _ & -> & _).
    destruct (wf_child_alloc _ Hwf0 l' v Hv). unfold id. lia. }
  assert (id ≠ parentCancel (gm s0)) as Hidp.
  { pose proof (wf_parent_alloc _ Hwf0). unfold id. lia. }
  assert (wf s4) as Hwf4.
  { apply Hw4.
    unfold w.
    replace (parentCtx (gm s0)) with (parentCtx (gm s3)) by (qfacts; congruence).
    apply wf_New; try done.
    - qfacts. unfold id. lia.
    - qfacts. congruence. }
  assert (tasks (gm s4) = tasks (gm s0)) as Ht4 by (qfacts; congruence).
  assert (wrappers_le (<[l := w]> (heap s3)) (heap s4)) as Hle4 by (by qfacts).
  assert (∃ n, heap s4 !! l = Some (set_childWG n w)) as [n4 Hl4].
  { destruct (Hle4 l w) as (n & _ & ?); [by rewrite lookup_insert_eq|]. eauto. }
  assert (wf (unlock s5)) as Hwf'.
  { apply Hw5. apply wf_Store; [done|eauto|].
    intros n Hn. rewrite Ht4 in Hn.
    destruct (wf_tasks _ Hwf0 n l Hn) as [v Hv].
    assert (l ∈ dom (heap s3)) as Hin.
    { rewrite Hd3. apply elem_of_dom. eauto. }
    apply elem_of_dom in Hin as [? ?]. congruence. }
  assert (wrappers_le (heap s4) (heap s5)) as Hle5 by (by qfacts).
  destruct (Hle5 l _ Hl4) as (n5 & _ & Hl5). simpl in Hl5.
  assert (n5 = 0) as ->.
  { pose proof (wf_childWG _ Hwf' l _ Hl5) as Hge. simpl in Hge.
    destruct (Hle5 l _ Hl4) as (n5' & Hle & Hl5'). simpl in *.
    destruct (Hle4 l w) as (n4' & Hle' & Hl4'); [by rewrite lookup_insert_eq|].
    simpl in *. simplify_eq. lia. }
  exists s0, l, id, w.
  split; [done|]. split; [done|]. split; [done|]. split; [done|]. split; [done|].
  split. { apply not_elem_of_dom. rewrite <- Hd3. by apply not_elem_of_dom. }
  split; [done|].
  split.
  { intros l' w' Hw'. destruct (Hle3 l' w' Hw') as (n & _ & Hn).
    apply (Hfresh3 l' _ Hn). }
  split; [done|]. split; [done|].
  split. { qfacts. congruence. }
  split. { qfacts. congruence. }
  split.
  { eapply wrappers_le_trans; [exact Hle3|].
    eapply wrappers_le_trans; [|exact Hle5].
    eapply wrappers_le_trans; [|exact Hle4].
    intros l' w' Hw'. exists (childWG w'). split; [lia|].
    rewrite lookup_insert_ne by congruence. by destruct w'. }
  split; [|done].
  simpl. replace (bool_decide (id ∈ cancelled (unlock s5))) with false; [done|].
  symmetry. apply bool_decide_eq_false. intros Hin.
  assert (cancelled (unlock s5) = cancelled s0) as Hc by (qfacts; congruence).
  rewrite Hc in Hin. pose proof (wf_cancelled _ Hwf0 _ Hin). unfold id in *. lia.
Qed.

Lemma AddTask_fresh_run :
  ∃ tr s', run 0%nat (rely 0%nat) NewGoroutineManager (AddTask "a" 7%nat) tr s' ().
Proof.
  unfold AddTask. norm. eexists _, _.
  eapply run_Step; [apply rely_refl | by constructor |].
  eapply run_Step; [apply rely_refl | constructor |].
  eapply run_Step; [apply rely_refl | constructor |].
  eapply run_Step; [apply rely_refl | apply (step_New _ _ _ _ _ 0%nat); done |].
  eapply run_Step; [apply rely_refl | constructor |].
  eapply run_Step; [apply rely_refl | by econstructor |].
  apply run_Ret.
Qed.

Lemma AddTask_registers_witness :
  ∃ tr s', run 0%nat (rely 0%nat) NewGoroutineManager (AddTask "a" 7%nat) tr s' () ∧
    wf NewGoroutineManager ∧ launched tr = [] ∧ wf s'.
Proof.
  destruct AddTask_fresh_run as (tr & s' & Hrun). exists tr, s'.
  split; [exact Hrun|]. split; [exact wf_NewGoroutineManager|].
  destruct (AddTask_registers _ _ _ _ _ _ _ Hrun wf_NewGoroutineManager)
    as (s0 & l & id & w & _ & _ & _ & Hl & _ & _ & _ & _ & _ & _ & _ & _ & _ & _ & Hwf).
  split; [exact Hl|exact Hwf].
Defined.

(** ** The bounded waits: outcomes *)

Lemma WaitCancelWithTimeout_run t s ctx d tr s' r :
  run t (rely t) s (WaitCancelWithTimeout ctx d) tr s' r →
  (d < 0 → r = WaitSuccess ∧ ctx_done s' ctx = true ∧
     acts tr = [ASelect 0]) ∧
  (0 ≤ d → ∃ dl i, acts tr = [ATimeAfter dl; ASelect i] ∧
     ((r = WaitSuccess ∧ i = 0%nat ∧ ctx_done s' ctx = true) ∨
      (r = WaitTimeout ∧ i = 1%nat ∧ now s + d ≤ now s'))) ∧
  Forall (λ x, x.2 = x.1.1) tr.
Proof.
  unfold WaitCancelWithTimeout. intros H.
  destruct (decide (d < 0)); norm.
  - exec1. pick_case. exec1. use_ready. split_and!; [done|lia|by repeat constructor].
  - exec1. exec1. pick_case; exec1; use_ready; learn_now.
    + split_and!; [lia| |by repeat constructor].
      intros _. eexists _, _. split; [done|]. left. by split_and!.
    + split_and!; [lia| |by repeat constructor].
      intros _. eexists _, _. split; [done|]. right. split_and!; try done. lia.
Qed.

Lemma wg_watcher_run t E w c s tr s' u :
  run t E s (wg_watcher w c) tr s' u →
  ∃ x y, tr = [(x, AWait w, x); (y, AClose c, set_closed ({[c]} ∪ closed y) y)] ∧
    wg_get x w = Some 0.
Proof.
  unfold wg_watcher. intros H. exec1. exec1. exec1. eexists _, _. by split.
Qed.

Lemma WaitCancelWithTimeout_zero_times_out t s ctx :
  ∃ tr s', run t alone s (WaitCancelWithTimeout ctx 0) tr s' WaitTimeout.
Proof.
  unfold WaitCancelWithTimeout. rewrite decide_False by lia. norm.
  eexists _, _.
  eapply run_Step; [done | constructor |].
  eapply run_Step; [done | apply (step_Select _ _ _ 1%nat (RecvTimer (now s + 0))); [done|] |].
  { simpl. apply bool_decide_eq_true. lia. }
  apply run_Ret.
Qed.

Lemma WaitGroupWithTimeout_zero_times_out t s w :
  ∃ tr s', run t alone s (WaitGroupWithTimeout (Some w) 0) tr s' WaitTimeout.
Proof.
  unfold WaitGroupWithTimeout. rewrite decide_False by lia. norm.
  eexists _, _.
  eapply run_Step; [done | constructor |].
  eapply run_Step; [done | constructor |].
  eapply run_Step; [done | constructor |].
  eapply run_Step; [done | eapply (step_Select _ _ _ 1%nat); [done|] |].
  { simpl. apply bool_decide_eq_true. lia. }
  apply run_Ret.
Qed.

(** C7 (as amended).  Both bounded waits, for every run:
    - [WaitCancelWithTimeout] returns success only with the context done, and
      the timeout outcome only for a non-negative timeout whose duration has
      elapsed since the call; so with a negative timeout it can only return
      success;
    - [WaitGroupWithTimeout] on a non-nil wait group: with a negative timeout
      it returns only success, and only with the counter at zero; with a
      non-negative one, success only once the channel its watcher goroutine
      closes is closed, and the timeout outcome only once the duration has
      elapsed; on a nil wait group it returns [WaitInvalidParam] at once;
    - the watcher closes the channel only after [wg.Wait()] has returned,
      that is with the counter at zero;
    - with timeout zero neither call blocks, and in every store (so also when
      the context is already done, or the counter already zero) each has a run
      that returns the timeout outcome. *)
Theorem bounded_wait_outcomes t s tr s' r :
  (∀ ctx d, run t (rely t) s (WaitCancelWithTimeout ctx d) tr s' r →
     (r = WaitSuccess ∧ ctx_done s' ctx = true) ∨
     (r = WaitTimeout ∧ 0 ≤ d ∧ now s + d ≤ now s')) ∧
  (∀ w d, run t (rely t) s (WaitGroupWithTimeout (Some w) d) tr s' r →
     (r = WaitSuccess ∧
      ((d < 0 ∧ wg_get s' w = Some 0) ∨
       (0 ≤ d ∧ ∃ c, launched tr = [wg_watcher w c] ∧ c ∈ closed s'))) ∨
     (r = WaitTimeout ∧ 0 ≤ d ∧ now s + d ≤ now s')) ∧
  (∀ d, run t (rely t) s (WaitGroupWithTimeout None d) tr s' r →
     r = WaitInvalidParam ∧ tr = []) ∧
  (∀ E w c u, run t E s (wg_watcher w c) tr s' u →
     ∃ x y, tr = [(x, AWait w, x); (y, AClose c, set_closed ({[c]} ∪ closed y) y)] ∧
       wg_get x w = Some 0) ∧
  (∀ ctx, ∃ tr0 s0, run t alone s (WaitCancelWithTimeout ctx 0) tr0 s0 WaitTimeout) ∧
  (∀ w, ∃ tr0 s0, run t alone s (WaitGroupWithTimeout (Some w) 0) tr0 s0 WaitTimeout).
Proof.
  split_and!.
  - intros ctx d H. destruct (WaitCancelWithTimeout_run _ _ _ _ _ _ _ H) as (Hn & Hp & _).
    destruct (decide (d < 0)) as [Hd|Hd].
    + left. by destruct (Hn Hd) as (-> & ? & _).
    + destruct Hp as (dl & i & _ & [(-> & _ & ?)|(-> & _ & ?)]); [lia| |].
      * by left.
      * right. split_and!; [done|lia|done].
  - intros w d H. destruct (WaitGroupWithTimeout_run _ _ _ _ _ _ _ H) as (Hn & Hp & _).
    destruct (decide (d < 0)) as [Hd|Hd].
    + left. destruct (Hn Hd) as (-> & ? & _). split; [done|]. by left.
    + destruct Hp as (c & dl & i & Ha & [(-> & _ & ?)|(-> & _ & ?)]); [lia| |].
      * left. split; [done|]. right. split; [lia|]. exists c. split; [|done].
        clear -Ha. destruct tr as [|[[? a1] ?] [|[[? a2] ?] [|[[? a3] ?] [|[[? a4] ?] [|]]]]];
          simpl in Ha; simplify_eq. done.
      * right. split_and!; [done|lia|done].
  - intros d H. unfold WaitGroupWithTimeout in H. norm. by exec1.
  - intros E w c u H. by apply (wg_watcher_run _ _ _ _ _ _ _ _ H).
  - apply WaitCancelWithTimeout_zero_times_out.
  - apply WaitGroupWithTimeout_zero_times_out.
Qed.

(** C7 as stated fails on the zero timeout: on a fresh manager, whose counter
    is zero, [WaitGroupWithTimeout(&gm.parentWG, 0)] has a run returning
    [WaitTimeout]; and with the parent context already cancelled,
    [WaitCancelWithTimeout(gm.parentCtx, 0)] has one too.  So success is not
    returned exactly when the condition holds at call time. *)
Lemma zero_timeout_counterexample :
  wg_get NewGoroutineManager ParentWG = Some 0 ∧
  (∃ tr s', run 0%nat alone NewGoroutineManager
              (WaitGroupWithTimeout (Some ParentWG) 0) tr s' WaitTimeout) ∧
  ctx_done (call_cancel_at 0%nat NewGoroutineManager)
    (parentCtx (gm NewGoroutineManager)) = true ∧
  (∃ tr s', run 0%nat alone (call_cancel_at 0%nat NewGoroutineManager)
              (WaitCancelWithTimeout (parentCtx (gm NewGoroutineManager)) 0)
              tr s' WaitTimeout) ∧
  ¬ (∀ s w tr s' r,
       run 0%nat alone s (WaitGroupWithTimeout (Some w) 0) tr s' r →
       (r = WaitSuccess ↔ wg_get s w = Some 0)).
Proof.
  split; [done|]. split; [apply WaitGroupWithTimeout_zero_times_out|].
  split; [done|]. split; [apply WaitCancelWithTimeout_zero_times_out|].
  intros H.
  destruct (WaitGroupWithTimeout_zero_times_out 0%nat NewGoroutineManager ParentWG)
    as (tr & s' & Hrun).
  destruct (H _ _ _ _ _ Hrun) as [_ Hback]. by specialize (Hback eq_refl).
Qed.

Lemma bounded_wait_fresh_run :
  ∃ tr s', run 0%nat (rely 0%nat) NewGoroutineManager
             (WaitGroupWithTimeout (Some ParentWG) (-1)) tr s' WaitSuccess.
Proof.
  unfold WaitGroupWithTimeout. rewrite decide_True by lia. norm. eexists _, _.
  eapply run_Step; [apply rely_refl | by constructor |].
  apply run_Ret.
Qed.

Lemma bounded_wait_outcomes_witness :
  ∃ tr s', run 0%nat (rely 0%nat) NewGoroutineManager
             (WaitGroupWithTimeout (Some ParentWG) (-1)) tr s' WaitSuccess ∧
    wg_get s' ParentWG = Some 0.
Proof.
  destruct bounded_wait_fresh_run as (tr & s' & Hrun). exists tr, s'.
  split; [exact Hrun|].
  destruct (bounded_wait_outcomes 0%nat NewGoroutineManager tr s' WaitSuccess)
    as (_ & Hwg & _).
  destruct (Hwg _ _ Hrun) as [(_ & [(_ & Hz)|(Hd & _)])|(Hr & _)];
    [exact Hz|lia|discriminate].
Defined.

(** ** Cancellation *)

Lemma isolated_same A x a y :
  tasks (gm y) = tasks (gm x) → heap y = heap x → cancelled y = cancelled x →
  isolated A (x, a, y).
Proof.
  intros Ht Hh Hc B lB wB _ HB Hw; simpl in *.
  rewrite Ht, Hh, !(ctx_done_same _ _ _ Hc). done.
Qed.

Lemma isolated_chan_steps A tr :
  Forall (λ x : State * act * State, set_next_chan (next_chan x.2) x.1.1 = x.2) tr →
  Forall (isolated A) tr.
Proof.
  intros H. eapply Forall_impl; [exact H|]. intros [[x a] y]; simpl.
  intros <-. by apply isolated_same.
Qed.

(** Cancelling the context of the wrapper registered under [A]. *)
Lemma isolated_cancel A s l w :
  wf s → tasks (gm s) !! A = Some l → heap s !! l = Some w →
  isolated A (s, ACancel (childCancel w), call_cancel_at (childCancel w) s).
Proof.
  intros Hwf HA Hl B lB wB HBA HB Hw; simpl in *.
  split; [done|]. split; [done|].
  assert (lB ≠ l) as Hne.
  { intros ->. apply HBA. by apply (wf_tasks_inj _ Hwf B A l). }
  assert (childCancel wB ≠ childCancel w) as Hcc.
  { intros Heq. apply Hne. by apply (wf_child_inj _ Hwf lB l wB w). }
  destruct (wf_child_alloc _ Hwf l w Hl) as [_ Hpc].
  rewrite (wf_childCtx _ Hwf lB wB Hw), (wf_parentCtx _ Hwf). simpl.
  rewrite !orb_false_r.
  assert (∀ id, id ≠ childCancel w →
    bool_decide (id ∈ {[childCancel w]} ∪ cancelled s) = bool_decide (id ∈ cancelled s))
    as Hbd.
  { intros id Hid. apply bool_decide_ext. rewrite elem_of_union, elem_of_singleton.
    split; [by intros [?|?]|by right]. }
  rewrite !Hbd by congruence. done.
Qed.

Lemma isolated_delete A s :
  isolated A (s, ADelete A, set_gm (set_tasks (delete A (tasks (gm s))) (gm s)) s).
Proof.
  intros B lB wB HBA HB Hw; simpl in *.
  rewrite lookup_delete_ne by done.
  split_and!; try done; by apply ctx_done_same.
Qed.

Lemma Stop_isolated t s A d tr s' r :
  run t (rely t) s (Stop A d) tr s' r → wf s → Forall (isolated A) tr.
Proof.
  intros H Hwf. destruct (Stop_cases _ _ _ _ _ _ _ H) as (s0 & Hr & Hm & Hc).
  assert (wf s0) as Hwf0 by (by apply (rely_wf _ _ _ Hr)).
  destruct Hc as [(Hn & -> & s1 & s2 & -> & Q & ->)
                 |(l & w & s1 & s2 & s3 & s4 & s5 & trw & res & Hl & Hw & -> &
                   Q1 & Q2 & Q3 & Hwf3 & Hrun & Q4 & -> & _)].
  - repeat (constructor; [by apply isolated_same|]). constructor.
  - destruct (WaitGroupWithTimeout_run _ _ _ _ _ _ _ Hrun) as (_ & _ & Hfr).
    repeat (constructor; [by apply isolated_same|]).
    constructor.
    { assert (∃ n, heap s3 !! l = Some (set_childWG n w)) as [n Hn].
      { destruct Q3 as (_&_&_&_&Hle&_). destruct (Hle l w Hw) as (n & _ & ?). eauto. }
      change (childCancel w) with (childCancel (set_childWG n w)).
      apply (isolated_cancel A s3 l (set_childWG n w)); [by apply Hwf3| |done].
      qfacts. congruence. }
    apply Forall_app. split; [by apply isolated_chan_steps|].
    constructor; [by apply isolated_same|constructor].
Qed.

Lemma RemoveTask_isolated t s A d tr s' r :
  run t (rely t) s (RemoveTask A d) tr s' r → wf s → Forall (isolated A) tr.
Proof.
  intros H Hwf. destruct (RemoveTask_cases _ _ _ _ _ _ _ H) as (s0 & Hr & Hm & Hc).
  assert (wf s0) as Hwf0 by (by apply (rely_wf _ _ _ Hr)).
  destruct Hc as [(Hn & -> & s1 & s2 & -> & Q & ->)
                 |(l & w & s1 & s2 & s3 & s4 & trw & res & tl & Hl & Hw & -> &
                   Q1 & Q2 & Q3 & Hwf3 & Hrun & Hout)].
  - repeat (constructor; [by apply isolated_same|]). constructor.
  - destruct (WaitGroupWithTimeout_run _ _ _ _ _ _ _ Hrun) as (_ & _ & Hfr).
    repeat (constructor; [by apply isolated_same|]).
    constructor.
    { assert (∃ n, heap s3 !! l = Some (set_childWG n w)) as [n Hn].
      { destruct Q3 as (_&_&_&_&Hle&_). destruct (Hle l w Hw) as (n & _ & ?). eauto. }
      change (childCancel w) with (childCancel (set_childWG n w)).
      apply (isolated_cancel A s3 l (set_childWG n w)); [by apply Hwf3| |done].
      qfacts. congruence. }
    apply Forall_app. split; [by apply isolated_chan_steps|].
    destruct Hout as [(_ & _ & s5 & -> & _)|(_ & _ & s5 & s6 & -> & _)].
    + constructor; [by apply isolated_same|constructor].
    + constructor; [apply isolated_delete|].
      constructor; [by apply isolated_same|constructor].
Qed.

(** Cancellation is permanent: no step of the system makes a done context
    not done. *)
Lemma step_ctx_done_mono c who c' ctx :
  step c who c' → ctx_done c.1 ctx = true → ctx_done c'.1 ctx = true.
Proof.
  intros Hs. apply ctx_done_mono. destruct Hs; simpl; try done.
  - by destruct (tstep_mono _ _ _ _ _ _ H0) as (? & _).
  - by destruct (tstep_mono _ _ _ _ _ _ H0) as (? & _).
Qed.

(** C2.  Cancellation is one-directional, transitive and permanent.
    - Permanent: no step of any goroutine, and no step of the system, turns a
      done context into one that is not done.
    - Transitive: in a well-formed store in which the parent context has been
      cancelled, the context of every task wrapper is done.
    - One-directional: in every run of [Stop(A, _)] and of [RemoveTask(A, _)]
      from a well-formed store, every step leaves every other registered task
      [B] alone: its registry entry and its wrapper (hence its running count)
      are unchanged, and neither [B]'s context nor the parent context changes
      from not done to done. *)
Theorem cancellation_one_directional t s A d tr s' r :
  (run t (rely t) s (Stop A d) tr s' r ∨
   run t (rely t) s (RemoveTask A d) tr s' r) →
  wf s →
  Forall (isolated A) tr ∧
  (∀ R t' x (p : Prog R) a x' p' ctx,
     tstep t' x p a x' p' → ctx_done x ctx = true → ctx_done x' ctx = true) ∧
  (∀ c who c' ctx,
     step c who c' → ctx_done c.1 ctx = true → ctx_done c'.1 ctx = true) ∧
  (∀ x, wf x → parentCancel (gm x) ∈ cancelled x →
     ctx_done x (parentCtx (gm x)) = true ∧
     ∀ l w, heap x !! l = Some w → ctx_done x (childCtx w) = true).
Proof.
  intros H Hwf. split_and!.
  - destruct H as [H|H]; [by eapply Stop_isolated|by eapply RemoveTask_isolated].
  - intros R t' x p a x' p' ctx Hs. apply ctx_done_mono.
    by destruct (tstep_mono _ _ _ _ _ _ Hs) as (? & _).
  - apply step_ctx_done_mono.
  - apply parent_cancelled_all_done.
Qed.

(** ** Counting *)

Lemma sum_childWG_insert (h : gmap loc taskWrapper) l w :
  h !! l = None → sum_childWG (<[l := w]> h) = childWG w + sum_childWG h.
Proof.
  intros Hl. unfold sum_childWG.
  rewrite map_fold_insert_L; [done| |done]. intros. lia.
Qed.

Lemma sum_childWG_delete (h : gmap loc taskWrapper) l w :
  h !! l = Some w → sum_childWG h = childWG w + sum_childWG (delete l h).
Proof.
  intros Hl. unfold sum_childWG.
  rewrite (map_fold_delete_L _ _ l w h); [done| |done]. intros. lia.
Qed.

Lemma sum_childWG_alter (h : gmap loc taskWrapper) l w n :
  h !! l = Some w →
  sum_childWG (alter (set_childWG n) l h) = sum_childWG h - childWG w + n.
Proof.
  intros Hl.
  rewrite (sum_childWG_delete h l w Hl).
  rewrite (sum_childWG_delete (alter (set_childWG n) l h) l (set_childWG n w)).
  - rewrite delete_alter. simpl. rewrite decide_True by done. lia.
  - by rewrite lookup_alter_eq, Hl.
Qed.

(** What a step adds to the difference between the manager's counter and the
    sum of the wrappers' counters. *)
Lemma tstep_delta {R} t s (p : Prog R) a s' p' :
  tstep t s p a s' p' →
  parentWG (gm s') - sum_childWG (heap s') =
  parentWG (gm s) - sum_childWG (heap s) + act_delta a.
Proof.
  destruct 1; simpl; try lia.
  - rewrite sum_childWG_insert by done. simpl. lia.
  - destruct w as [|l]; simpl in *; [simplify_eq; lia|].
    destruct (heap s !! l) as [w|] eqn:Hl; simplify_eq/=.
    rewrite (sum_childWG_alter _ _ _ _ Hl). lia.
  - destruct w as [|l]; simpl in *; [simplify_eq; lia|].
    destruct (heap s !! l) as [w|] eqn:Hl; simplify_eq/=.
    rewrite (sum_childWG_alter _ _ _ _ Hl). lia.
Qed.

Lemma mid_pool_app pool1 pool2 :
  mid_pool (pool1 ++ pool2) = mid_pool pool1 + mid_pool pool2.
Proof. induction pool1 as [|th pool1 IH]; simpl; [done|]. rewrite IH. lia. Qed.

Lemma mid_pool_insert pool t th th' :
  pool !! t = Some th →
  mid_pool (<[t := th']> pool) = mid_pool pool - mid_thread th + mid_thread th'.
Proof.
  revert t. induction pool as [|x pool IH]; intros [|t] Ht; simplify_eq/=; [lia|].
  rewrite (IH t Ht). lia.
Qed.

(** ** Goroutines launched by the manager are bystanders *)

Lemma bystander_Ret u : bystander (Ret u).
Proof. constructor; intros t s a s' p' _ Hs; invert Hs. Qed.

Ltac bystander_step :=
  constructor;
  (let Hwf := fresh "Hwf" in let Hs := fresh "Hs" in
   intros ? ? ? ? ? Hwf Hs; invert Hs; norm).

Lemma bystander_task_goroutine l : bystander (task_goroutine l).
Proof.
  unfold task_goroutine. norm.
  bystander_step; [by split_and!|].
  bystander_step; [by split_and!|].
  bystander_step; [split_and!; [done|apply wf_wg_set; [done|lia]|done]|].
  bystander_step; [split_and!; [done|apply wf_wg_set; [done|lia]|done]|].
  apply bystander_Ret.
Qed.

Lemma bystander_wg_watcher w c : bystander (wg_watcher w c).
Proof.
  unfold wg_watcher. norm.
  bystander_step; [by split_and!|].
  bystander_step; [split_and!; [done|by apply wf_set_closed|done]|].
  apply bystander_Ret.
Qed.

(** A step of a bystander leaves the store quiet. *)
Lemma benign_quiet {R} t s (p : Prog R) a s' p' :
  tstep t s p a s' p' → benign a → quiet s s'.
Proof.
  destruct 1; simpl; try done; intros _; try apply quiet_refl.
  - unfold quiet. destruct w as [|l]; simpl in *.
    + simplify_eq. split_and!; try done; try lia. apply wrappers_le_refl.
    + destruct (heap s !! l) as [w|] eqn:Hl; simplify_eq/=.
      split_and!; try done.
      * apply set_eq. intros x. rewrite !elem_of_dom, lookup_alter.
        case_decide; subst; [by rewrite Hl|done].
      * intros l' w' Hw'. rewrite lookup_alter. case_decide; subst.
        -- rewrite Hl in *. simplify_eq. exists (childWG w' - 1). split; [lia|done].
        -- exists (childWG w'). split; [lia|]. rewrite Hw'. by destruct w'.
  - unfold quiet. simpl. split_and!; try done; [apply wrappers_le_refl|set_solver].
Qed.

(** ** Critical sections are safe *)

Lemma safe_Ret {R} t s (r : R) : safe t s (Ret r).
Proof. constructor; intros s1 a s2 p2 _ _ _ Hs; invert Hs. Qed.

Lemma safe_quiet {R} t s s' (p : Prog R) : safe t s p → quiet s s' → safe t s' p.
Proof.
  intros [s0 p0 H1 H2] Q. constructor; intros s1 a s2 p2 Q1; 
    [apply H1|apply H2]; by eapply quiet_trans.
Qed.

Lemma tstep_bind_inv {A B} t s (p : Prog A) (f : A → Prog B) a s' q :
  tstep t s (bind p f) a s' q → (∀ r, p ≠ Ret r) →
  ∃ p', tstep t s p a s' p' ∧ q = bind p' f.
Proof.
  intros Hs Hp. destruct p; simpl in Hs; [by destruct (Hp r)|..];
    invert Hs; eexists; (split; [econstructor; eauto|reflexivity]).
Qed.

Lemma mid_bind {A B} (p : Prog A) (f : A → Prog B) :
  (∀ r, mid (f r) = 0) → mid (bind p f) = mid p.
Proof. intros Hf. destruct p; simpl; try done. Qed.

Lemma Ret_or_effect {A} (p : Prog A) : (∃ r, p = Ret r) ∨ (∀ r, p ≠ Ret r).
Proof. destruct p; eauto. Qed.

Lemma safe_bind {A B} t s (p : Prog A) (f : A → Prog B) :
  safe t s p → (∀ r, mid (f r) = 0) → (∀ r s', safe t s' (f r)) →
  safe t s (bind p f).
Proof.
  intros Hp Hmid Hf. induction Hp as [s p H1 H2 IH].
  destruct (Ret_or_effect p) as [[r ->]|Hne]; [apply Hf|].
  constructor; intros s1 a s2 q Q Hwf Hmu Hs.
  - destruct (tstep_bind_inv _ _ _ _ _ _ _ Hs Hne) as (p' & Hs' & ->).
    destruct (H1 _ _ _ _ Q Hwf Hmu Hs') as (? & ? & ? & ? & ? & Hm & ?).
    split_and!; try done. by rewrite !mid_bind.
  - destruct (tstep_bind_inv _ _ _ _ _ _ _ Hs Hne) as (p' & Hs' & ->). eauto.
Qed.

Ltac safe_step :=
  constructor;
  (let Q := fresh "Q" in let Hwf := fresh "Hwf" in let Hmu := fresh "Hmu" in
   let Hs := fresh "Hs" in
   intros ? ? ? ? Q Hwf Hmu Hs; invert Hs; norm).

Ltac safe_props :=
  split_and!; [done|done|done|try assumption|done|try done|try (intros ? ?; discriminate)].

Lemma safe_WaitGroupWithTimeout t s w d :
  safe t s (WaitGroupWithTimeout (Some w) d).
Proof.
  unfold WaitGroupWithTimeout. destruct (decide (d < 0)); norm.
  - safe_step; [safe_props|]. apply safe_Ret.
  - safe_step; [safe_props; by apply wf_set_next_chan|].
    safe_step.
    { safe_props. intros g [= <-]. split; [apply bystander_wg_watcher|done]. }
    safe_step; [safe_props|].
    safe_step; [safe_props; by destruct i|].
    destruct i; apply safe_Ret.
Qed.

Lemma mid_WaitGroupWithTimeout {B} wg d (f : WaitError → Prog B) :
  (∀ r, mid (f r) = 0) → mid (bind (WaitGroupWithTimeout wg d) f) = 0.
Proof.
  intros Hf. rewrite mid_bind by done. unfold WaitGroupWithTimeout.
  destruct wg; [|done]. by destruct (decide (d < 0)).
Qed.

(** Cancelling the context of a wrapper under the mutex. *)
Lemma wf_cancel_child s0 s1 l w :
  wf s0 → heap s0 !! l = Some w → quiet s0 s1 → wf s1 →
  wf (set_cancelled ({[childCancel w]} ∪ cancelled s1) s1).
Proof.
  intros Hwf0 Hw Q Hwf1. apply (wf_call_cancel (childCancel w) s1 Hwf1).
  destruct (wf_child_alloc _ Hwf0 l w Hw) as [Hlt _].
  destruct Q as (_&_&_&_&_&_&_&_&Hn&_). by rewrite Hn.
Qed.

Lemma safe_Stop t s name d :
  safe t s
    (t ← tasks_lookup name;
     match t with
     | Some t =>
         w ← deref t;
         call_cancel (childCancel w);;
         r ← WaitGroupWithTimeout (Some (ChildWG t)) d;
         if decide (r ≠ WaitSuccess) then
           mret (Some (ErrGoroutineTimeout name d))
         else
           mret None
     | None => mret None
     end).
Proof.
  norm. safe_step; [safe_props; by case_match|].
  case_match; [|apply safe_Ret].
  safe_step; [safe_props|].
  safe_step.
  { safe_props; [eapply wf_cancel_child; [|eassumption|eassumption|assumption]; assumption|].
    apply mid_WaitGroupWithTimeout. intros r. by destruct (decide _). }
  apply safe_bind; [apply safe_WaitGroupWithTimeout| |].
  - intros r. by destruct (decide _).
  - intros r s'. destruct (decide _); apply safe_Ret.
Qed.

Lemma safe_RemoveTask t s name d :
  safe t s
    (t ← tasks_lookup name;
     match t with
     | Some t =>
         w ← deref t;
         call_cancel (childCancel w);;
         r ← WaitGroupWithTimeout (Some (ChildWG t)) d;
         if decide (r ≠ WaitSuccess) then
           mret (Some (ErrGoroutineTimeout name d))
         else
           tasks_delete name;;
           mret None
     | None => mret None
     end).
Proof.
  norm. safe_step; [safe_props; by case_match|].
  case_match; [|apply safe_Ret].
  safe_step; [safe_props|].
  safe_step.
  { safe_props; [eapply wf_cancel_child; [|eassumption|eassumption|assumption]; assumption|].
    apply mid_WaitGroupWithTimeout. intros r. by destruct (decide _). }
  apply safe_bind; [apply safe_WaitGroupWithTimeout| |].
  - intros r. by destruct (decide _).
  - intros r s'. destruct (decide _); [apply safe_Ret|].
    safe_step; [safe_props; by apply wf_Delete|]. apply safe_Ret.
Qed.

Lemma safe_StopAll t s d :
  safe t s
    (cancel ← get_parentCancel;
     call_cancel cancel;;
     r ← WaitGroupWithTimeout (Some ParentWG) d;
     if decide (r ≠ WaitSuccess) then
       mret (Some (ErrGoroutinesTimeout d))
     else
       mret None).
Proof.
  norm. safe_step; [safe_props|].
  safe_step.
  { safe_props.
    - apply (wf_call_cancel _ _ Hwf0).
      destruct Q0 as (_&_&_&_&_&_&Hpc&_&Hn&_). rewrite <- Hpc.
      by apply wf_parent_alloc.
    - apply mid_WaitGroupWithTimeout. intros r. by destruct (decide _). }
  apply safe_bind; [apply safe_WaitGroupWithTimeout| |].
  - intros r. by destruct (decide _).
  - intros r s'. destruct (decide _); apply safe_Ret.
Qed.

Lemma safe_start_one {R} t s l (k : Prog R) :
  mid k = 0 → (∀ s', safe t s' k) →
  safe t s (WgAdd ParentWG 1 (WgAdd (ChildWG l) 1 (Go (task_goroutine l) k))).
Proof.
  intros Hk Hsafe.
  safe_step; [safe_props; by apply wf_wg_set|].
  safe_step; [safe_props; by apply wf_wg_set|].
  safe_step; [|done].
  safe_props. intros g [= <-]. split; [apply bystander_task_goroutine|done].
Qed.

Lemma safe_Start t s name :
  safe t s
    (t ← tasks_lookup name;
     match t with
     | None => mret (Some (ErrTaskNotExist name))
     | Some t =>
         wg_Add ParentWG 1;;
         wg_Add (ChildWG t) 1;;
         go (task_goroutine t);;
         mret None
     end).
Proof.
  norm. safe_step; [safe_props; by case_match|].
  case_match; [|apply safe_Ret].
  apply safe_start_one; [done|]. intros s'. apply safe_Ret.
Qed.

Lemma mid_StartAll_loop ts : mid (StartAll_loop ts) = 0.
Proof. by destruct ts. Qed.

Lemma safe_StartAll_loop t s ts : safe t s (StartAll_loop ts).
Proof.
  revert s. induction ts as [|l ts IH]; intros s; simpl; [apply safe_Ret|].
  norm. apply safe_start_one; [apply mid_StartAll_loop|done].
Qed.

Lemma safe_StartAll t s : safe t s (ts ← tasks_range; StartAll_loop ts).
Proof.
  norm. safe_step; [safe_props; apply mid_StartAll_loop|apply safe_StartAll_loop].
Qed.

Lemma wf_New_under_mu sa sb sc l task :
  wf sb → wf sc → quiet sa sb → quiet (set_next_ctx (S (next_ctx sb)) sb) sc →
  heap sc !! l = None →
  wf (set_heap (<[l := mkTaskWrapper 0 (cancelCtx (next_ctx sb) (parentCtx (gm sa)))
                        (next_ctx sb) task]> (heap sc)) sc).
Proof.
  intros Hwfb Hwfc Qab Qbc Hl.
  pose proof Qbc as (_&_&_&Hd&Hle&Hpx&Hpc&_&Hn&_). simpl in *.
  pose proof Qab as (_&_&_&_&_&Hpx0&_).
  replace (parentCtx (gm sa)) with (parentCtx (gm sc)) by congruence.
  apply wf_New; try done.
  - rewrite Hn. lia.
  - rewrite Hpc. pose proof (wf_parent_alloc _ Hwfb). lia.
  - intros l' w' Hw'.
    destruct (wrappers_le_lookup _ _ _ _ Hle Hw' Hd) as (v & Hv & _ & -> & _).
    destruct (wf_child_alloc _ Hwfb l' v Hv). lia.
Qed.

Lemma wf_Store_under_mu sc sd l w name :
  wf sc → wf sd → heap sc !! l = None →
  quiet (set_heap (<[l := w]> (heap sc)) sc) sd →
  wf (set_gm (set_tasks (<[name := l]> (tasks (gm sd))) (gm sd)) sd).
Proof.
  intros Hwfc Hwfd Hl Q.
  pose proof Q as (_&Ht&_&_&Hle&_). simpl in *.
  apply wf_Store; [done| |].
  - destruct (Hle l w) as (n & _ & Hn); [by rewrite lookup_insert_eq|]. eauto.
  - intros n Hn. rewrite Ht in Hn.
    destruct (wf_tasks _ Hwfc n l Hn) as [v Hv]. congruence.
Qed.

Lemma safe_AddTask t s name task :
  safe t s
    (pctx ← get_parentCtx;
     '(ctx, cancel) ← context_WithCancel pctx;
     t ← new_taskWrapper ctx cancel task;
     tasks_store name t).
Proof.
  norm. safe_step; [safe_props|].
  safe_step; [safe_props; by apply wf_WithCancel|].
  safe_step; [safe_props; eapply wf_New_under_mu; eassumption|].
  safe_step; [safe_props; eapply wf_Store_under_mu; [| |eassumption|eassumption]; assumption|].
  apply safe_Ret.
Qed.

(** ** The calls start outside the mutex *)

Lemma idle_with_mu {R} t (body : Prog R) :
  mid body = 0 → (∀ s, safe t s body) →
  idle t (mu_Lock;; defer mu_Unlock body).
Proof.
  intros Hmid Hsafe. right. exists (bind body (λ r, MuUnlock (Ret r))).
  split; [reflexivity|]. split; [by rewrite mid_bind|].
  intros s _ _. exists body. split; [reflexivity|apply Hsafe].
Qed.

Lemma call_outside t c : outside t (call_thread c).
Proof.
  destruct c; simpl; [left| |left|..]; apply idle_with_mu;
    try reflexivity; intros s.
  - apply safe_AddTask.
  - apply safe_RemoveTask.
  - apply safe_StartAll.
  - apply safe_StopAll.
  - apply safe_Start.
  - apply safe_Stop.
Qed.

Lemma mid_call c : mid_thread (call_thread c) = 0.
Proof. by destruct c. Qed.

(** ** Steps and the mutex *)

Lemma crit_quiet {R} t s s' (p : Prog R) : crit t s p → quiet s s' → crit t s' p.
Proof.
  intros (body & -> & Hs) Q. exists body. split; [reflexivity|].
  eapply safe_quiet; eassumption.
Qed.

(** A step of a call: outside the mutex it can only lock, and it enters its
    critical section; inside, it moves on in the critical section or unlocks
    and returns. *)
Lemma api_step {R} t s (p : Prog R) a s' p' :
  wf s → tstep t s p a s' p' →
  (mu (gm s) ≠ Some t ∧ idle t p) ∨ (mu (gm s) = Some t ∧ crit t s p) →
  wf s' ∧ mid p' = mid p + act_delta a ∧
  (∀ g, a = AGo g → bystander g ∧ mid g = 0) ∧
  ((mu (gm s') ≠ Some t ∧ idle t p') ∨ (mu (gm s') = Some t ∧ crit t s' p')) ∧
  (mu (gm s) = None ∨ mu (gm s) = Some t) ∧
  (mu (gm s') = None ∨ mu (gm s') = Some t).
Proof.
  intros Hwf Hs [[Hmu [[r ->]|(k & -> & Hmid & Hk)]]|[Hmu (body & -> & Hsafe)]].
  - invert Hs.
  - invert Hs. split; [by apply wf_set_mu|]. split; [simpl; lia|].
    split; [by intros g [=]|]. split; [|by split; [left|right]].
    right. split; [done|]. apply Hk; assumption.
  - destruct (Ret_or_effect body) as [[r ->]|Hne].
    + simpl in Hs. invert Hs. split; [by apply wf_set_mu|]. split; [done|].
      split; [by intros g [=]|]. split; [|by split; [right|left]].
      left. split; [done|]. left. exists r. reflexivity.
    + destruct (tstep_bind_inv _ _ _ _ _ _ _ Hs Hne) as (body' & Hs' & ->).
      destruct Hsafe as [s0 body H1 H2].
      destruct (H1 _ _ _ _ (quiet_refl _) Hwf Hmu Hs') as (? & ? & ? & ? & ? & Hm & ?).
      split; [done|]. split; [by rewrite !mid_bind|]. split; [done|].
      split; [|by split; right].
      right. split; [assumption|]. exists body'. split; [reflexivity|].
      exact (H2 _ _ _ _ (quiet_refl _) Hwf Hmu Hs').
Qed.

Lemma bystander_step p t s a s' p' :
  bystander p → wf s → tstep t s p a s' p' →
  benign a ∧ wf s' ∧ mid p' = mid p + act_delta a ∧ bystander p' ∧
  mu (gm s') = mu (gm s).
Proof.
  intros [p0 H1 H2] Hwf Hs. destruct (H1 _ _ _ _ _ Hwf Hs) as (Hb & ? & ?).
  split; [done|]. split; [done|]. split; [done|]. split; [exact (H2 _ _ _ _ _ Hwf Hs)|].
  by destruct (benign_quiet _ _ _ _ _ _ Hs Hb) as (? & _).
Qed.

Lemma benign_not_Go a g : benign a → a ≠ AGo g.
Proof. by destruct a. Qed.

(** What a step of goroutine [t] does, whatever its kind. *)
Lemma thread_move t s th a s' th' :
  wf s → status s t th → tstep_thread t s th a s' th' →
  wf s' ∧ status s' t th' ∧
  mid_thread th' = mid_thread th + act_delta a ∧
  (∀ g, a = AGo g → bystander g ∧ mid g = 0) ∧
  ((mu (gm s) = None ∨ mu (gm s) = Some t) ∧
   (mu (gm s') = None ∨ mu (gm s') = Some t) ∨
   (benign a ∧ mu (gm s') = mu (gm s))).
Proof.
  intros Hwf Hst Hs. unfold status in *.
  destruct th as [p|p], th' as [p'|p']; simpl in *; try tauto.
  - destruct (api_step _ _ _ _ _ _ Hwf Hs Hst) as (? & ? & ? & Hst2 & ? & ?). tauto.
  - destruct Hst as [[Hmu [Hidle|Hby]]|[Hmu Hcrit]].
    + destruct (api_step _ _ _ _ _ _ Hwf Hs (or_introl (conj Hmu Hidle)))
        as (? & ? & ? & Hst2 & ? & ?). tauto.
    + destruct (bystander_step _ _ _ _ _ _ Hby Hwf Hs) as (Hb & ? & ? & Hby' & Hmu').
      split; [assumption|]. split; [left; split; [congruence|right; assumption]|].
      split; [assumption|]. split; [intros g ->; destruct Hb|]. right. tauto.
    + destruct (api_step _ _ _ _ _ _ Hwf Hs (or_intror (conj Hmu Hcrit)))
        as (? & ? & ? & Hst2 & ? & ?). tauto.
Qed.

(** The status of the goroutines that did not move. *)
Lemma status_stable t s th a s' th' t2 th2 :
  wf s → status s t th → tstep_thread t s th a s' th' →
  t2 ≠ t → status s t2 th2 → status s' t2 th2.
Proof.
  intros Hwf Hst Hs Hne Hst2.
  destruct (thread_move _ _ _ _ _ _ Hwf Hst Hs) as (_ & _ & _ & _ & Hmu).
  destruct Hst2 as [[Hmu2 Hout]|[Hmu2 Hin]].
  - left. split; [|assumption].
    destruct Hmu as [[_ [Hm|Hm]]|[_ Hm]]; congruence.
  - destruct Hmu as [[[Hm|Hm] _]|[Hb Hm]]; [congruence|congruence|].
    right. split; [congruence|].
    assert (quiet s s') as Q.
    { destruct th as [p|p], th' as [p'|p']; simpl in Hs; try tauto;
        eapply benign_quiet; eassumption. }
    destruct th2; simpl in *; eapply crit_quiet; eassumption.
Qed.

(** ** The invariant *)

Lemma inv_init : inv (NewGoroutineManager, []).
Proof.
  split; simpl; [apply wf_NewGoroutineManager|done|done|done].
Qed.

Lemma quiet_tick s d : 0 < d → quiet s (set_now (now s + d) s).
Proof.
  intros Hd. unfold quiet; simpl. split_and!; try done; [apply wrappers_le_refl|lia].
Qed.

Lemma status_quiet s s' t th :
  status s t th → quiet s s' → status s' t th.
Proof.
  intros [[Hmu Hout]|[Hmu Hin]] Q; pose proof (quiet_mu _ _ Q) as Hm.
  - left. split; [congruence|assumption].
  - right. split; [congruence|].
    destruct th; simpl in *; eapply crit_quiet; eassumption.
Qed.

(** A step of a goroutine of the pool keeps the invariant. *)
Lemma inv_thread_step s pool t th a s' th' :
  inv (s, pool) → pool !! t = Some th → tstep_thread t s th a s' th' →
  inv (s', <[t := th']> pool ++ spawned a).
Proof.
  intros [Hwf Hhold Hthr Hcnt] Hl Hs; simpl in *.
  pose proof (Hthr t th Hl) as Hst.
  destruct (thread_move _ _ _ _ _ _ Hwf Hst Hs) as (Hwf' & Hst' & Hmid & Hgo & Hmu).
  assert (t < length pool)%nat as Hlt by (by eapply lookup_lt_Some).
  assert (∀ t2, mu (gm s') = Some t2 → (t2 < length pool)%nat) as Hhold'.
  { intros t2 H2. destruct Hmu as [[_ [Hm|Hm]]|[_ Hm]].
    - congruence.
    - assert (t2 = t) as -> by congruence. done.
    - apply Hhold. congruence. }
  split; simpl.
  - done.
  - intros t2 H2. rewrite length_app, length_insert. specialize (Hhold' t2 H2). lia.
  - intros t2 th2 H2.
    destruct (decide (t2 < length pool)%nat) as [Hin|Hout].
    + rewrite lookup_app_l in H2 by (by rewrite length_insert).
      destruct (decide (t2 = t)) as [->|Hne].
      * rewrite list_lookup_insert_eq in H2 by done. injection H2 as <-. exact Hst'.
      * rewrite list_lookup_insert_ne in H2 by done.
        exact (status_stable t s th a s' th' t2 th2 Hwf Hst Hs Hne (Hthr _ _ H2)).
    + rewrite lookup_app_r in H2 by (rewrite length_insert; lia).
      rewrite length_insert in H2.
      destruct a; simpl in H2; try by rewrite lookup_nil in H2.
      destruct (t2 - length pool)%nat eqn:E; simpl in H2; [|by rewrite lookup_nil in H2].
      simplify_eq. destruct (Hgo g eq_refl) as [Hby _].
      left. split; [|right; assumption].
      intros Hm. specialize (Hhold' _ Hm). lia.
  - rewrite mid_pool_app, (mid_pool_insert _ _ _ _ Hl), Hmid.
    assert (mid_pool (spawned a) = 0) as ->.
    { destruct a; simpl; try done. destruct (Hgo g eq_refl) as [_ ->]. done. }
    assert (parentWG (gm s') - sum_childWG (heap s') =
            parentWG (gm s) - sum_childWG (heap s) + act_delta a) as Hd.
    { destruct th as [p|p], th' as [p'|p']; simpl in Hs; try done;
        by eapply tstep_delta. }
    lia.
Qed.

Lemma inv_step c who c' : inv c → step c who c' → inv c'.
Proof.
  intros Hinv Hs. destruct Hs as [s pool t p a s' p' Hl Hs|s pool t p a s' p' Hl Hs
                                 |s pool d Hd|s pool c].
  - by apply (inv_thread_step s pool t (ThErr p) a s' (ThErr p')).
  - by apply (inv_thread_step s pool t (ThUnit p) a s' (ThUnit p')).
  - destruct Hinv as [Hwf Hhold Hthr Hcnt]; simpl in *. split; simpl.
    + by apply wf_set_now.
    + done.
    + intros t th Hl. exact (status_quiet _ _ _ _ (Hthr _ _ Hl) (quiet_tick _ _ Hd)).
    + done.
  - destruct Hinv as [Hwf Hhold Hthr Hcnt]; simpl in *. split; simpl.
    + done.
    + intros t Ht. rewrite length_app. specialize (Hhold t Ht). lia.
    + intros t th Hl.
      destruct (decide (t < length pool)%nat) as [Hin|Hout].
      * rewrite lookup_app_l in Hl by done. exact (Hthr _ _ Hl).
      * rewrite lookup_app_r in Hl by lia.
        destruct (t - length pool)%nat eqn:E; simpl in Hl; [|by rewrite lookup_nil in Hl].
        simplify_eq. left. split; [|apply call_outside].
        intros Hm. specialize (Hhold _ Hm). lia.
    + rewrite mid_pool_app. simpl. rewrite mid_call. lia.
Qed.

(** Every configuration the manager can be in satisfies the invariant. *)
Lemma reachable_inv c : reachable c → inv c.
Proof. induction 1; [apply inv_init|by eapply inv_step]. Qed.

(** The rely is sound: in a configuration that satisfies the invariant, a step
    of any goroutine other than [t], the passing of time and the arrival of a
    call all change the store as [rely t] allows. *)
Lemma step_rely c who c' t :
  inv c → step c who c' → who ≠ Some t → rely t c.1 c'.1.
Proof.
  intros Hinv Hs Hwho.
  pose proof (inv_step _ _ _ Hinv Hs) as Hinv'.
  assert (∀ t2 th a th',
    c.2 !! t2 = Some th → tstep_thread t2 c.1 th a c'.1 th' → t2 ≠ t →
    rely t c.1 c'.1) as Hthread.
  { intros t2 th a th' Hl Hts Hne.
    destruct Hinv as [Hwf Hhold Hthr Hcnt].
    pose proof (Hthr t2 th Hl) as Hst.
    destruct (thread_move _ _ _ _ _ _ Hwf Hst Hts) as (Hwf' & _ & _ & _ & Hmu).
    assert (cancelled c.1 ⊆ cancelled c'.1 ∧ closed c.1 ⊆ closed c'.1 ∧
            now c.1 = now c'.1 ∧ (next_ctx c.1 ≤ next_ctx c'.1)%nat ∧
            (next_chan c.1 ≤ next_chan c'.1)%nat ∧
            parentCtx (gm c'.1) = parentCtx (gm c.1) ∧
            parentCancel (gm c'.1) = parentCancel (gm c.1)) as (?&?&?&?&?&?&?).
    { destruct th as [p|p], th' as [p'|p']; simpl in Hts; try done;
        by eapply tstep_mono. }
    assert (∀ l w, heap c.1 !! l = Some w → ∃ n, heap c'.1 !! l = Some (set_childWG n w))
      as Hheap.
    { intros l w Hw. destruct th as [p|p], th' as [p'|p']; simpl in Hts; try done;
        by eapply tstep_wrapper_fields. }
    split; try done; try lia.
    - intros Hm. destruct Hmu as [[_ [Hm'|Hm']]|[_ Hm']]; congruence.
    - intros Hm. destruct Hmu as [[[Hm'|Hm'] _]|[Hb Hm']]; [congruence|congruence|].
      assert (quiet c.1 c'.1 ∧ next_chan c'.1 = next_chan c.1) as [Q Hnc].
      { destruct th as [p|p], th' as [p'|p']; simpl in Hts; try done.
        - split; [by eapply benign_quiet|]. destruct Hts; simpl in *; try done; by destruct w.
        - split; [by eapply benign_quiet|]. destruct Hts; simpl in *; try done; by destruct w. }
      destruct Q as (?&?&?&?&Hle&?&?&?&?&?&?).
      split_and!; try done; try congruence.
      intros l w w' Hw Hw'. destruct (Hle l w Hw) as (n & Hn & Hl').
      rewrite Hw' in Hl'. injection Hl' as ->. done. }
  destruct Hs as [s pool t2 p a s' p' Hl Hs|s pool t2 p a s' p' Hl Hs
                 |s pool d Hd|s pool c]; simpl in *.
  - apply (Hthread t2 (ThErr p) a (ThErr p')); [done|done|congruence].
  - apply (Hthread t2 (ThUnit p) a (ThUnit p')); [done|done|congruence].
  - destruct Hinv' as [Hwf' _ _ _]. simpl in *.
    split; simpl; try done; try lia.
    + intros l w Hw. exists (childWG w). by destruct w.
    + intros Hm. split_and!; try done. intros l w w' Hw Hw'. by simplify_eq.
  - apply rely_refl.
Qed.

(** ** Building configurations *)

Lemma reachable_calls cs : reachable (NewGoroutineManager, call_thread <$> cs).
Proof.
  induction cs as [|c cs IH] using rev_ind; [apply reachable_init|].
  rewrite fmap_app. simpl. eapply reachable_step; [exact IH|apply step_call].
Qed.

Lemma reachable_steps c sched c' : reachable c → steps c sched c' → reachable c'.
Proof.
  intros Hr Hs. induction Hs as [|c who c1 sched c' H1 _ IH]; [done|].
  apply IH. by eapply reachable_step.
Qed.

Ltac side := vm_compute; first [reflexivity | discriminate | done].

Ltac solo_tstep :=
  first
  [ apply step_Lock; side
  | eapply step_Unlock; side
  | apply step_GetParentCtx
  | apply step_GetParentCancel
  | apply step_Lookup
  | apply step_Store
  | apply step_Delete
  | apply (step_New _ _ _ _ _ 0%nat); side
  | apply (step_New _ _ _ _ _ 1%nat); side
  | apply (step_New _ _ _ _ _ 2%nat); side
  | eapply step_Deref; side
  | apply step_WithCancel
  | apply step_Cancel
  | eapply step_Add; [side|side]
  | eapply step_Done; [side|side]
  | apply step_Wait; side
  | apply step_Go
  | apply step_MakeChan
  | apply step_Close; side
  | apply step_TimeAfter
  | eapply (step_Select _ _ _ 0%nat); [reflexivity|side]
  | eapply (step_Select _ _ _ 1%nat); [reflexivity|side]
  | apply step_CallTask ].


(** One step of a goroutine of the pool, of either kind, and a whole schedule. *)
Ltac pool_step :=
  first
  [ eapply step_unit; [reflexivity|solo_tstep]
  | eapply step_err; [reflexivity|solo_tstep] ].

Ltac schedule := repeat (eapply steps_cons; [pool_step|]); apply steps_nil.

(** A whole run of a goroutine that is alone. *)
Ltac eval_prog :=
  lazymatch goal with
  | |- run ?t ?E ?s ?p ?tr ?s' ?r =>
      let p' := eval vm_compute in p in change (run t E s p' tr s' r)
  end.

Ltac solo :=
  repeat (eval_prog;
          lazymatch goal with
          | |- run _ _ _ (Ret _) _ _ _ => fail
          | |- _ => eapply run_Step; [reflexivity | solo_tstep | ]
          end);
  eval_prog; apply run_Ret.

(** [AddTask("a", 7)], [Start("a")], and [AddTask("a", 8)] while the task runs:
    the registry now holds a new handle for "a" and the running goroutine
    keeps the old one. *)
Lemma orphan_config :
  ∃ s pool,
    steps (NewGoroutineManager,
           call_thread <$> [CallAddTask "a" 7%nat; CallStart "a"; CallAddTask "a" 8%nat])
          (replicate 6 (Some 0%nat) ++ replicate 6 (Some 1%nat) ++
           replicate 6 (Some 2%nat))
          (s, pool) ∧
    mu (gm s) = None ∧
    pool = [ThUnit (Ret ()); ThErr (Ret None); ThUnit (Ret ());
            ThUnit (task_goroutine 0%nat)] ∧
    tasks (gm s) = {["a" := 1%nat]} ∧
    childWG <$> heap s !! 0%nat = Some 1 ∧
    childWG <$> heap s !! 1%nat = Some 0 ∧
    dom (heap s) = {[0%nat; 1%nat]} ∧
    parentWG (gm s) = 1 ∧ sum_registered s = 0 ∧ sum_childWG (heap s) = 1 ∧
    mid_pool pool = 0.
Proof.
  eexists _, _. split; [simpl; schedule|]. vm_compute. split_and!; reflexivity.
Qed.

(** [AddTask("a", 7)], [Start("a")], and the task goroutine up to the middle of
    its deferred function: [tw.childWG.Done()] is done, [gm.parentWG.Done()]
    is not. *)
Lemma mid_return_config :
  ∃ s pool,
    steps (NewGoroutineManager, call_thread <$> [CallAddTask "a" 7%nat; CallStart "a"])
          (replicate 6 (Some 0%nat) ++ replicate 6 (Some 1%nat) ++
           replicate 3 (Some 2%nat))
          (s, pool) ∧
    mu (gm s) = None ∧
    pool = [ThUnit (Ret ()); ThErr (Ret None); ThUnit (WgDone ParentWG (Ret ()))] ∧
    tasks (gm s) = {["a" := 0%nat]} ∧
    childWG <$> heap s !! 0%nat = Some 0 ∧
    dom (heap s) = {[0%nat]} ∧
    parentWG (gm s) = 1 ∧ sum_registered s = 0 ∧ sum_childWG (heap s) = 0 ∧
    mid_pool pool = 1.
Proof.
  eexists _, _. split; [simpl; schedule|]. vm_compute. split_and!; reflexivity.
Qed.

(** [AddTask("a", 7)], [Start("a")], the task goroutine up to the call of the
    body, then [Stop("a", 1000)] up to the [select] of its bounded wait, while
    a call [AddTask("b", 8)] has arrived. *)
Lemma stop_holds_mutex_config :
  ∃ s pool k,
    steps (NewGoroutineManager,
           call_thread <$> [CallAddTask "a" 7%nat; CallStart "a";
                            CallStop "a" 1000; CallAddTask "b" 8%nat])
          (replicate 6 (Some 0%nat) ++ replicate 6 (Some 1%nat) ++
           [Some 4%nat] ++ replicate 7 (Some 2%nat))
          (s, pool) ∧
    pool !! 2%nat = Some (ThErr (Select [RecvChan 0%nat; RecvTimer 1000] k)) ∧
    mu (gm s) = Some 2%nat ∧ now s = 0 ∧
    blocked 2%nat s (Select [RecvChan 0%nat; RecvTimer 1000] k) ∧
    pool !! 3%nat = Some (call_thread (CallAddTask "b" 8%nat)) ∧
    blocked 3%nat s (AddTask "b" 8%nat) ∧
    pool !! 4%nat =
      Some (ThUnit (CallTask 7%nat (cancelCtx 1 (cancelCtx 0 Background))
                      (WgDone (ChildWG 0%nat) (WgDone ParentWG (Ret ()))))) ∧
    pool !! 5%nat = Some (ThUnit (wg_watcher (ChildWG 0%nat) 0%nat)).
Proof.
  eexists _, _, _. split; [simpl; schedule|].
  split; [reflexivity|]. split; [reflexivity|]. split; [reflexivity|].
  split.
  { intros a s' p' H. vm_compute in H. invert H.
    match goal with Hr : ready _ _ = true |- _ => rename Hr into Hready end.
    destruct i as [|[|i]]; simpl in *; simplify_eq; vm_compute in Hready; discriminate. }
  split; [reflexivity|]. split.
  { intros a s' p' H. vm_compute in H. invert H. discriminate. }
  split; reflexivity.
Qed.

(** ** The mutex and the waits *)

Lemma call_thread_blocked u s c a s' th' :
  mu (gm s) ≠ None → ¬ tstep_thread u s (call_thread c) a s' th'.
Proof.
  intros Hmu Hs. destruct c, th' as [p'|p']; simpl in Hs; try done;
    unfold AddTask, RemoveTask, StartAll, StopAll, Start, Stop in Hs; norm;
    invert Hs; done.
Qed.

Lemma safe_no_task_call {R} t s (p : Prog R) a s' p' :
  safe t s p → wf s → mu (gm s) = Some t → tstep t s p a s' p' →
  ∀ f ctx, a ≠ ACallTask f ctx.
Proof.
  intros [s0 b H1 _] Hwf Hmu Hs.
  by destruct (H1 _ _ _ _ (quiet_refl _) Hwf Hmu Hs) as (_ & _ & Hn & _).
Qed.

Lemma crit_not_task_call {R} t s (p : Prog R) :
  wf s → mu (gm s) = Some t → crit t s p → ¬ is_task_call p.
Proof.
  intros Hwf Hmu (body & -> & Hsafe) Hc.
  destruct body; simpl in Hc; try done.
  eapply safe_no_task_call; [exact Hsafe|exact Hwf|exact Hmu|apply step_CallTask|].
  reflexivity.
Qed.

Lemma idle_not_wait {R} t (p : Prog R) : idle t p → ¬ is_wait p.
Proof. intros [[r ->]|(k & -> & _)] H; exact H. Qed.

(** C9 (amended).  In every reachable configuration: a goroutine that is about
    to run, or is running, a task body does not hold the manager's mutex; but a
    call of [RemoveTask], [Stop], [StopAll] or [Start] that stands at a wait
    (the [select] of the bounded wait, or [wg.Wait()]) does hold it, because
    [gm.mu.Unlock()] is deferred to the return of the call.  No step of another
    goroutine, nor the passing of time, releases it, and meanwhile every call
    that has not yet taken the mutex ([AddTask], [Start], [StartAll] and the
    others alike) cannot take a step. *)
Theorem mutex_held_through_wait s pool :
  reachable (s, pool) →
  (∀ t p, pool !! t = Some (ThUnit p) → is_task_call p → mu (gm s) ≠ Some t) ∧
  (∀ t p, pool !! t = Some (ThErr p) → is_wait p →
     mu (gm s) = Some t ∧
     (∀ who c', step (s, pool) who c' → who ≠ Some t → mu (gm c'.1) = Some t) ∧
     (∀ u c a s' th', pool !! u = Some (call_thread c) →
        ¬ tstep_thread u s (call_thread c) a s' th')).
Proof.
  intros Hreach. pose proof (reachable_inv _ Hreach) as Hinv.
  destruct Hinv as [Hwf Hholder Hthreads Hcount]. simpl in *.
  split.
  - intros t p Hl Hc. destruct (Hthreads _ _ Hl) as [[Hmu _]|[Hmu Hin]]; [done|].
    simpl in Hin. by destruct (crit_not_task_call _ _ _ Hwf Hmu Hin).
  - intros t p Hl Hw. destruct (Hthreads _ _ Hl) as [[_ Hout]|[Hmu _]].
    { by destruct (idle_not_wait _ _ Hout). }
    split; [done|]. split.
    + intros who c' Hs Hwho.
      pose proof (step_rely _ _ _ t (reachable_inv _ Hreach) Hs Hwho) as Hr.
      by destruct (rely_held _ _ _ Hr Hmu) as [? _].
    + intros u c a s' th' _. apply call_thread_blocked. congruence.
Qed.

(** In the configuration of [stop_holds_mutex_config]. *)
Lemma mutex_held_through_wait_witness :
  ∃ s pool k,
    reachable (s, pool) ∧
    pool !! 2%nat = Some (ThErr (Select [RecvChan 0%nat; RecvTimer 1000] k)) ∧
    mu (gm s) = Some 2%nat ∧
    mu (gm s) ≠ Some 4%nat ∧
    (∀ a s' th',
       ¬ tstep_thread 3%nat s (call_thread (CallAddTask "b" 8%nat)) a s' th').
Proof.
  destruct stop_holds_mutex_config
    as (s & pool & k & Hs & H2 & _ & _ & _ & H3 & _ & H4 & _).
  assert (reachable (s, pool)) as Hr.
  { eapply reachable_steps; [apply reachable_calls|exact Hs]. }
  destruct (mutex_held_through_wait s pool Hr) as [Hbody Hwait].
  destruct (Hwait _ _ H2 I) as (Hmu & _ & Hblocked).
  exists s, pool, k.
  split; [exact Hr|]. split; [exact H2|]. split; [exact Hmu|].
  split; [exact (Hbody _ _ H4 I)|].
  intros a s' th'. exact (Hblocked _ _ a s' th' H3).
Defined.

(** C9 as stated fails.  The calls [AddTask("a", 7)], [Start("a")],
    [Stop("a", 1000)] and [AddTask("b", 8)] are goroutines 0 to 3.  Goroutines
    0 and 1 run to their return, which launches the task goroutine 4; it
    reaches the call of the body; then goroutine 2 runs [Stop] up to the
    [select] of [WaitGroupWithTimeout] (launching the watcher 5).  There, at
    time 0 with a timer of 1000, [Stop] cannot move and holds the mutex, and
    [AddTask("b", 8)] cannot move either: it is blocked for as long as [Stop]
    waits, not only for the time of a lock acquisition. *)
Lemma mutex_released_before_wait_counterexample :
  (∃ s pool k,
     steps (NewGoroutineManager,
            call_thread <$> [CallAddTask "a" 7%nat; CallStart "a";
                             CallStop "a" 1000; CallAddTask "b" 8%nat])
           (replicate 6 (Some 0%nat) ++ replicate 6 (Some 1%nat) ++
            [Some 4%nat] ++ replicate 7 (Some 2%nat))
           (s, pool) ∧
     pool !! 2%nat = Some (ThErr (Select [RecvChan 0%nat; RecvTimer 1000] k)) ∧
     is_wait (Select [RecvChan 0%nat; RecvTimer 1000] k) ∧
     mu (gm s) = Some 2%nat ∧ now s = 0 ∧
     blocked 2%nat s (Select [RecvChan 0%nat; RecvTimer 1000] k) ∧
     pool !! 3%nat = Some (ThUnit (AddTask "b" 8%nat)) ∧
     blocked 3%nat s (AddTask "b" 8%nat)) ∧
  ¬ (∀ s pool t p,
       reachable (s, pool) → pool !! t = Some (ThErr p) → is_wait p →
       mu (gm s) ≠ Some t).
Proof.
  destruct stop_holds_mutex_config
    as (s & pool & k & Hs & H2 & Hmu & Hnow & Hb2 & H3 & Hb3 & _).
  split.
  - exists s, pool, k. split; [exact Hs|]. split; [exact H2|]. split; [exact I|].
    split; [exact Hmu|]. split; [exact Hnow|]. split; [exact Hb2|].
    split; [exact H3|exact Hb3].
  - intros H. eapply (H s pool 2%nat); [|exact H2|exact I|exact Hmu].
    eapply reachable_steps; [apply reachable_calls|exact Hs].
Qed.

(** ** The counters *)

Lemma mid_pool_nonneg pool : 0 ≤ mid_pool pool.
Proof.
  induction pool as [|th pool IH]; simpl; [done|].
  assert (0 ≤ mid_thread th); [|lia].
  destruct th as [p|p]; simpl; destruct p; simpl; try done; destruct w; done.
Qed.

Lemma sum_childWG_nonneg (h : gmap loc taskWrapper) :
  (∀ l w, h !! l = Some w → 0 ≤ childWG w) → 0 ≤ sum_childWG h.
Proof.
  induction h as [|l w h Hl IH] using map_ind; intros Hpos; [done|].
  rewrite sum_childWG_insert by done.
  assert (0 ≤ childWG w) by (apply (Hpos l); by rewrite lookup_insert_eq).
  assert (0 ≤ sum_childWG h); [|lia].
  apply IH. intros l' w' Hw'. apply (Hpos l').
  rewrite lookup_insert_ne; [done|]. intros ->. congruence.
Qed.

Lemma sum_handles_insert h (m : gmap string loc) n l :
  m !! n = None →
  sum_handles h (<[n := l]> m) = default 0 (childWG <$> h !! l) + sum_handles h m.
Proof.
  intros Hn. unfold sum_handles. rewrite map_fold_insert_L; [done| |done].
  intros. lia.
Qed.

Lemma sum_handles_delete h (m : gmap string loc) l :
  (∀ n, m !! n ≠ Some l) → sum_handles (delete l h) m = sum_handles h m.
Proof.
  induction m as [|n l' m Hn IH] using map_ind; intros Hl; [done|].
  rewrite !sum_handles_insert by done.
  assert (l' ≠ l) as Hne.
  { intros ->. apply (Hl n). by rewrite lookup_insert_eq. }
  rewrite lookup_delete_ne by done. rewrite IH; [done|].
  intros n' Hn'. apply (Hl n'). rewrite lookup_insert_ne; [done|]. intros ->. congruence.
Qed.

(** The registered handles are some of the handles: their counters sum to no
    more than the counters of all. *)
Lemma sum_handles_le (m : gmap string loc) : ∀ h : gmap loc taskWrapper,
  (∀ n1 n2 l, m !! n1 = Some l → m !! n2 = Some l → n1 = n2) →
  (∀ l w, h !! l = Some w → 0 ≤ childWG w) →
  sum_handles h m ≤ sum_childWG h.
Proof.
  induction m as [|n l m Hn IH] using map_ind; intros h Hinj Hpos.
  - unfold sum_handles. rewrite map_fold_empty. by apply sum_childWG_nonneg.
  - rewrite sum_handles_insert by done.
    assert (∀ n', m !! n' ≠ Some l) as Hl.
    { intros n' Hn'. assert (n' = n) as ->; [|congruence].
      apply (Hinj n' n l); [|by rewrite lookup_insert_eq].
      rewrite lookup_insert_ne; [done|]. intros ->. congruence. }
    assert (∀ n1 n2 l0, m !! n1 = Some l0 → m !! n2 = Some l0 → n1 = n2) as Hinj'.
    { intros n1 n2 l0 H1 H2. apply (Hinj n1 n2 l0).
      - rewrite lookup_insert_ne; [done|]. intros ->. congruence.
      - rewrite lookup_insert_ne; [done|]. intros ->. congruence. }
    destruct (h !! l) as [w|] eqn:Hw; simpl.
    + rewrite (sum_childWG_delete h l w Hw).
      rewrite <- (sum_handles_delete h m l Hl).
      assert (sum_handles (delete l h) m ≤ sum_childWG (delete l h)); [|lia].
      apply IH; [exact Hinj'|].
      intros l' w' Hw'. apply (Hpos l'). by apply lookup_delete_Some in Hw' as [_ ?].
    + assert (sum_handles h m ≤ sum_childWG h); [|lia]. by apply IH.
Qed.

(** C8 (amended).  In every reachable configuration the manager's counter
    [parentWG] equals the sum of the counters [childWG] of all task wrappers
    ever created, whether still registered, replaced by a later [AddTask] or
    removed, plus the number of goroutines that stand between the two halves
    of a paired update (after [gm.parentWG.Add(1)] and before
    [t.childWG.Add(1)], or after [tw.childWG.Done()] and before
    [gm.parentWG.Done()]).  So the two agree whenever no goroutine is between
    the halves of a pair, and the sum over the registered handles alone is
    never larger than the manager's counter. *)
Theorem parentWG_accounting s pool :
  reachable (s, pool) →
  parentWG (gm s) = sum_childWG (heap s) + mid_pool pool ∧
  (mid_pool pool = 0 → parentWG (gm s) = sum_childWG (heap s)) ∧
  sum_registered s ≤ parentWG (gm s).
Proof.
  intros Hreach. destruct (reachable_inv _ Hreach) as [Hwf _ _ Hcount]. simpl in *.
  split; [exact Hcount|]. split; [lia|].
  pose proof (mid_pool_nonneg pool).
  assert (sum_registered s ≤ sum_childWG (heap s)); [|lia].
  apply sum_handles_le; [apply (wf_tasks_inj _ Hwf)|apply (wf_childWG _ Hwf)].
Qed.

(** In the configuration of [mid_return_config]. *)
Lemma parentWG_accounting_witness :
  ∃ s pool,
    reachable (s, pool) ∧
    mid_pool pool = 1 ∧ sum_childWG (heap s) = 0 ∧
    parentWG (gm s) = sum_childWG (heap s) + mid_pool pool ∧
    sum_registered s ≤ parentWG (gm s).
Proof.
  destruct mid_return_config as (s & pool & Hs & _ & _ & _ & _ & _ & _ & _ & Hsum & Hmid).
  assert (reachable (s, pool)) as Hr.
  { eapply reachable_steps; [apply reachable_calls|exact Hs]. }
  destruct (parentWG_accounting s pool Hr) as (Heq & _ & Hle).
  exists s, pool.
  split; [exact Hr|]. split; [exact Hmid|]. split; [exact Hsum|].
  split; [exact Heq|exact Hle].
Defined.

(** C8 as stated fails, in two ways.  After [AddTask("a", 7)], [Start("a")]
    and [AddTask("a", 8)], all returned, the registry holds the new handle of
    "a" with counter 0, the launched goroutine keeps the replaced handle with
    counter 1, and the manager's counter is 1: it is not the sum over the
    registered handles.  And after [AddTask("a", 7)] and [Start("a")], when the
    task goroutine has done [tw.childWG.Done()] and not yet
    [gm.parentWG.Done()], the manager's counter is 1 and every handle's counter
    is 0, with no call of the manager in progress. *)
Lemma parentWG_sum_counterexample :
  (∃ s pool,
     steps (NewGoroutineManager,
            call_thread <$> [CallAddTask "a" 7%nat; CallStart "a";
                             CallAddTask "a" 8%nat])
           (replicate 6 (Some 0%nat) ++ replicate 6 (Some 1%nat) ++
            replicate 6 (Some 2%nat))
           (s, pool) ∧
     pool = [ThUnit (Ret ()); ThErr (Ret None); ThUnit (Ret ());
             ThUnit (task_goroutine 0%nat)] ∧
     tasks (gm s) = {["a" := 1%nat]} ∧
     childWG <$> heap s !! 0%nat = Some 1 ∧
     childWG <$> heap s !! 1%nat = Some 0 ∧
     parentWG (gm s) = 1 ∧ sum_registered s = 0) ∧
  (∃ s pool,
     steps (NewGoroutineManager,
            call_thread <$> [CallAddTask "a" 7%nat; CallStart "a"])
           (replicate 6 (Some 0%nat) ++ replicate 6 (Some 1%nat) ++
            replicate 3 (Some 2%nat))
           (s, pool) ∧
     pool = [ThUnit (Ret ()); ThErr (Ret None); ThUnit (WgDone ParentWG (Ret ()))] ∧
     tasks (gm s) = {["a" := 0%nat]} ∧
     childWG <$> heap s !! 0%nat = Some 0 ∧
     dom (heap s) = {[0%nat]} ∧
     parentWG (gm s) = 1 ∧ sum_registered s = 0 ∧ sum_childWG (heap s) = 0) ∧
  ¬ (∀ s pool, reachable (s, pool) → parentWG (gm s) = sum_registered s) ∧
  ¬ (∀ s pool, reachable (s, pool) → parentWG (gm s) = sum_childWG (heap s)).
Proof.
  destruct orphan_config
    as (s1 & pool1 & Hs1 & _ & Hp1 & Ht1 & Hw0 & Hw1 & _ & Hpw1 & Hreg1 & _).
  destruct mid_return_config
    as (s2 & pool2 & Hs2 & _ & Hp2 & Ht2 & Hw2 & Hd2 & Hpw2 & Hreg2 & Hsum2 & _).
  assert (reachable (s1, pool1)) as Hr1.
  { eapply reachable_steps; [apply reachable_calls|exact Hs1]. }
  assert (reachable (s2, pool2)) as Hr2.
  { eapply reachable_steps; [apply reachable_calls|exact Hs2]. }
  split.
  { exists s1, pool1. split; [exact Hs1|]. split; [exact Hp1|]. split; [exact Ht1|].
    split; [exact Hw0|]. split; [exact Hw1|]. split; [exact Hpw1|exact Hreg1]. }
  split.
  { exists s2, pool2. split; [exact Hs2|]. split; [exact Hp2|]. split; [exact Ht2|].
    split; [exact Hw2|]. split; [exact Hd2|]. split; [exact Hpw2|].
    split; [exact Hreg2|exact Hsum2]. }
  split.
  - intros H. specialize (H _ _ Hr1). lia.
  - intros H. specialize (H _ _ Hr2). lia.
Qed.

(** ** Runs on a manager with registered tasks *)

(** Both example stores are reachable, hence well formed. *)
Lemma two_tasks_reachable : ∃ pool, reachable (two_tasks, pool).
Proof.
  assert (∃ c, steps (NewGoroutineManager,
                      call_thread <$> [CallAddTask "a" 7%nat; CallAddTask "b" 8%nat])
                 (replicate 6 (Some 0%nat) ++ replicate 6 (Some 1%nat)) c ∧
               c.1 = two_tasks) as ([s pool] & Hs & Heq).
  { eexists. split; [simpl; schedule|]. vm_compute. reflexivity. }
  simpl in Heq. subst s. exists pool.
  eapply reachable_steps; [apply reachable_calls|exact Hs].
Qed.

Lemma two_running_reachable : ∃ pool, reachable (two_running, pool).
Proof.
  assert (∃ c, steps (NewGoroutineManager,
                      call_thread <$> [CallAddTask "a" 7%nat; CallAddTask "b" 8%nat;
                                       CallStart "a"; CallStart "b"])
                 (replicate 6 (Some 0%nat) ++ replicate 6 (Some 1%nat) ++
                  replicate 6 (Some 2%nat) ++ replicate 6 (Some 3%nat)) c ∧
               c.1 = two_running) as ([s pool] & Hs & Heq).
  { eexists. split; [simpl; schedule|]. vm_compute. reflexivity. }
  simpl in Heq. subst s. exists pool.
  eapply reachable_steps; [apply reachable_calls|exact Hs].
Qed.

Lemma wf_two_tasks : wf two_tasks.
Proof. destruct two_tasks_reachable as [pool H]. apply (inv_wf _ (reachable_inv _ H)). Qed.

Lemma wf_two_running : wf two_running.
Proof. destruct two_running_reachable as [pool H]. apply (inv_wf _ (reachable_inv _ H)). Qed.

(** [Start("a")] on the idle manager; [Stop("a", 0)] on the running one, where
    the timer wins; [RemoveTask("a", -1)] on the idle one. *)
Lemma Start_registered_run :
  ∃ tr s', run 0%nat (rely 0%nat) two_tasks (Start "a") tr s' None ∧
    head tr = Some (two_tasks, ALock, lock_by 0%nat two_tasks).
Proof.
  eexists _, _. split.
  - eapply run_mono; [apply alone_rely|]. solo.
  - reflexivity.
Qed.

Lemma Stop_running_run :
  ∃ tr s', run 0%nat (rely 0%nat) two_running (Stop "a" 0) tr s'
             (Some (ErrGoroutineTimeout "a" 0)) ∧
    head tr = Some (two_running, ALock, lock_by 0%nat two_running) ∧
    ctx_done s' (cancelCtx 1 (cancelCtx 0 Background)) = true ∧
    ctx_done s' (cancelCtx 2 (cancelCtx 0 Background)) = false ∧
    ctx_done s' (cancelCtx 0 Background) = false ∧
    childWG <$> heap s' !! 1%nat = Some 1.
Proof.
  eexists _, _. split.
  - eapply run_mono; [apply alone_rely|]. solo.
  - vm_compute. split_and!; reflexivity.
Qed.

Lemma RemoveTask_registered_run :
  ∃ tr s', run 0%nat (rely 0%nat) two_tasks (RemoveTask "a" (-1)) tr s' None ∧
    head tr = Some (two_tasks, ALock, lock_by 0%nat two_tasks) ∧
    tasks (gm s') = {["b" := 1%nat]}.
Proof.
  eexists _, _. split.
  - eapply run_mono; [apply alone_rely|]. solo.
  - vm_compute. split_and!; reflexivity.
Qed.

(** [Start] of a registered task. *)
Lemma Start_launches_one_witness :
  ∃ tr s',
    run 0%nat (rely 0%nat) two_tasks (Start "a") tr s' None ∧
    launched tr = [task_goroutine 0%nat] ∧
    acts tr = [ALock; ALookup "a" (Some 0%nat); AAdd ParentWG 1;
               AAdd (ChildWG 0%nat) 1; AGo (task_goroutine 0%nat); AUnlock].
Proof.
  destruct Start_registered_run as (tr & s' & Hrun & Hh).
  destruct (Start_launches_one _ _ _ _ _ _ Hrun) as [(s0 & _ & Hh0 & _ & Hreg) _].
  assert (s0 = two_tasks) as -> by congruence.
  destruct (Hreg 0%nat eq_refl) as (_ & Hl & s1 & s2 & n & s3 & m & s4 & s5 & -> & _).
  eexists _, s'. split; [exact Hrun|]. split; [exact Hl|reflexivity].
Defined.

(** [Stop] of a running task that times out: the registry is as before. *)
Lemma Stop_never_modifies_registry_witness :
  ∃ tr s',
    run 0%nat (rely 0%nat) two_running (Stop "a" 0) tr s'
      (Some (ErrGoroutineTimeout "a" 0)) ∧
    Forall frame_step tr ∧
    tasks (gm s') = {["a" := 0%nat; "b" := 1%nat]}.
Proof.
  destruct Stop_running_run as (tr & s' & Hrun & Hh & _).
  destruct (Stop_never_modifies_registry _ _ _ _ _ _ _ Hrun)
    as (Hfr & (s0 & _ & Hh0 & Ht & _) & _).
  assert (s0 = two_running) as -> by congruence.
  exists tr, s'. split; [exact Hrun|]. split; [exact Hfr|exact Ht].
Defined.

(** [RemoveTask] of a registered task that is not running: the entry goes. *)
Lemma RemoveTask_removes_iff_wait_succeeds_witness :
  ∃ tr s',
    run 0%nat (rely 0%nat) two_tasks (RemoveTask "a" (-1)) tr s' None ∧
    tasks (gm s') = delete "a" (tasks (gm two_tasks)).
Proof.
  destruct RemoveTask_registered_run as (tr & s' & Hrun & Hh & _).
  destruct (RemoveTask_removes_iff_wait_succeeds _ _ _ _ _ _ _ Hrun)
    as (s0 & _ & Hh0 & _ & Hreg).
  assert (s0 = two_tasks) as -> by congruence.
  destruct (Hreg 0%nat eq_refl)
    as (w & sa & sb & pre & trw & post & res & _ & _ & _ & _ &
        [(_ & _ & Ht & _)|(_ & Hr & _)]); [|discriminate Hr].
  exists tr, s'. split; [exact Hrun|exact Ht].
Defined.

(** [Stop("a", 0)] with "a" and "b" running: "a" is cancelled; "b", the parent
    context and the counter of "b" are untouched. *)
Lemma cancellation_one_directional_witness :
  ∃ tr s',
    run 0%nat (rely 0%nat) two_running (Stop "a" 0) tr s'
      (Some (ErrGoroutineTimeout "a" 0)) ∧
    wf two_running ∧
    Forall (isolated "a") tr ∧
    ctx_done s' (cancelCtx 1 (cancelCtx 0 Background)) = true ∧
    ctx_done s' (cancelCtx 2 (cancelCtx 0 Background)) = false ∧
    ctx_done s' (cancelCtx 0 Background) = false ∧
    childWG <$> heap s' !! 1%nat = Some 1.
Proof.
  destruct Stop_running_run as (tr & s' & Hrun & _ & Hfacts).
  exists tr, s'. split; [exact Hrun|]. split; [exact wf_two_running|].
  split; [|exact Hfacts].
  exact (proj1 (cancellation_one_directional _ _ _ _ _ _ _
                  (or_introl Hrun) wf_two_running)).
Defined.

(** * Further properties *)

(** ** Every method is one critical section *)

Lemma run_crit {R} t s (body : Prog R) tr s' r :
  safe t s body → wf s → mu (gm s) = Some t →
  run t (rely t) s (bind body (λ r, MuUnlock (Ret r))) tr s' r →
  ∃ tr0 x,
    tr = tr0 ++ [(x, AUnlock, unlock x)] ∧ Forall (inner_step t) tr0 ∧
    mu (gm x) = Some t ∧ wf x ∧ s' = unlock x.
Proof.
  intros Hsafe Hwf Hmu Hrun.
  remember (bind body (λ r, MuUnlock (Ret r))) as p eqn:Hp.
  revert body Hsafe Hwf Hmu Hp.
  induction Hrun as [s r|s s1 p a s2 p2 tr s' r HE Hs Hrun IH];
    intros body Hsafe Hwf Hmu Hp.
  - destruct body; discriminate.
  - subst p.
    pose proof (rely_quiet _ _ _ HE Hmu) as Q.
    pose proof (rely_wf _ _ _ HE Hwf) as Hwf1.
    assert (mu (gm s1) = Some t) as Hmu1 by (rewrite (quiet_mu _ _ Q); exact Hmu).
    destruct (Ret_or_effect body) as [[r0 ->]|Hne].
    + simpl in Hs. invert Hs. invert Hrun.
      * exists [], s1. split; [reflexivity|]. split; [constructor|].
        split; [exact Hmu1|]. split; [exact Hwf1|reflexivity].
      * match goal with H : tstep _ _ (Ret _) _ _ _ |- _ => invert H end.
    + destruct (tstep_bind_inv _ _ _ _ _ _ _ Hs Hne) as (body' & Hs' & ->).
      destruct Hsafe as [s0 body H1 H2].
      destruct (H1 _ _ _ _ Q Hwf1 Hmu1 Hs') as (? & ? & ? & Hwf2 & Hmu2 & _).
      pose proof (H2 _ _ _ _ Q Hwf1 Hmu1 Hs') as Hsafe2.
      destruct (IH body' Hsafe2 Hwf2 Hmu2 eq_refl) as (tr0 & x & -> & Hall & ? & ? & ->).
      exists ((s1, a, s2) :: tr0), x. split; [reflexivity|].
      split; [|split; [assumption|split; [assumption|reflexivity]]].
      constructor; [|exact Hall]. unfold inner_step. simpl.
      split; [exact Hmu1|]. split; [exact Hmu2|]. split; [assumption|].
      split; [assumption|]. split; [assumption|]. split; assumption.
Qed.

Lemma call_idle t c :
  match call_thread c with ThErr p => idle t p | ThUnit p => idle t p end.
Proof.
  destruct c; simpl; apply idle_with_mu; try reflexivity; intros s.
  - apply safe_AddTask.
  - apply safe_RemoveTask.
  - apply safe_StartAll.
  - apply safe_StopAll.
  - apply safe_Start.
  - apply safe_Stop.
Qed.

Lemma run_idle {R} t s (p : Prog R) tr s' r :
  idle t p → (∀ r0, p ≠ Ret r0) → wf s →
  run t (rely t) s p tr s' r →
  ∃ s0 tr0 x,
    rely t s s0 ∧ mu (gm s0) = None ∧
    tr = (s0, ALock, lock_by t s0) :: tr0 ++ [(x, AUnlock, unlock x)] ∧
    Forall (inner_step t) tr0 ∧
    mu (gm x) = Some t ∧ s' = unlock x ∧ wf s'.
Proof.
  intros [[r0 ->]|(k & -> & _ & Hk)] Hne Hwf Hrun; [by destruct (Hne r0)|].
  invert Hrun.
  match goal with H : tstep _ _ (MuLock _) _ _ _ |- _ => invert H end.
  match goal with H : rely _ _ _ |- _ => rename H into HE end.
  match goal with H : mu (gm _) = None |- _ => rename H into Hfree end.
  pose proof (rely_wf _ _ _ HE Hwf) as Hwf1.
  destruct (Hk _ Hwf1 Hfree) as (body & -> & Hsafe).
  match goal with H : run _ _ _ _ _ _ _ |- _ => rename H into Hrun end.
  destruct (run_crit _ _ _ _ _ _ Hsafe (wf_set_mu _ _ Hwf1) eq_refl Hrun)
    as (trm & xm & -> & Hall & Hx & Hwfx & ->).
  eexists _, trm, xm. split; [exact HE|]. split; [exact Hfree|].
  split; [reflexivity|]. split; [exact Hall|]. split; [exact Hx|].
  split; [reflexivity|]. by apply wf_set_mu.
Qed.

(** X3.  Every method of the manager is one critical section, on every path
    (also the early error returns, thanks to [defer gm.mu.Unlock()]): its
    first step takes the mutex, which was free; its last step releases it; at
    every step in between the caller holds the mutex, and none of these steps
    locks, unlocks or runs a task body; a well-formed store stays well formed;
    on return the mutex is free. *)
Theorem method_is_critical_section t s c tr s' :
  run_thread t (rely t) s (call_thread c) tr s' → wf s →
  ∃ s0 tr0 x,
    rely t s s0 ∧ mu (gm s0) = None ∧
    tr = (s0, ALock, lock_by t s0) :: tr0 ++ [(x, AUnlock, unlock x)] ∧
    Forall (inner_step t) tr0 ∧
    mu (gm x) = Some t ∧ s' = unlock x ∧ mu (gm s') = None ∧ wf s'.
Proof.
  intros Hrun Hwf. pose proof (call_idle t c) as Hidle.
  assert (∀ R (p : Prog R) r, idle t p → (∀ r0, p ≠ Ret r0) →
            run t (rely t) s p tr s' r →
            ∃ s0 tr0 x,
              rely t s s0 ∧ mu (gm s0) = None ∧
              tr = (s0, ALock, lock_by t s0) :: tr0 ++ [(x, AUnlock, unlock x)] ∧
              Forall (inner_step t) tr0 ∧
              mu (gm x) = Some t ∧ s' = unlock x ∧ mu (gm s') = None ∧ wf s') as Hgen.
  { intros R p r Hi Hne Hr.
    destruct (run_idle _ _ _ _ _ _ Hi Hne Hwf Hr)
      as (s0 & tr0 & x & ? & ? & ? & ? & ? & -> & ?).
    exists s0, tr0, x. split_and!; try assumption; reflexivity. }
  destruct c; simpl in *; destruct Hrun as [r Hrun];
    (eapply Hgen; [exact Hidle| |exact Hrun]); intros r0; discriminate.
Qed.

(** [Stop("a", 0)] with "a" running, where the timer wins. *)
Lemma method_is_critical_section_witness :
  ∃ tr s',
    run_thread 0%nat (rely 0%nat) two_running (call_thread (CallStop "a" 0)) tr s' ∧
    wf two_running ∧
    head tr = Some (two_running, ALock, lock_by 0%nat two_running) ∧
    mu (gm s') = None ∧ wf s'.
Proof.
  destruct Stop_running_run as (tr & s' & Hrun & Hh & _).
  assert (run_thread 0%nat (rely 0%nat) two_running
            (call_thread (CallStop "a" 0)) tr s') as Hth.
  { simpl. eexists. exact Hrun. }
  destruct (method_is_critical_section _ _ _ _ _ Hth wf_two_running)
    as (s0 & tr0 & x & _ & _ & _ & _ & _ & _ & Hmu & Hwf).
  exists tr, s'. split; [exact Hth|]. split; [exact wf_two_running|].
  split; [exact Hh|]. split; [exact Hmu|exact Hwf].
Defined.

(** ** [StartAll] *)

Lemma StartAll_loop_run t ts : ∀ s tr s' u,
  run t (rely t) s (StartAll_loop ts) tr s' u → mu (gm s) = Some t →
  acts tr = start_acts ts ∧ launched tr = task_goroutine <$> ts ∧
  mu (gm s') = Some t ∧ tasks (gm s') = tasks (gm s) ∧ cancelled s' = cancelled s.
Proof.
  induction ts as [|l ts IH]; intros s tr s' u H Hmu; simpl in H.
  - exec1. done.
  - exec1. exec1. exec1.
    match goal with H : run _ _ _ (StartAll_loop ts) _ _ _ |- _ => rename H into Hrun end.
    to_quiet.
    repeat match goal with Q : quiet _ _ |- _ =>
      destruct Q as (? & ? & ? & _); simpl in * end.
    destruct (IH _ _ _ _ Hrun) as (Ha & Hl & ? & ? & ?); [simpl; congruence|].
    simpl. rewrite Ha, Hl. split; [reflexivity|]. split; [reflexivity|].
    simpl in *. split_and!; congruence.
Qed.

Lemma NoDup_registered s ts :
  wf s → ts ≡ₚ (map_to_list (tasks (gm s))).*2 → NoDup ts.
Proof.
  intros Hwf ->. apply NoDup_fmap_2_strong; [|apply NoDup_map_to_list].
  intros [n1 l1] [n2 l2] H1%elem_of_map_to_list H2%elem_of_map_to_list Heq.
  simpl in Heq. subst l2. f_equal. by eapply (wf_tasks_inj _ Hwf).
Qed.

(** X1.  [StartAll] launches one goroutine for each registered handle, in the order
    in which the [range] over the registry yields them: it locks, ranges,
    and for each handle increments the manager's counter, then the handle's
    counter, and launches [task_goroutine]; then it unlocks.  It leaves the
    registry and the cancelled contexts as they were when it took the mutex.
    On an empty registry it launches nothing. *)
Theorem StartAll_launches_each t s tr s' u :
  run t (rely t) s StartAll tr s' u → wf s →
  ∃ s0 ts,
    rely t s s0 ∧ head tr = Some (s0, ALock, lock_by t s0) ∧
    ts ≡ₚ (map_to_list (tasks (gm s0))).*2 ∧ NoDup ts ∧
    (∀ l, l ∈ ts ↔ ∃ name, tasks (gm s0) !! name = Some l) ∧
    acts tr = ALock :: ARange ts :: start_acts ts ++ [AUnlock] ∧
    launched tr = task_goroutine <$> ts ∧
    (tasks (gm s0) = ∅ → launched tr = []) ∧
    tasks (gm s') = tasks (gm s0) ∧ cancelled s' = cancelled s0 ∧
    mu (gm s') = None.
Proof.
  unfold StartAll. intros H Hwf. exec1.
  match goal with H : rely _ s ?x |- _ => rename x into s0; rename H into HE end.
  exec1. split_bind. exec1. exec1.
  match goal with H : run _ _ _ (StartAll_loop _) _ _ _ |- _ => rename H into Hloop end.
  match goal with H : _ ≡ₚ _ |- _ => rename H into Hperm end.
  match goal with H : rely _ ?a ?b, H' : mu (gm ?b) = Some _ |- _ =>
    rename H into HE2; rename H' into Hh end.
  to_quiet.
  repeat match goal with Q : quiet _ _ |- _ =>
    destruct Q as (? & ? & ? & _); simpl in * end.
  destruct (StartAll_loop_run _ _ _ _ _ _ Hloop) as (Ha & Hl & Hm & Ht & Hc);
    [congruence|].
  pose proof (rely_quiet _ _ _ HE2 Hm) as (? & ? & ? & _).
  assert (ts ≡ₚ (map_to_list (tasks (gm s0))).*2) as Hperm0 by congruence.
  exists s0, ts. split; [exact HE|]. split; [reflexivity|]. split; [exact Hperm0|].
  split; [eapply NoDup_registered; [exact (rely_wf _ _ _ HE Hwf)|exact Hperm0]|].
  split.
  { intros l. rewrite Hperm0, list_elem_of_fmap. split.
    - intros ([n l'] & -> & Hin%elem_of_map_to_list). by exists n.
    - intros (n & Hn). exists (n, l). split; [done|]. by apply elem_of_map_to_list. }
  split.
  { unfold acts in *. simpl. rewrite fmap_app, Ha. reflexivity. }
  split.
  { unfold launched in *. simpl. rewrite omap_app, Hl. simpl. by rewrite app_nil_r. }
  split.
  { intros He. unfold launched in *. simpl. rewrite omap_app, Hl. simpl.
    rewrite He, map_to_list_empty in Hperm0. apply Permutation_nil_r in Hperm0.
    by subst ts. }
  simpl. split_and!; congruence.
Qed.

Lemma StartAll_two_tasks_run :
  ∃ tr s', run 0%nat (rely 0%nat) two_tasks StartAll tr s' () ∧
    head tr = Some (two_tasks, ALock, lock_by 0%nat two_tasks).
Proof.
  eexists _, _. split.
  - eapply run_mono; [apply alone_rely|].
    eval_prog. eapply run_Step; [reflexivity|solo_tstep|].
    eval_prog. eapply run_Step; [reflexivity|apply step_Range; reflexivity|].
    solo.
  - reflexivity.
Qed.

(** [StartAll] on the manager with "a" and "b" registered. *)
Lemma StartAll_launches_each_witness :
  ∃ tr s' ts,
    run 0%nat (rely 0%nat) two_tasks StartAll tr s' () ∧ wf two_tasks ∧
    ts ≡ₚ [0%nat; 1%nat] ∧
    launched tr = task_goroutine <$> ts ∧
    tasks (gm s') = tasks (gm two_tasks).
Proof.
  destruct StartAll_two_tasks_run as (tr & s' & Hrun & Hh).
  destruct (StartAll_launches_each _ _ _ _ _ Hrun wf_two_tasks)
    as (s0 & ts & _ & Hh0 & Hperm & _ & _ & _ & Hl & _ & Ht & _).
  assert (s0 = two_tasks) as -> by congruence.
  exists tr, s', ts. split; [exact Hrun|]. split; [exact wf_two_tasks|].
  split; [|split; [exact Hl|exact Ht]].
  rewrite Hperm. vm_compute. reflexivity.
Defined.

(** ** The mutex in the whole system *)

Lemma guarded_not_benign a : guarded a → benign a → False.
Proof. by destruct a. Qed.

Lemma idle_step_Lock {R} t (p : Prog R) s a s' p' :
  idle t p → tstep t s p a s' p' → a = ALock.
Proof. intros [[r ->]|(k & -> & _)] Hs; by invert Hs. Qed.

(** [AddTask("a", 7)] up to its [gm.tasks[name] = ...]. *)
Lemma store_config :
  ∃ s pool k,
    steps (NewGoroutineManager, call_thread <$> [CallAddTask "a" 7%nat])
          (replicate 4 (Some 0%nat)) (s, pool) ∧
    pool = [ThUnit (TasksStore "a" 0%nat k)] ∧ mu (gm s) = Some 0%nat ∧
    tasks (gm s) = ∅.
Proof.
  eexists _, _, _. split; [simpl; schedule|]. vm_compute. split_and!; reflexivity.
Qed.

(** X4.  In every reachable configuration, whoever reads or writes the registry,
    reads the parent context or its cancel function, derives or cancels a
    context, creates a handle, increments a counter, launches a goroutine or
    unlocks, holds the mutex at that moment. *)
Theorem guarded_actions_under_mutex s pool t th a s' th' :
  reachable (s, pool) → pool !! t = Some th →
  tstep_thread t s th a s' th' → guarded a →
  mu (gm s) = Some t.
Proof.
  intros Hreach Hl Hs Hg.
  destruct (reachable_inv _ Hreach) as [Hwf _ Hthreads _]. simpl in *.
  destruct (Hthreads _ _ Hl) as [[_ Hout]|[Hmu _]]; [|exact Hmu].
  exfalso.
  destruct th as [p|p], th' as [p'|p']; simpl in Hs, Hout; try done.
  - rewrite (idle_step_Lock _ _ _ _ _ _ Hout Hs) in Hg. exact Hg.
  - destruct Hout as [Hi|Hb].
    + rewrite (idle_step_Lock _ _ _ _ _ _ Hi Hs) in Hg. exact Hg.
    + destruct (bystander_step _ _ _ _ _ _ Hb Hwf Hs) as (Hben & _).
      exact (guarded_not_benign _ Hg Hben).
Qed.

(** The store of the registry by [AddTask("a", 7)]. *)
Lemma guarded_actions_under_mutex_witness :
  ∃ s pool k,
    reachable (s, pool) ∧
    pool !! 0%nat = Some (ThUnit (TasksStore "a" 0%nat k)) ∧
    guarded (AStore "a" 0%nat) ∧ mu (gm s) = Some 0%nat.
Proof.
  destruct store_config as (s & pool & k & Hs & -> & _ & _).
  assert (reachable (s, [ThUnit (TasksStore "a" 0%nat k)])) as Hr.
  { eapply reachable_steps; [apply reachable_calls|exact Hs]. }
  eexists s, _, k. split; [exact Hr|]. split; [reflexivity|]. split; [exact I|].
  apply (guarded_actions_under_mutex s _ 0%nat (ThUnit (TasksStore "a" 0%nat k))
           (AStore "a" 0%nat)
           (set_gm (set_tasks (<["a" := 0%nat]> (tasks (gm s))) (gm s)) s) (ThUnit k) Hr);
    [reflexivity|apply step_Store|exact I].
Defined.

(** X5.  While a goroutine holds the mutex, no step of another goroutine, no tick
    of the clock and no arriving call takes the mutex from it, changes the
    registry, cancels a context, creates a handle or a context, or increments
    a counter; counters may drop, and every handle keeps its context, its
    cancel function and its task. *)
Theorem registry_stable_while_locked c who c' t :
  reachable c → step c who c' → mu (gm c.1) = Some t → who ≠ Some t →
  mu (gm c'.1) = Some t ∧
  tasks (gm c'.1) = tasks (gm c.1) ∧
  cancelled c'.1 = cancelled c.1 ∧
  dom (heap c'.1) = dom (heap c.1) ∧
  next_ctx c'.1 = next_ctx c.1 ∧
  parentWG (gm c'.1) ≤ parentWG (gm c.1) ∧
  (∀ l w, heap c.1 !! l = Some w →
     ∃ n, n ≤ childWG w ∧ heap c'.1 !! l = Some (set_childWG n w)).
Proof.
  intros Hreach Hs Hmu Hwho.
  pose proof (step_rely _ _ _ t (reachable_inv _ Hreach) Hs Hwho) as Hr.
  destruct (rely_held _ _ _ Hr Hmu) as (? & ? & ? & ? & ? & _ & ? & Hle).
  split_and!; try assumption.
  intros l w Hw. destruct (rely_heap _ _ _ Hr l w Hw) as (n & Hn).
  exists n. split; [|exact Hn]. apply (Hle l w _ Hw Hn).
Qed.

(** While [Stop("a", 1000)] waits holding the mutex, the body of "a" returns. *)
Lemma registry_stable_while_locked_witness :
  ∃ c c',
    reachable c ∧ step c (Some 4%nat) c' ∧ mu (gm c.1) = Some 2%nat ∧
    mu (gm c'.1) = Some 2%nat ∧ tasks (gm c'.1) = tasks (gm c.1).
Proof.
  destruct stop_holds_mutex_config
    as (s & pool & k & Hs & _ & Hmu & _ & _ & _ & _ & H4 & _).
  assert (reachable (s, pool)) as Hr.
  { eapply reachable_steps; [apply reachable_calls|exact Hs]. }
  assert (step (s, pool) (Some 4%nat)
            (s, <[4%nat := ThUnit (WgDone (ChildWG 0%nat) (WgDone ParentWG (Ret ())))]> pool
                ++ spawned (ACallTask 7%nat (cancelCtx 1 (cancelCtx 0 Background)))))
    as Hstep.
  { eapply step_unit; [exact H4|apply step_CallTask]. }
  destruct (registry_stable_while_locked _ _ _ 2%nat Hr Hstep Hmu) as (Hm & Ht & _).
  { discriminate. }
  eexists _, _. split; [exact Hr|]. split; [exact Hstep|].
  split; [exact Hmu|]. split; [exact Hm|exact Ht].
Defined.

(** ** No panic on the deferred calls *)

Lemma mid_thread_nonneg th : 0 ≤ mid_thread th.
Proof. destruct th as [p|p]; simpl; destruct p; simpl; try done; destruct w; done. Qed.

Lemma mid_pool_lookup pool t th :
  pool !! t = Some th → mid_thread th ≤ mid_pool pool.
Proof.
  revert t. induction pool as [|x pool IH]; intros [|t] Ht; simplify_eq/=.
  - pose proof (mid_pool_nonneg pool). lia.
  - pose proof (IH _ Ht). pose proof (mid_thread_nonneg x). lia.
Qed.

Lemma bystander_not_Unlock k : ¬ bystander (MuUnlock k).
Proof.
  intros Hb.
  assert (tstep 0%nat (lock_by 0%nat NewGoroutineManager) (MuUnlock k) AUnlock
            (unlock (lock_by 0%nat NewGoroutineManager)) k) as Hs.
  { by eapply step_Unlock. }
  destruct (bystander_step _ _ _ _ _ _ Hb
              (wf_set_mu _ _ wf_NewGoroutineManager) Hs) as (Hben & _).
  exact Hben.
Qed.

(** X6.  In every reachable configuration, a goroutine that stands at the deferred
    [gm.mu.Unlock()] holds the mutex, so the unlock succeeds (no unlock of an
    unlocked mutex); and when a goroutine stands at [gm.parentWG.Done()] the
    manager's counter is positive, so the decrement succeeds (no negative
    counter). *)
Theorem deferred_calls_never_panic s pool t th :
  reachable (s, pool) → pool !! t = Some th →
  (at_unlock th → mu (gm s) = Some t ∧ can_step t s th) ∧
  (at_parent_done th → 0 < parentWG (gm s) ∧ can_step t s th).
Proof.
  intros Hreach Hl.
  destruct (reachable_inv _ Hreach) as [Hwf _ Hthreads Hcount]. simpl in *.
  split.
  - intros Hat.
    assert (mu (gm s) = Some t) as Hmu.
    { destruct (Hthreads _ _ Hl) as [[_ Hout]|[Hmu _]]; [exfalso|exact Hmu].
      destruct th as [p|p]; destruct p; simpl in Hat; try done; simpl in Hout.
      - by destruct Hout as [[r [=]]|(k & [=] & _)].
      - destruct Hout as [[[r [=]]|(k & [=] & _)]|Hb].
        by apply bystander_not_Unlock in Hb. }
    split; [exact Hmu|].
    destruct th as [p|p]; destruct p; simpl in Hat; try done.
    + eexists AUnlock, _, (ThErr _). simpl. by eapply step_Unlock.
    + eexists AUnlock, _, (ThUnit _). simpl. by eapply step_Unlock.
  - intros Hat.
    assert (mid_thread th = 1) as Hmid.
    { destruct th as [p|p]; destruct p; simpl in Hat; try done; by destruct w. }
    pose proof (mid_pool_lookup _ _ _ Hl) as Hle.
    pose proof (sum_childWG_nonneg _ (wf_childWG _ Hwf)) as Hsum.
    assert (0 < parentWG (gm s)) as Hpos by lia.
    split; [exact Hpos|].
    destruct th as [p|p]; destruct p; simpl in Hat; try done; destruct w; try done.
    + eexists (ADone ParentWG), _, (ThErr _). simpl.
      by eapply (step_Done _ _ ParentWG (parentWG (gm s))).
    + eexists (ADone ParentWG), _, (ThUnit _). simpl.
      by eapply (step_Done _ _ ParentWG (parentWG (gm s))).
Qed.

(** The task goroutine of "a" between its two deferred decrements. *)
Lemma deferred_calls_never_panic_witness :
  ∃ s pool,
    reachable (s, pool) ∧
    pool !! 2%nat = Some (ThUnit (WgDone ParentWG (Ret ()))) ∧
    0 < parentWG (gm s) ∧
    can_step 2%nat s (ThUnit (WgDone ParentWG (Ret ()))).
Proof.
  destruct mid_return_config as (s & pool & Hs & _ & -> & _).
  assert (reachable (s, [ThUnit (Ret ()); ThErr (Ret None);
                          ThUnit (WgDone ParentWG (Ret ()))])) as Hr.
  { eapply reachable_steps; [apply reachable_calls|exact Hs]. }
  destruct (deferred_calls_never_panic _ _ 2%nat _ Hr eq_refl) as [_ H].
  destruct (H I) as [Hpos Hstep].
  eexists _, _. split; [exact Hr|]. split; [reflexivity|]. split; [exact Hpos|exact Hstep].
Defined.

(** ** [Stop] of a registered task *)

Lemma launched_acts tr :
  launched tr = omap (λ a, match a with AGo g => Some g | _ => None end) (acts tr).
Proof.
  induction tr as [|[[x a] y] tr IH]; [done|].
  unfold launched, acts in *. destruct a; simpl; first [exact IH | f_equal; exact IH].
Qed.

Lemma launched_app tr1 tr2 : launched (tr1 ++ tr2) = launched tr1 ++ launched tr2.
Proof. unfold launched. apply omap_app. Qed.

(** X2.  [Stop(name, timeout)] on a name registered to handle [l] when the mutex is
    taken: it cancels the handle's context, for good, and leaves the name
    registered to [l]; it returns [nil] or the timeout error of that name,
    the latter only for a non-negative timeout that has elapsed; with a
    negative timeout it returns only [nil], with the handle's counter at zero,
    and launches nothing; with a non-negative one it launches one watcher
    goroutine for the handle's counter. *)
Theorem Stop_registered t s name d tr s' r :
  run t (rely t) s (Stop name d) tr s' r → wf s →
  ∃ s0, rely t s s0 ∧ head tr = Some (s0, ALock, lock_by t s0) ∧
    ∀ l, tasks (gm s0) !! name = Some l →
      ∃ w, heap s' !! l = Some w ∧
        tasks (gm s') !! name = Some l ∧
        childCancel w ∈ cancelled s' ∧ ctx_done s' (childCtx w) = true ∧
        ((r = None ∧ (d < 0 → childWG w = 0)) ∨
         (r = Some (ErrGoroutineTimeout name d) ∧ 0 ≤ d ∧ now s0 + d ≤ now s')) ∧
        (d < 0 → r = None ∧ launched tr = []) ∧
        (0 ≤ d → ∃ c, launched tr = [wg_watcher (ChildWG l) c]).
Proof.
  intros H Hwf.
  assert (wf s') as Hwf'.
  { pose proof (call_idle t (CallStop name d)) as Hi. simpl in Hi.
    destruct (run_idle _ _ _ _ _ _ Hi (λ r0, ltac:(discriminate)) Hwf H)
      as (? & ? & ? & _ & _ & _ & _ & _ & _ & ?). assumption. }
  destruct (Stop_cases _ _ _ _ _ _ _ H) as (s0 & Hr & Hm & Hc).
  exists s0. split; [exact Hr|].
  destruct Hc as [(Hn & -> & s1 & s2 & -> & Q & ->)
                 |(l & w & s1 & s2 & s3 & s4 & s5 & trw & res & Hl & Hw & -> &
                   Q1 & Q2 & Q3 & Hwf3 & Hrun & Q4 & -> & Hres)].
  { split; [reflexivity|]. intros l Hl. congruence. }
  split; [reflexivity|]. intros l' Hl'. assert (l' = l) as -> by congruence.
  assert (mu (gm (call_cancel_at (childCancel w) s3)) = Some t) as Hmu3.
  { simpl. rewrite (quiet_mu _ _ Q3), (quiet_mu _ _ Q2), (quiet_mu _ _ Q1). reflexivity. }
  destruct (WaitGroupWithTimeout_quiet _ _ _ _ _ _ _ Hrun Hmu3) as [Qw _].
  destruct (WaitGroupWithTimeout_run _ _ _ _ _ _ _ Hrun) as (Hneg & Hpos & _).
  assert (wrappers_le (heap s2) (heap s5)) as Hle.
  { destruct Q3 as (_&_&_&_&H3&_). destruct Qw as (_&_&_&_&Hw4&_).
    destruct Q4 as (_&_&_&_&H5&_). simpl in Hw4.
    eapply wrappers_le_trans; [exact H3|]. eapply wrappers_le_trans; [exact Hw4|exact H5]. }
  destruct (Hle l w Hw) as (n & Hn & Hw5).
  exists (set_childWG n w). simpl.
  assert (cancelled s5 = {[childCancel w]} ∪ cancelled s3) as Hcan.
  { destruct Qw as (_&_&Hc4&_). destruct Q4 as (_&_&Hc5&_). simpl in Hc4. congruence. }
  assert (childCancel w ∈ cancelled s5) as Hin.
  { rewrite Hcan. apply elem_of_union. left. by apply elem_of_singleton. }
  split; [exact Hw5|]. split.
  { destruct Q1 as (_&T1&_), Q2 as (_&T2&_), Q3 as (_&T3&_), Qw as (_&Tw&_),
      Q4 as (_&T4&_). simpl in *. congruence. }
  split; [exact Hin|]. split.
  { pose proof (wf_childCtx _ Hwf' l _ Hw5) as Hctx. simpl in Hctx.
    rewrite Hctx. simpl. rewrite bool_decide_eq_true_2 by exact Hin. reflexivity. }
  assert (now s0 ≤ now s3) as Hnow3.
  { destruct Q1 as (_&_&_&_&_&_&_&_&_&N1&_), Q2 as (_&_&_&_&_&_&_&_&_&N2&_),
      Q3 as (_&_&_&_&_&_&_&_&_&N3&_). simpl in *. lia. }
  assert (now s4 ≤ now s5) as Hnow5.
  { destruct Q4 as (_&_&_&_&_&_&_&_&_&N4&_). exact N4. }
  split; [|split].
  - destruct (decide (d < 0)) as [Hd|Hd].
    + destruct (Hneg Hd) as (-> & Hz & _). left. simpl in Hres. split; [exact Hres|].
      intros _. simpl in Hz.
      destruct (heap s4 !! l) as [w4|] eqn:Hw4; simpl in Hz; [|discriminate].
      destruct Q4 as (_&_&_&_&H5&_). destruct (H5 l w4 Hw4) as (m & Hm' & Hw5').
      rewrite Hw5 in Hw5'. injection Hw5' as Heq.
      pose proof (wf_childWG _ Hwf' l _ Hw5) as Hge. simpl in Hge.
      assert (childWG (set_childWG n w) = childWG (set_childWG m w4)) as Hc
        by (by rewrite Heq).
      simpl in Hc. injection Hz as Hz. lia.
    + destruct Hpos as (c & dl & i & _ & [(-> & _)|(-> & _ & Hel)]); [lia| |].
      * left. split; [exact Hres|]. intros ?. lia.
      * right. split; [exact Hres|]. split; [lia|]. simpl in Hel. simpl. lia.
  - intros Hd. destruct (Hneg Hd) as (-> & _ & Ha). split; [exact Hres|].
    rewrite launched_acts. unfold acts in *. simpl. rewrite fmap_app, Ha. reflexivity.
  - intros Hd. destruct (Hpos Hd) as (c & dl & i & Ha & _). exists c.
    rewrite launched_acts. unfold acts in *. simpl. rewrite fmap_app, Ha. reflexivity.
Qed.

(** [Stop("a", 0)] with "a" running, where the timer wins. *)
Lemma Stop_registered_witness :
  ∃ tr s' w,
    run 0%nat (rely 0%nat) two_running (Stop "a" 0) tr s'
      (Some (ErrGoroutineTimeout "a" 0)) ∧
    wf two_running ∧
    heap s' !! 0%nat = Some w ∧ tasks (gm s') !! "a" = Some 0%nat ∧
    ctx_done s' (childCtx w) = true.
Proof.
  destruct Stop_running_run as (tr & s' & Hrun & Hh & _).
  destruct (Stop_registered _ _ _ _ _ _ _ Hrun wf_two_running) as (s0 & _ & Hh0 & Hreg).
  assert (s0 = two_running) as -> by congruence.
  destruct (Hreg 0%nat eq_refl) as (w & Hw & Ht & _ & Hd & _).
  exists tr, s', w. split; [exact Hrun|]. split; [exact wf_two_running|].
  split; [exact Hw|]. split; [exact Ht|exact Hd].
Defined.

(** ** After the parent context is cancelled *)

(** What [AddTask] leaves behind. *)
Lemma AddTask_result t s name f tr s' u :
  run t (rely t) s (AddTask name f) tr s' u → wf s →
  wf s' ∧ mu (gm s') = None ∧ cancelled s ⊆ cancelled s' ∧
  ∃ l w,
    tasks (gm s') !! name = Some l ∧ heap s' !! l = Some w ∧
    task w = f ∧ childWG w = 0 ∧
    childCtx w = cancelCtx (childCancel w) (parentCtx (gm s)) ∧
    childCancel w ∉ cancelled s'.
Proof.
  intros H Hwf.
  assert (wf s' ∧ mu (gm s') = None) as [Hwf' Hmu'].
  { pose proof (call_idle t (CallAddTask name f)) as Hi. simpl in Hi.
    destruct (run_idle _ _ _ _ _ _ Hi (λ r0, ltac:(discriminate)) Hwf H)
      as (? & ? & ? & _ & _ & _ & _ & _ & -> & ?). split; [assumption|reflexivity]. }
  destruct (AddTask_cases _ _ _ _ _ _ _ H)
    as (s0 & s1 & s2 & s3 & s4 & s5 & l & w & Hr & Hm & -> & -> & Hfresh &
        Q1 & Q2 & Q3 & Q4 & Q5 & Hwf2 & _ & _ & _ & ->).
  set (w := mkTaskWrapper 0 (cancelCtx (next_ctx s2) (parentCtx (gm s1))) (next_ctx s2) f) in *.
  assert (wrappers_le (<[l := w]> (heap s3)) (heap s5)) as Hle.
  { destruct Q4 as (_&_&_&_&H4&_), Q5 as (_&_&_&_&H5&_). simpl in *.
    eapply wrappers_le_trans; [exact H4|exact H5]. }
  destruct (Hle l w) as (n & Hn & Hw5); [by rewrite lookup_insert_eq|].
  assert (parentCtx (gm s1) = parentCtx (gm s)) as Hpc.
  { destruct Q1 as (_&_&_&_&_&P1&_). simpl in P1. rewrite P1.
    apply (rely_parentCtx _ _ _ Hr). }
  assert (cancelled s5 = cancelled s2) as Hcan.
  { destruct Q3 as (_&_&C3&_), Q4 as (_&_&C4&_), Q5 as (_&_&C5&_).
    simpl in *. by rewrite C5, C4, C3. }
  assert (cancelled s ⊆ cancelled s5) as Hsub.
  { destruct Q2 as (_&_&C2&_). simpl in *. rewrite Hcan, C2.
    apply (rely_cancelled _ _ _ Hr). }
  split; [exact Hwf'|]. split; [exact Hmu'|]. split; [exact Hsub|].
  exists l, (set_childWG n w). simpl.
  split.
  { destruct Q5 as (_&T5&_). simpl in T5. rewrite T5. by rewrite lookup_insert_eq. }
  split; [exact Hw5|]. split; [reflexivity|]. split.
  { pose proof (wf_childWG _ Hwf' l _ Hw5) as Hge. simpl in *. lia. }
  split; [by rewrite Hpc|].
  rewrite Hcan. intros Hin.
  pose proof (wf_cancelled _ (Hwf2 (rely_wf _ _ _ Hr Hwf)) _ Hin). lia.
Qed.

(** X7.  Once the parent context is done (after [StopAll]), [AddTask] still
    registers the task, but the context of the new handle is done from the
    start: the manager cannot be used again after [StopAll]. *)
Theorem AddTask_after_cancel t s name f tr s' u :
  run t (rely t) s (AddTask name f) tr s' u → wf s →
  ctx_done s (parentCtx (gm s)) = true →
  ∃ l w,
    tasks (gm s') !! name = Some l ∧ heap s' !! l = Some w ∧
    task w = f ∧ childWG w = 0 ∧
    childCtx w = cancelCtx (childCancel w) (parentCtx (gm s)) ∧
    ctx_done s' (childCtx w) = true.
Proof.
  intros H Hwf Hdone.
  destruct (AddTask_result _ _ _ _ _ _ _ H Hwf)
    as (_ & _ & Hsub & l & w & Ht & Hw & Hf & Hz & Hc & _).
  exists l, w. split_and!; try assumption.
  rewrite Hc. simpl. apply orb_true_intro. right.
  apply (ctx_done_mono s); [exact Hsub|exact Hdone].
Qed.

Lemma AddTask_cancelled_run :
  ∃ tr s', run 0%nat (rely 0%nat) (call_cancel_at 0%nat NewGoroutineManager)
             (AddTask "a" 7%nat) tr s' ().
Proof. eexists _, _. eapply run_mono; [apply alone_rely|]. solo. Qed.

(** [AddTask("a", 7)] on a new manager whose parent context is cancelled. *)
Lemma AddTask_after_cancel_witness :
  ∃ tr s' l w,
    run 0%nat (rely 0%nat) (call_cancel_at 0%nat NewGoroutineManager)
      (AddTask "a" 7%nat) tr s' () ∧
    wf (call_cancel_at 0%nat NewGoroutineManager) ∧
    ctx_done (call_cancel_at 0%nat NewGoroutineManager) (cancelCtx 0 Background) = true ∧
    tasks (gm s') !! "a" = Some l ∧ heap s' !! l = Some w ∧
    ctx_done s' (childCtx w) = true.
Proof.
  destruct AddTask_cancelled_run as (tr & s' & Hrun).
  assert (wf (call_cancel_at 0%nat NewGoroutineManager)) as Hwf.
  { apply wf_call_cancel; [apply wf_NewGoroutineManager|simpl; lia]. }
  destruct (AddTask_after_cancel _ _ _ _ _ _ _ Hrun Hwf eq_refl)
    as (l & w & Ht & Hw & _ & _ & _ & Hd).
  exists tr, s', l, w. split; [exact Hrun|]. split; [exact Hwf|].
  split; [reflexivity|]. split; [exact Ht|]. split; [exact Hw|exact Hd].
Defined.

(** ** Calls in sequence *)

Ltac exec_alone :=
  exec1;
  repeat match goal with H : alone _ _ |- _ => unfold alone in H; subst end.

Lemma unlock_lock_by t s : mu (gm s) = None → unlock (lock_by t s) = s.
Proof. destruct s as [[] ? ? ? ? ? ?]. simpl. by intros ->. Qed.

Lemma RemoveTask_nil_unregistered t s name d tr s' :
  run t (rely t) s (RemoveTask name d) tr s' None → tasks (gm s') !! name = None.
Proof.
  intros H. destruct (RemoveTask_cases _ _ _ _ _ _ _ H) as (s0 & Hr & Hm & Hc).
  destruct Hc as [(Hn & _ & s1 & s2 & -> & Q & ->)
                 |(l & w & s1 & s2 & s3 & s4 & trw & res & tl & Hl & Hw & -> &
                   Q1 & Q2 & Q3 & Hwf3 & Hrun &
                   [(_ & [=] & _)|(-> & _ & s5 & s6 & -> & Q4 & Q5 & ->)])].
  - destruct Q as (_&T&_). simpl in *. by rewrite T.
  - destruct Q5 as (_&T&_). simpl in *. rewrite T. apply lookup_delete_eq.
Qed.

(** X8.  After [RemoveTask(name, _)] has returned [nil] the name is not registered:
    a [Start(name)] that follows it fails with the not-found error, launches
    nothing and changes no counter, and a [Stop(name, _)] that follows it
    returns [nil] and cancels nothing. *)
Theorem RemoveTask_then_Start t s name d tr s1 :
  run t (rely t) s (RemoveTask name d) tr s1 None →
  tasks (gm s1) !! name = None ∧
  (∀ tr2 s2 r2, run t alone s1 (Start name) tr2 s2 r2 →
     r2 = Some (ErrTaskNotExist name) ∧ launched tr2 = [] ∧ s2 = s1) ∧
  (∀ d2 tr2 s2 r2, run t alone s1 (Stop name d2) tr2 s2 r2 →
     r2 = None ∧ launched tr2 = [] ∧ s2 = s1).
Proof.
  intros H. pose proof (RemoveTask_nil_unregistered _ _ _ _ _ _ H) as Hn.
  split; [exact Hn|]. split.
  - intros tr2 s2 r2 H2. unfold Start in H2. exec_alone. exec_alone.
    simpl in *. rewrite Hn in *. norm. exec_alone. exec_alone.
    split; [reflexivity|]. split; [reflexivity|]. by apply unlock_lock_by.
  - intros d2 tr2 s2 r2 H2. unfold Stop in H2. exec_alone. exec_alone.
    simpl in *. rewrite Hn in *. norm. exec_alone. exec_alone.
    split; [reflexivity|]. split; [reflexivity|]. by apply unlock_lock_by.
Qed.

Lemma RemoveTask_then_Start_witness :
  ∃ tr s1,
    run 0%nat (rely 0%nat) two_tasks (RemoveTask "a" (-1)) tr s1 None ∧
    tasks (gm s1) !! "a" = None ∧ tasks (gm s1) !! "b" = Some 1%nat.
Proof.
  destruct RemoveTask_registered_run as (tr & s1 & Hrun & _ & Ht).
  destruct (RemoveTask_then_Start _ _ _ _ _ _ Hrun) as (Hn & _).
  exists tr, s1. split; [exact Hrun|]. split; [exact Hn|]. by rewrite Ht.
Defined.

(** X9.  [AddTask(name, f)] and then [Start(name)]: [Start] returns [nil] and
    launches one goroutine, on the handle that [AddTask] created; the handle
    holds [f] and a context derived from the parent context, which is done
    exactly if the parent context is; its counter is now 1 and the manager's
    counter went up by 1. *)
Theorem AddTask_then_Start t s name f tr s1 u :
  run t (rely t) s (AddTask name f) tr s1 u → wf s →
  ∀ tr2 s2 r2, run t alone s1 (Start name) tr2 s2 r2 →
    r2 = None ∧
    ∃ l w,
      tasks (gm s2) !! name = Some l ∧ launched tr2 = [task_goroutine l] ∧
      heap s2 !! l = Some w ∧ task w = f ∧ childWG w = 1 ∧
      childCtx w = cancelCtx (childCancel w) (parentCtx (gm s)) ∧
      parentWG (gm s2) = parentWG (gm s1) + 1 ∧
      ctx_done s2 (childCtx w) = ctx_done s2 (parentCtx (gm s)).
Proof.
  intros H Hwf tr2 s2 r2 H2.
  destruct (AddTask_result _ _ _ _ _ _ _ H Hwf)
    as (Hwf1 & Hmu1 & _ & l & w & Ht & Hw & Hf & Hz & Hc & Hnc).
  unfold Start in H2. exec_alone. exec_alone.
  simpl in *. rewrite Ht in *. norm. exec_alone. exec_alone. exec_alone. exec_alone.
  exec_alone.
  repeat match goal with H : wg_get _ _ = Some _ |- _ => simpl in H end.
  match goal with H : childWG <$> _ !! l = Some ?m |- _ =>
    rewrite Hw in H; simpl in H; injection H as <- end.
  match goal with H : Some _ = Some ?n |- _ => injection H as <- end.
  split; [reflexivity|]. exists l, (set_childWG (childWG w + 1) w). simpl.
  split; [exact Ht|]. split; [reflexivity|]. split.
  { rewrite lookup_alter_eq, Hw. reflexivity. }
  split; [reflexivity|]. split; [lia|]. split; [exact Hc|]. split; [reflexivity|].
  rewrite Hc. simpl. rewrite bool_decide_eq_false_2 by exact Hnc. reflexivity.
Qed.

Lemma AddTask_fresh_run_alone :
  ∃ tr s', run 0%nat (rely 0%nat) NewGoroutineManager (AddTask "a" 7%nat) tr s' () ∧
    ∃ tr2 s2 r2, run 0%nat alone s' (Start "a") tr2 s2 r2.
Proof.
  eexists _, _. split.
  - eapply run_mono; [apply alone_rely|]. solo.
  - eexists _, _, _. solo.
Qed.

(** [AddTask("a", 7)] and [Start("a")] on a new manager. *)
Lemma AddTask_then_Start_witness :
  ∃ tr s1 tr2 s2,
    run 0%nat (rely 0%nat) NewGoroutineManager (AddTask "a" 7%nat) tr s1 () ∧
    wf NewGoroutineManager ∧
    run 0%nat alone s1 (Start "a") tr2 s2 None ∧
    ∃ l, launched tr2 = [task_goroutine l] ∧ parentWG (gm s2) = parentWG (gm s1) + 1.
Proof.
  destruct AddTask_fresh_run_alone as (tr & s1 & Hrun & tr2 & s2 & r2 & Hrun2).
  destruct (AddTask_then_Start _ _ _ _ _ _ _ Hrun wf_NewGoroutineManager _ _ _ Hrun2)
    as (-> & l & w & _ & Hl & _ & _ & _ & _ & Hp & _).
  exists tr, s1, tr2, s2. split; [exact Hrun|]. split; [exact wf_NewGoroutineManager|].
  split; [exact Hrun2|]. exists l. split; [exact Hl|exact Hp].
Defined.

(** ** The footprint of the bounded waits *)




(** X11.  [WaitCancelWithTimeout] only observes: its own steps leave the store as it
    is and it launches nothing.  With a negative timeout it cannot move while
    the context is not done; with a non-negative one, once the timer is set,
    it cannot move while the context is not done and the timer has not
    expired. *)
Theorem WaitCancelWithTimeout_footprint t s ctx d tr s' r :
  run t (rely t) s (WaitCancelWithTimeout ctx d) tr s' r →
  Forall (λ x, x.2 = x.1.1) tr ∧ launched tr = [] ∧
  (∀ t' x, d < 0 → ctx_done x ctx = false →
     blocked t' x (WaitCancelWithTimeout ctx d)) ∧
  (∀ t' x a y p', 0 ≤ d → tstep t' x (WaitCancelWithTimeout ctx d) a y p' →
     a = ATimeAfter (now x + d) ∧ y = x ∧
     ∀ t'' z, ctx_done z ctx = false → now z < now x + d → blocked t'' z p').
Proof.
  intros H. destruct (WaitCancelWithTimeout_run _ _ _ _ _ _ _ H) as (Hneg & Hpos & Hfr).
  split; [exact Hfr|]. split.
  { rewrite launched_acts. destruct (decide (d < 0)) as [Hd|Hd].
    - destruct (Hneg Hd) as (_ & _ & ->). reflexivity.
    - destruct Hpos as (dl & i & -> & _); [lia|]. reflexivity. }
  split.
  { intros t' x Hd Hn a y p' Hs. unfold WaitCancelWithTimeout in Hs.
    rewrite decide_True in Hs by exact Hd. norm. invert Hs.
    match goal with H : [_] !! ?i = Some _ |- _ =>
      destruct i as [|i]; simpl in H; simplify_eq end.
    simpl in *. congruence. }
  intros t' x a y p' Hd Hs. unfold WaitCancelWithTimeout in Hs.
  rewrite decide_False in Hs by lia. norm. invert Hs.
  split; [reflexivity|]. split; [reflexivity|].
  intros t'' z Hn Hlt a2 y2 p2 Hs. invert Hs.
  match goal with H : [_; _] !! ?i = Some _ |- _ =>
    destruct i as [|[|i]]; simpl in H; simplify_eq end.
  - simpl in *. congruence.
  - match goal with H : ready _ _ = true |- _ =>
      simpl in H; apply bool_decide_eq_true in H end. lia.
Qed.

Lemma WaitCancel_fresh_run :
  ∃ tr s', run 0%nat (rely 0%nat) NewGoroutineManager
             (WaitCancelWithTimeout (cancelCtx 0 Background) 0) tr s' WaitTimeout.
Proof. eexists _, _. eapply run_mono; [apply alone_rely|]. solo. Qed.

(** Waiting for the parent context of a new manager with timeout zero. *)
Lemma WaitCancelWithTimeout_footprint_witness :
  ∃ tr s',
    run 0%nat (rely 0%nat) NewGoroutineManager
      (WaitCancelWithTimeout (cancelCtx 0 Background) 0) tr s' WaitTimeout ∧
    Forall (λ x, x.2 = x.1.1) tr ∧ launched tr = [].
Proof.
  destruct WaitCancel_fresh_run as (tr & s' & Hrun).
  destruct (WaitCancelWithTimeout_footprint _ _ _ _ _ _ _ Hrun) as (Hfr & Hl & _).
  exists tr, s'. split; [exact Hrun|]. split; [exact Hfr|exact Hl].
Defined.

(** ** Methods that do not wait *)

Lemma StartAll_loop_total t ts : ∀ s,
  wf s → (∀ l, l ∈ ts → is_Some (heap s !! l)) →
  ∃ tr s', run t alone s (StartAll_loop ts) tr s' () ∧ wf s' ∧
    mu (gm s') = mu (gm s).
Proof.
  induction ts as [|l ts IH]; intros s Hwf Hin; simpl.
  - exists [], s. split; [apply run_Ret|]. split; [exact Hwf|reflexivity].
  - destruct (Hin l) as [w Hw]; [by left|].
    assert (wf (wg_set ParentWG (parentWG (gm s) + 1) s)) as Hwf1.
    { apply wf_wg_set; [exact Hwf|]. pose proof (wf_parentWG _ Hwf). lia. }
    set (s1 := wg_set ParentWG (parentWG (gm s) + 1) s) in *.
    assert (heap s1 !! l = Some w) as Hw1 by exact Hw.
    assert (wf (wg_set (ChildWG l) (childWG w + 1) s1)) as Hwf2.
    { apply wf_wg_set; [exact Hwf1|]. pose proof (wf_childWG _ Hwf1 l w Hw1). lia. }
    set (s2 := wg_set (ChildWG l) (childWG w + 1) s1) in *.
    destruct (IH s2 Hwf2) as (tr & s' & Hrun & Hwf' & Hmu).
    { intros l' Hl'. destruct (Hin l') as [w' Hw']; [by right|].
      unfold s2, s1. simpl. destruct (decide (l' = l)) as [->|Hne].
      - rewrite lookup_alter_eq, Hw. by eexists.
      - rewrite lookup_alter_ne by done. by eexists. }
    eexists _, s'. split; [|split; [exact Hwf'|exact Hmu]]. norm.
    eapply run_Step; [reflexivity| |].
    { eapply (step_Add _ _ ParentWG 1 (parentWG (gm s))); [reflexivity|].
      pose proof (wf_parentWG _ Hwf). lia. }
    eapply run_Step; [reflexivity| |].
    { eapply (step_Add _ _ (ChildWG l) 1 (childWG w)).
      - simpl. by rewrite Hw.
      - pose proof (wf_childWG _ Hwf l w Hw). lia. }
    eapply run_Step; [reflexivity|apply step_Go|]. exact Hrun.
Qed.

(** X12.  [AddTask], [Start] and [StartAll] wait for nothing but the mutex: from
    every well-formed store in which the mutex is free, each of them has a
    run to its return in which no other goroutine takes a step; the counter
    increments and the reads of the handles in it all succeed. *)
Theorem non_waiting_methods_return t s :
  wf s → mu (gm s) = None →
  (∀ name f, ∃ tr s', run t alone s (AddTask name f) tr s' ()) ∧
  (∀ name, ∃ tr s' r, run t alone s (Start name) tr s' r) ∧
  (∃ tr s', run t alone s StartAll tr s' ()).
Proof.
  intros Hwf Hmu. split; [|split].
  - intros name f. unfold AddTask. norm. eexists _, _.
    eapply run_Step; [reflexivity|by apply step_Lock|].
    eapply run_Step; [reflexivity|apply step_GetParentCtx|].
    eapply run_Step; [reflexivity|apply step_WithCancel|].
    eapply run_Step; [reflexivity| |].
    { apply (step_New _ _ _ _ _ (fresh (dom (heap s)))). simpl.
      apply not_elem_of_dom, is_fresh. }
    eapply run_Step; [reflexivity|apply step_Store|].
    eapply run_Step; [reflexivity|by eapply step_Unlock|].
    apply run_Ret.
  - intros name. unfold Start. norm.
    destruct (tasks (gm s) !! name) as [l|] eqn:Hl.
    + destruct (wf_tasks _ Hwf _ _ Hl) as [w Hw]. eexists _, _, _.
      eapply run_Step; [reflexivity|by apply step_Lock|].
      eapply run_Step; [reflexivity|apply step_Lookup|].
      simpl. rewrite Hl.
      eapply run_Step; [reflexivity| |].
      { eapply (step_Add _ _ ParentWG 1 (parentWG (gm s))); [reflexivity|].
        pose proof (wf_parentWG _ Hwf). lia. }
      eapply run_Step; [reflexivity| |].
      { eapply (step_Add _ _ (ChildWG l) 1 (childWG w)).
        - simpl. by rewrite Hw.
        - pose proof (wf_childWG _ Hwf l w Hw). lia. }
      eapply run_Step; [reflexivity|apply step_Go|].
      eapply run_Step; [reflexivity|by eapply step_Unlock|].
      apply run_Ret.
    + eexists _, _, _.
      eapply run_Step; [reflexivity|by apply step_Lock|].
      eapply run_Step; [reflexivity|apply step_Lookup|].
      simpl. rewrite Hl.
      eapply run_Step; [reflexivity|by eapply step_Unlock|].
      apply run_Ret.
  - unfold StartAll. norm.
    destruct (StartAll_loop_total t (map_to_list (tasks (gm s))).*2 (lock_by t s))
      as (tr & s' & Hrun & _ & Hmu').
    { by apply wf_set_mu. }
    { intros l ([n l'] & -> & Hin%elem_of_map_to_list)%list_elem_of_fmap.
      simpl. by apply (wf_tasks _ Hwf n). }
    eexists _, _.
    eapply run_Step; [reflexivity|by apply step_Lock|].
    eapply run_Step; [reflexivity|by apply step_Range|].
    eapply (run_bind _ _ _ _ (λ r, MuUnlock (Ret r))); [exact Hrun|]. simpl.
    eapply run_Step; [reflexivity|eapply step_Unlock; rewrite Hmu'; reflexivity|].
    apply run_Ret.
Qed.

(** On the manager with "a" and "b" registered. *)
Lemma non_waiting_methods_return_witness :
  wf two_tasks ∧ mu (gm two_tasks) = None ∧
  (∃ tr s', run 0%nat alone two_tasks (AddTask "c" 9%nat) tr s' ()) ∧
  (∃ tr s' r, run 0%nat alone two_tasks (Start "a") tr s' r) ∧
  (∃ tr s', run 0%nat alone two_tasks StartAll tr s' ()).
Proof.
  destruct (non_waiting_methods_return 0%nat two_tasks wf_two_tasks eq_refl)
    as (H1 & H2 & H3).
  split; [exact wf_two_tasks|]. split; [reflexivity|].
  split; [exact (H1 "c" 9%nat)|]. split; [exact (H2 "a")|exact H3].
Defined.

(** ** A cancelled handle stays cancelled *)

(** X13.  Cancellation is terminal for starting too.  A task goroutine launched on
    a handle whose own context has been cancelled (by [Stop] or a failed
    [RemoveTask]), or on any handle once the parent context has been cancelled
    (by [StopAll]), still calls the body, once, but with a context that is
    already done when the body is called. *)
Theorem cancelled_handle_runs_cancelled t s l w tr s' u :
  run t (rely t) s (task_goroutine l) tr s' u → wf s →
  heap s !! l = Some w →
  childCancel w ∈ cancelled s ∨ parentCancel (gm s) ∈ cancelled s →
  ∃ x pre post,
    tr = pre ++ (x, ACallTask (task w) (childCtx w), x) :: post ∧
    ctx_done x (childCtx w) = true ∧
    (∀ y, y ∈ pre → ∀ f ctx, y.1.2 ≠ ACallTask f ctx) ∧
    (∀ y, y ∈ post → ∀ f ctx, y.1.2 ≠ ACallTask f ctx).
Proof.
  intros H Hwf Hw Hc.
  assert (ctx_done s (childCtx w) = true) as Hdone.
  { destruct Hc as [Hc|Hc].
    - rewrite (wf_childCtx _ Hwf l w Hw). simpl.
      by rewrite bool_decide_eq_true_2.
    - by apply (proj2 (parent_cancelled_all_done s Hwf Hc) l w). }
  unfold task_goroutine in H. exec1. exec1. exec1. exec1. exec1.
  match goal with H : rely t s ?x, H' : heap ?x !! l = Some ?v |- _ =>
    rename x into x0; rename v into w0; rename H into HE0; rename H' into Hw0 end.
  destruct (rely_heap _ _ _ HE0 l w Hw) as (cnt & Hcnt).
  rewrite Hcnt in Hw0. injection Hw0 as <-. simpl.
  match goal with H : rely t x0 ?x |- _ => rename x into x1; rename H into HE1 end.
  eexists x1, [_], [_; _]. split; [reflexivity|]. split.
  { apply (ctx_done_mono s); [|exact Hdone].
    etrans; [apply (rely_cancelled _ _ _ HE0)|apply (rely_cancelled _ _ _ HE1)]. }
  split.
  - intros y Hy f ctx. apply list_elem_of_singleton in Hy as ->. simpl. discriminate.
  - intros y Hy f ctx. apply elem_of_cons in Hy as [->|Hy]; [simpl; discriminate|].
    apply list_elem_of_singleton in Hy as ->. simpl. discriminate.
Qed.

Lemma cancelled_goroutine_run :
  ∃ tr s', run 0%nat (rely 0%nat) (call_cancel_at 1%nat two_running)
             (task_goroutine 0%nat) tr s' ().
Proof. eexists _, _. eapply run_mono; [apply alone_rely|]. solo. Qed.

(** The goroutine of "a" launched after "a" has been stopped. *)
Lemma cancelled_handle_runs_cancelled_witness :
  ∃ tr s' x pre post,
    run 0%nat (rely 0%nat) (call_cancel_at 1%nat two_running)
      (task_goroutine 0%nat) tr s' () ∧
    wf (call_cancel_at 1%nat two_running) ∧
    tr = pre ++ (x, ACallTask 7%nat (cancelCtx 1 (cancelCtx 0 Background)), x) :: post ∧
    ctx_done x (cancelCtx 1 (cancelCtx 0 Background)) = true.
Proof.
  destruct cancelled_goroutine_run as (tr & s' & Hrun).
  assert (wf (call_cancel_at 1%nat two_running)) as Hwf.
  { apply wf_call_cancel; [apply wf_two_running|simpl; lia]. }
  destruct (cancelled_handle_runs_cancelled 0%nat _ 0%nat
              (mkTaskWrapper 1 (cancelCtx 1 (cancelCtx 0 Background)) 1%nat 7%nat)
              _ _ _ Hrun Hwf)
    as (x & pre & post & Htr & Hd & _).
  { reflexivity. }
  { left. simpl. apply elem_of_union. left. by apply elem_of_singleton. }
  exists tr, s', x, pre, post. split; [exact Hrun|]. split; [exact Hwf|].
  split; [exact Htr|exact Hd].
Defined.

(** ** Registering a name again *)

(** X14.  [AddTask] on a name that is already registered replaces the handle and
    does nothing else to the old one: the old handle is neither cancelled nor
    waited for, it keeps its context, its task and its counter (which can only
    drop meanwhile), so a body running on it keeps running; and as the name
    now leads to the new handle and no other name leads to the old one, no
    later [Stop], [RemoveTask] or [Start] can reach it.  Only [StopAll]
    still cancels it, through the parent context. *)
Theorem AddTask_overwrite_orphans t s name f tr s' u :
  run t (rely t) s (AddTask name f) tr s' u → wf s →
  ∃ s0, rely t s s0 ∧ head tr = Some (s0, ALock, lock_by t s0) ∧
    cancelled s' = cancelled s0 ∧ launched tr = [] ∧
    ∀ l0 w0, tasks (gm s0) !! name = Some l0 → heap s0 !! l0 = Some w0 →
      ∃ l n,
        tasks (gm s') !! name = Some l ∧ l ≠ l0 ∧
        heap s' !! l0 = Some (set_childWG n w0) ∧ n ≤ childWG w0 ∧
        ctx_done s' (childCtx w0) = ctx_done s0 (childCtx w0) ∧
        (∀ name', tasks (gm s') !! name' ≠ Some l0).
Proof.
  intros H Hwf.
  destruct (AddTask_cases _ _ _ _ _ _ _ H)
    as (s0 & s1 & s2 & s3 & s4 & s5 & l & w & Hr & Hm & -> & -> & Hfresh &
        Q1 & Q2 & Q3 & Q4 & Q5 & _ & _ & _ & _ & ->).
  set (w := mkTaskWrapper 0 (cancelCtx (next_ctx s2) (parentCtx (gm s1))) (next_ctx s2) f) in *.
  pose proof (rely_wf _ _ _ Hr Hwf) as Hwf0.
  assert (cancelled s5 = cancelled s0) as Hcan.
  { destruct Q2 as (_&_&C2&_), Q3 as (_&_&C3&_), Q4 as (_&_&C4&_), Q5 as (_&_&C5&_).
    simpl in *. by rewrite C5, C4, C3, C2. }
  assert (tasks (gm s5) = <[name := l]> (tasks (gm s0))) as Htasks.
  { destruct Q2 as (_&T2&_), Q3 as (_&T3&_), Q4 as (_&T4&_), Q5 as (_&T5&_).
    simpl in *. by rewrite T5, T4, T3, T2. }
  exists s0. split; [exact Hr|]. split; [reflexivity|]. split; [exact Hcan|].
  split; [reflexivity|].
  intros l0 w0 Hl0 Hw0.
  assert (∃ n3, n3 ≤ childWG w0 ∧ heap s3 !! l0 = Some (set_childWG n3 w0)) as (n3 & Hn3 & Hw3).
  { destruct Q2 as (_&_&_&_&H2&_), Q3 as (_&_&_&_&H3&_). simpl in *.
    destruct (H2 l0 w0 Hw0) as (a & Ha & Hwa).
    destruct (H3 l0 _ Hwa) as (b & Hb & Hwb). simpl in *.
    exists b. split; [lia|]. by destruct w0. }
  assert (l ≠ l0) as Hne by (intros ->; congruence).
  assert (∃ n, n ≤ childWG w0 ∧ heap s5 !! l0 = Some (set_childWG n w0)) as (n & Hn & Hw5).
  { destruct Q4 as (_&_&_&_&H4&_), Q5 as (_&_&_&_&H5&_). simpl in *.
    destruct (H4 l0 (set_childWG n3 w0)) as (a & Ha & Hwa).
    { rewrite lookup_insert_ne by done. exact Hw3. }
    destruct (H5 l0 _ Hwa) as (b & Hb & Hwb). simpl in *.
    exists b. split; [lia|]. by destruct w0. }
  exists l, n. simpl.
  split; [by rewrite Htasks, lookup_insert_eq|]. split; [exact Hne|].
  split; [exact Hw5|]. split; [exact Hn|]. split; [by apply ctx_done_same|].
  intros name' Hname'. rewrite Htasks in Hname'.
  destruct (decide (name' = name)) as [->|Hnn].
  - rewrite lookup_insert_eq in Hname'. congruence.
  - rewrite lookup_insert_ne in Hname' by done.
    apply Hnn. by apply (wf_tasks_inj _ Hwf0 name' name l0).
Qed.

Lemma AddTask_again_run :
  ∃ tr s', run 0%nat (rely 0%nat) two_running (AddTask "a" 9%nat) tr s' () ∧
    head tr = Some (two_running, ALock, lock_by 0%nat two_running).
Proof.
  eexists _, _. split; [eapply run_mono; [apply alone_rely|]; solo|reflexivity].
Qed.

(** [AddTask("a", 9)] while "a" is running. *)
Lemma AddTask_overwrite_orphans_witness :
  ∃ tr s' l n,
    run 0%nat (rely 0%nat) two_running (AddTask "a" 9%nat) tr s' () ∧
    wf two_running ∧
    tasks (gm s') !! "a" = Some l ∧ l ≠ 0%nat ∧
    heap s' !! 0%nat =
      Some (mkTaskWrapper n (cancelCtx 1 (cancelCtx 0 Background)) 1%nat 7%nat) ∧
    cancelled s' = ∅.
Proof.
  destruct AddTask_again_run as (tr & s' & Hrun & Hh).
  destruct (AddTask_overwrite_orphans _ _ _ _ _ _ _ Hrun wf_two_running)
    as (s0 & _ & Hh0 & Hcan & _ & Hold).
  assert (s0 = two_running) as -> by congruence.
  destruct (Hold 0%nat _ eq_refl eq_refl) as (l & n & Ht & Hne & Hw & _).
  exists tr, s', l, n. split; [exact Hrun|]. split; [exact wf_two_running|].
  split; [exact Ht|]. split; [exact Hne|]. split; [exact Hw|exact Hcan].
Defined.

(** ** Keeping the books *)

Lemma spawned_lookup a t th :
  spawned a !! t = Some th → ∃ g, a = AGo g ∧ th = ThUnit g.
Proof.
  destruct a; simpl; try (by destruct t).
  destruct t as [|t]; simpl; [|by destruct t]. intros [= <-]. eauto.
Qed.

Lemma singleton_lookup {A} (x y : A) t : [x] !! t = Some y → y = x.
Proof. destruct t as [|t]; simpl; [by intros [=]|by destruct t]. Qed.

Section TrackingFacts.
Context {I : Type}.
Variable gow : Prog unit → I → Z.
Variable delta : act → I → Z.

Lemma tracks_step {R} (F : Prog R → I → Z) t s (p : Prog R) a s' p' :
  tstep t s p a s' p' → tracks gow delta F p →
  keeps gow delta F p a p' ∧ tracks gow delta F p' ∧
  (∀ g, a = AGo g → tracks gow delta (uow gow) g).
Proof.
  intros Hs Hp. destruct Hs; simpl in Hp;
    try (destruct Hp as [? ?]; split_and!; [assumption|assumption|by intros ? [=]]);
    try (split_and!; [apply Hp|apply Hp|by intros ? [=]]).
  destruct Hp as (? & ? & ?). split_and!; [assumption|assumption|].
  by intros ? [= <-].
Qed.

Lemma pool_owes_app pool1 pool2 i :
  pool_owes gow (pool1 ++ pool2) i = pool_owes gow pool1 i + pool_owes gow pool2 i.
Proof. induction pool1 as [|th pool1 IH]; simpl; [done|]. rewrite IH. lia. Qed.

Lemma pool_owes_insert pool t th th' i :
  pool !! t = Some th →
  pool_owes gow (<[t := th']> pool) i =
  pool_owes gow pool i - thread_owes gow th i + thread_owes gow th' i.
Proof.
  revert t. induction pool as [|x pool IH]; intros [|t] Ht; simplify_eq/=; [lia|].
  rewrite (IH _ Ht). lia.
Qed.

Lemma pool_owes_spawned a i : pool_owes gow (spawned a) i = spawn_owes gow a i.
Proof. destruct a; simpl; lia. Qed.

Hypothesis gow_nonneg : ∀ p i, 0 ≤ gow p i.

Lemma thread_owes_nonneg th i : 0 ≤ thread_owes gow th i.
Proof.
  destruct th as [p|p]; simpl; unfold uow, ow.
  - destruct p; try done; apply gow_nonneg.
  - pose proof (gow_nonneg p i). destruct p; try lia.
    pose proof (gow_nonneg p1 i). lia.
Qed.

Lemma pool_owes_nonneg pool i : 0 ≤ pool_owes gow pool i.
Proof.
  induction pool as [|th pool IH]; simpl; [done|].
  pose proof (thread_owes_nonneg th i). lia.
Qed.

Lemma pool_owes_lookup pool t th i :
  pool !! t = Some th → thread_owes gow th i ≤ pool_owes gow pool i.
Proof.
  revert t. induction pool as [|x pool IH]; intros [|t] Ht; simplify_eq/=.
  - pose proof (pool_owes_nonneg pool i). lia.
  - pose proof (IH _ Ht). pose proof (thread_owes_nonneg x i). lia.
Qed.

(** The balance [M] of the store is what the goroutines of the pool owe. *)
Variable M : State → I → Z.
Hypothesis M_step : ∀ R t s (p : Prog R) a s' p',
  tstep t s p a s' p' → ∀ i, M s' i = M s i + delta a i.
Hypothesis M_tick : ∀ s n i, M (set_now n s) i = M s i.
Hypothesis M_init : ∀ i, M NewGoroutineManager i = 0.
Hypothesis calls_track : ∀ c, tracks_thread gow delta (call_thread c).
Hypothesis calls_owe : ∀ c i, thread_owes gow (call_thread c) i = 0.

Lemma books_step c who c' :
  (∀ t th, c.2 !! t = Some th → tracks_thread gow delta th) →
  (∀ i, M c.1 i = pool_owes gow c.2 i) →
  step c who c' →
  (∀ t th, c'.2 !! t = Some th → tracks_thread gow delta th) ∧
  (∀ i, M c'.1 i = pool_owes gow c'.2 i).
Proof.
  intros Htr Hbal Hs.
  assert (∀ pool t0 th0 th0' a,
    (∀ t th, pool !! t = Some th → tracks_thread gow delta th) →
    pool !! t0 = Some th0 → tracks_thread gow delta th0' →
    (∀ g, a = AGo g → tracks gow delta (uow gow) g) →
    ∀ t th, (<[t0 := th0']> pool ++ spawned a) !! t = Some th →
            tracks_thread gow delta th) as Hpool.
  { intros pool t0 th0 th0' a Hall Hl0 H0' Hg t th Hl.
    apply lookup_app_Some in Hl as [Hl|[_ Hl]].
    - destruct (decide (t = t0)) as [->|Hne].
      + rewrite list_lookup_insert_eq in Hl by (by eapply lookup_lt_Some).
        by simplify_eq.
      + rewrite list_lookup_insert_ne in Hl by done. by eapply Hall.
    - apply spawned_lookup in Hl as (g & -> & ->). simpl. by apply Hg. }
  destruct Hs as [s pool t p a s' p' Hl Hs|s pool t p a s' p' Hl Hs
                 |s pool d Hd|s pool c]; simpl in *.
  - destruct (tracks_step _ _ _ _ _ _ _ Hs (Htr _ _ Hl)) as (Hk & Hp' & Hg).
    split; [by eapply (Hpool pool t (ThErr p) (ThErr p') a)|].
    intros i. rewrite (M_step _ _ _ _ _ _ _ Hs), Hbal, pool_owes_app,
      (pool_owes_insert _ _ _ _ _ Hl), pool_owes_spawned. simpl.
    specialize (Hk i). lia.
  - destruct (tracks_step _ _ _ _ _ _ _ Hs (Htr _ _ Hl)) as (Hk & Hp' & Hg).
    split; [by eapply (Hpool pool t (ThUnit p) (ThUnit p') a)|].
    intros i. rewrite (M_step _ _ _ _ _ _ _ Hs), Hbal, pool_owes_app,
      (pool_owes_insert _ _ _ _ _ Hl), pool_owes_spawned. simpl.
    specialize (Hk i). lia.
  - split; [exact Htr|]. intros i. by rewrite M_tick.
  - split.
    + intros t th Hl. apply lookup_app_Some in Hl as [Hl|[_ Hl]]; [by eapply Htr|].
      apply singleton_lookup in Hl as ->. apply calls_track.
    + intros i. rewrite pool_owes_app, Hbal. simpl. rewrite calls_owe. lia.
Qed.

Lemma books_reachable c :
  reachable c →
  (∀ t th, c.2 !! t = Some th → tracks_thread gow delta th) ∧
  (∀ i, M c.1 i = pool_owes gow c.2 i).
Proof.
  induction 1 as [|c who c' _ [IH1 IH2] Hs].
  - split; [intros t th Hl; simpl in Hl; by destruct t|]. intros i. simpl. by rewrite M_init.
  - by eapply books_step.
Qed.
End TrackingFacts.

(** ** The counters of the handles and the channels of the watchers *)

Ltac books :=
  repeat first
    [ progress intros
    | split
    | done
    | lia
    | progress (unfold keeps, uow, ow, spawn_owes; simpl)
    | progress norm
    | match goal with
      | |- context [match ?x with _ => _ end] => is_var x; destruct x; simpl
      end
    | case_decide ].

Ltac by_cases :=
  simpl;
  repeat first
    [ done | lia | case_decide
    | match goal with |- context [match ?x with _ => _ end] => destruct x; simpl end ].

Lemma owes_done_nonneg p l : 0 ≤ owes_done p l.
Proof. destruct p; by_cases. Qed.

Lemma owes_close_nonneg p c : 0 ≤ owes_close p c.
Proof. destruct p; by_cases. Qed.

Lemma counter_step {R} t s (p : Prog R) a s' p' :
  tstep t s p a s' p' → ∀ l, counter s' l = counter s l + counter_delta a l.
Proof.
  intros Hs l. unfold counter. destruct Hs; simpl; try lia.
  - (* New *) destruct (decide (l0 = l)) as [->|Hne].
    + rewrite lookup_insert_eq. simpl.
      match goal with H : heap _ !! _ = None |- _ => rewrite H end. simpl. lia.
    + rewrite lookup_insert_ne by done. lia.
  - (* Add *) destruct w as [|l']; simpl in *; [lia|].
    case_decide.
    + subst l'. rewrite lookup_alter_eq.
      destruct (heap s !! l) as [w|]; simpl in *; simplify_eq. lia.
    + rewrite lookup_alter_ne by done. lia.
  - (* Done *) destruct w as [|l']; simpl in *; [lia|].
    case_decide.
    + subst l'. rewrite lookup_alter_eq.
      destruct (heap s !! l) as [w|]; simpl in *; simplify_eq. lia.
    + rewrite lookup_alter_ne by done. lia.
Qed.

Lemma open_chan_step {R} t s (p : Prog R) a s' p' :
  tstep t s p a s' p' → ∀ c, open_chan s' c = open_chan s c + chan_delta a c.
Proof.
  intros Hs c. unfold open_chan. destruct Hs; simpl; try lia.
  - destruct w; simpl; lia.
  - destruct w; simpl; lia.
  - (* MakeChan *) repeat case_decide; lia.
  - (* Close *) repeat case_decide; try lia; set_solver.
Qed.

Lemma done_loop_owes ts l :
  uow owes_done (bind (StartAll_loop ts) (λ r, MuUnlock (Ret r))) l = 0.
Proof. by destruct ts. Qed.

Lemma done_tracks_loop ts :
  tracks owes_done counter_delta (uow owes_done)
    (bind (StartAll_loop ts) (λ r, MuUnlock (Ret r))).
Proof.
  induction ts as [|l ts IH]; [simpl; books|].
  simpl. norm. simpl. split; [|split; [|split; [|split; [|exact IH]]]].
  - intros i. pose proof (done_loop_owes ts i). unfold keeps, uow, ow in *. by_cases.
  - books.
  - intros i. pose proof (done_loop_owes ts i). unfold keeps, uow, ow in *. simpl.
    unfold task_goroutine. norm. simpl. unfold uow, ow. simpl. case_decide; lia.
  - unfold task_goroutine. books.
Qed.

Lemma done_tracks_call c : tracks_thread owes_done counter_delta (call_thread c).
Proof.
  destruct c; simpl.
  - unfold AddTask. books.
  - unfold RemoveTask, WaitGroupWithTimeout. books.
  - unfold StartAll. norm. simpl. split; [books|]. intros ts.
    split; [|apply done_tracks_loop].
    intros i. pose proof (done_loop_owes ts i). unfold keeps, uow, ow in *. simpl. lia.
  - unfold StopAll, WaitGroupWithTimeout. books.
  - unfold Start, task_goroutine. books.
  - unfold Stop, WaitGroupWithTimeout. books.
Qed.

Lemma done_call_owes c l : thread_owes owes_done (call_thread c) l = 0.
Proof. by destruct c. Qed.

Lemma close_loop_owes ts c :
  uow owes_close (bind (StartAll_loop ts) (λ r, MuUnlock (Ret r))) c = 0.
Proof. by destruct ts. Qed.

Lemma close_tracks_loop ts :
  tracks owes_close chan_delta (uow owes_close)
    (bind (StartAll_loop ts) (λ r, MuUnlock (Ret r))).
Proof.
  induction ts as [|l ts IH]; [simpl; books|].
  simpl. norm. simpl. split; [|split; [|split; [|split; [|exact IH]]]].
  - intros i. pose proof (close_loop_owes ts i). unfold keeps, uow, ow in *. by_cases.
  - books.
  - intros i. pose proof (close_loop_owes ts i). unfold keeps, uow, ow in *. simpl.
    unfold task_goroutine. norm. simpl. unfold uow, ow. simpl. lia.
  - unfold task_goroutine. books.
Qed.

Lemma close_tracks_call c : tracks_thread owes_close chan_delta (call_thread c).
Proof.
  destruct c; simpl.
  - unfold AddTask. books.
  - unfold RemoveTask, WaitGroupWithTimeout. books.
  - unfold StartAll. norm. simpl. split; [books|]. intros ts.
    split; [|apply close_tracks_loop].
    intros i. pose proof (close_loop_owes ts i). unfold keeps, uow, ow in *. simpl. lia.
  - unfold StopAll, WaitGroupWithTimeout. books.
  - unfold Start, task_goroutine. books.
  - unfold Stop, WaitGroupWithTimeout. books.
Qed.

Lemma close_call_owes c l : thread_owes owes_close (call_thread c) l = 0.
Proof. by destruct c. Qed.

Lemma counter_books c :
  reachable c →
  (∀ t th, c.2 !! t = Some th → tracks_thread owes_done counter_delta th) ∧
  (∀ l, counter c.1 l = pool_owes owes_done c.2 l).
Proof.
  apply (books_reachable owes_done counter_delta counter).
  - intros R t s p a s' p'. apply counter_step.
  - done.
  - done.
  - apply done_tracks_call.
  - apply done_call_owes.
Qed.

Lemma chan_books c :
  reachable c →
  (∀ t th, c.2 !! t = Some th → tracks_thread owes_close chan_delta th) ∧
  (∀ i, open_chan c.1 i = pool_owes owes_close c.2 i).
Proof.
  apply (books_reachable owes_close chan_delta open_chan).
  - intros R t s p a s' p'. apply open_chan_step.
  - done.
  - done.
  - apply close_tracks_call.
  - apply close_call_owes.
Qed.

(** X15.  In every reachable configuration the counter of each handle is the number
    of goroutines that owe it a [Done]: the task goroutines launched on the
    handle that have not yet executed [tw.childWG.Done()], and the call of
    [Start] or [StartAll] that has incremented the counter and is about to
    launch one.  So a task goroutine always finds its handle, and when it
    stands at [tw.childWG.Done()] the counter is positive: neither step can
    panic. *)
Theorem handle_counter_accounting s pool :
  reachable (s, pool) →
  (∀ l, counter s l = pool_owes owes_done pool l) ∧
  (∀ t l k, pool !! t = Some (ThUnit (Deref l k)) →
     is_Some (heap s !! l) ∧ can_step t s (ThUnit (Deref l k))) ∧
  (∀ t l k, pool !! t = Some (ThUnit (WgDone (ChildWG l) k)) →
     0 < counter s l ∧ can_step t s (ThUnit (WgDone (ChildWG l) k))).
Proof.
  intros Hreach. destruct (counter_books _ Hreach) as [_ Hbal]. simpl in *.
  assert (∀ t th l, pool !! t = Some th → thread_owes owes_done th l = 1 →
            ∃ w, heap s !! l = Some w ∧ 0 < childWG w) as Hpos.
  { intros t th l Hl H1.
    pose proof (pool_owes_lookup owes_done owes_done_nonneg _ _ _ l Hl) as Hle.
    rewrite <- Hbal, H1 in Hle. unfold counter in Hle.
    destruct (heap s !! l) as [w|]; simpl in Hle; [|lia]. exists w. split; [done|lia]. }
  split; [exact Hbal|]. split.
  - intros t l k Hl. destruct (Hpos _ _ l Hl) as (w & Hw & _).
    { simpl. unfold uow, ow. simpl. by rewrite decide_True. }
    split; [by eexists|]. eexists (ADeref l), s, (ThUnit (k w)). simpl.
    by apply step_Deref.
  - intros t l k Hl. destruct (Hpos _ _ l Hl) as (w & Hw & Hw0).
    { simpl. unfold uow, ow. simpl. by rewrite decide_True. }
    split; [unfold counter; rewrite Hw; exact Hw0|].
    eexists (ADone (ChildWG l)), _, (ThUnit k). simpl.
    eapply (step_Done _ _ (ChildWG l) (childWG w)); [simpl; by rewrite Hw|exact Hw0].
Qed.

(** The task goroutine of the replaced handle of "a". *)
Lemma handle_counter_accounting_witness :
  ∃ s pool,
    reachable (s, pool) ∧
    pool !! 3%nat = Some (ThUnit (task_goroutine 0%nat)) ∧
    counter s 0%nat = pool_owes owes_done pool 0%nat ∧
    can_step 3%nat s (ThUnit (task_goroutine 0%nat)).
Proof.
  destruct orphan_config as (s & pool & Hs & _ & -> & _).
  assert (reachable (s, [ThUnit (Ret ()); ThErr (Ret None); ThUnit (Ret ());
                          ThUnit (task_goroutine 0%nat)])) as Hr.
  { eapply reachable_steps; [apply reachable_calls|exact Hs]. }
  destruct (handle_counter_accounting _ _ Hr) as (Hbal & Hderef & _).
  eexists _, _. split; [exact Hr|]. split; [reflexivity|]. split; [apply Hbal|].
  apply (Hderef 3%nat 0%nat). reflexivity.
Defined.

(** [AddTask("a", 7)], then [Stop("a", 1000)] up to its [select], and the
    watcher past its [wg.Wait()]. *)
Lemma watcher_config :
  ∃ s pool,
    steps (NewGoroutineManager,
           call_thread <$> [CallAddTask "a" 7%nat; CallStop "a" 1000])
          (replicate 6 (Some 0%nat) ++ replicate 7 (Some 1%nat) ++ [Some 2%nat])
          (s, pool) ∧
    pool !! 2%nat = Some (ThUnit (CloseChan 0%nat (Ret ()))) ∧
    closed s = ∅ ∧ next_chan s = 1%nat.
Proof.
  eexists _, _. split; [simpl; schedule|]. vm_compute. split_and!; reflexivity.
Qed.

(** X16.  In every reachable configuration a channel is open (made and not closed)
    exactly if one goroutine owes it a [close]: the watcher launched for it,
    or the bounded wait that has made it and is about to launch the watcher.
    So only channels that were made are ever closed, and when a watcher stands
    at [close(done)] the channel is not closed: the close cannot panic. *)
Theorem channel_accounting s pool :
  reachable (s, pool) →
  (∀ c, open_chan s c = pool_owes owes_close pool c) ∧
  (∀ c, c ∈ closed s → (c < next_chan s)%nat) ∧
  (∀ t c k, pool !! t = Some (ThUnit (CloseChan c k)) →
     (c ∉ closed s) ∧ can_step t s (ThUnit (CloseChan c k))).
Proof.
  intros Hreach. destruct (chan_books _ Hreach) as [_ Hbal]. simpl in *.
  split; [exact Hbal|]. split.
  - intros c Hc.
    pose proof (pool_owes_nonneg owes_close owes_close_nonneg pool c) as Hge.
    rewrite <- Hbal in Hge. unfold open_chan in Hge.
    rewrite (decide_True (P := c ∈ closed s)) in Hge by exact Hc.
    destruct (decide (c < next_chan s)%nat); [done|lia].
  - intros t c k Hl.
    pose proof (pool_owes_lookup owes_close owes_close_nonneg _ _ _ c Hl) as Hle.
    rewrite <- Hbal in Hle. simpl in Hle. unfold uow, ow, open_chan in Hle. simpl in Hle.
    rewrite decide_True in Hle by done.
    assert (c ∉ closed s) as Hn.
    { intros Hc. rewrite (decide_True (P := c ∈ closed s)) in Hle by exact Hc.
      destruct (decide (c < next_chan s)%nat); lia. }
    split; [exact Hn|]. eexists (AClose c), _, (ThUnit k). simpl.
    by apply step_Close.
Qed.

(** The watcher of a [Stop] on an idle task, about to close its channel. *)
Lemma channel_accounting_witness :
  ∃ s pool,
    reachable (s, pool) ∧
    pool !! 2%nat = Some (ThUnit (CloseChan 0%nat (Ret ()))) ∧
    (0%nat ∉ closed s) ∧
    can_step 2%nat s (ThUnit (CloseChan 0%nat (Ret ()))).
Proof.
  destruct watcher_config as (s & pool & Hs & Hl & _).
  assert (reachable (s, pool)) as Hr.
  { eapply reachable_steps; [apply reachable_calls|exact Hs]. }
  destruct (channel_accounting _ _ Hr) as (_ & _ & Hclose).
  destruct (Hclose _ _ _ Hl) as [Hn Hstep].
  exists s, pool. split; [exact Hr|]. split; [exact Hl|]. split; [exact Hn|exact Hstep].
Defined.

(** ** A running body is counted *)

Lemma counted_step {R} t s (p : Prog R) a s' p' :
  counted p → tstep t s p a s' p' →
  counted p' ∧ (∀ g, a = AGo g → counted g).
Proof.
  intros Hp Hs. destruct Hs; simpl in *;
    try (split; [by eauto|by intros ? [=]]).
  - destruct Hp. split; [done|]. by intros ? [= <-].
  - destruct Hp. split; [done|]. by intros ? [=].
Qed.

Lemma counted_loop ts : counted (bind (StartAll_loop ts) (λ r, MuUnlock (Ret r))).
Proof.
  induction ts as [|l ts IH]; simpl; [done|]. norm. simpl.
  split; [|exact IH]. unfold task_goroutine. norm. simpl. done.
Qed.

Ltac shape :=
  repeat first
    [ done
    | progress intros
    | split
    | progress norm
    | progress simpl
    | match goal with
      | |- context [match ?x with _ => _ end] => is_var x; destruct x; simpl
      end
    | case_decide ].

Lemma counted_call c : counted_thread (call_thread c).
Proof.
  destruct c; simpl.
  - unfold AddTask. shape.
  - unfold RemoveTask, WaitGroupWithTimeout. shape.
  - unfold StartAll. norm. simpl. intros ts. apply counted_loop.
  - unfold StopAll, WaitGroupWithTimeout. shape.
  - unfold Start, task_goroutine. shape.
  - unfold Stop, WaitGroupWithTimeout. shape.
Qed.

Lemma counted_reachable c :
  reachable c → ∀ t th, c.2 !! t = Some th → counted_thread th.
Proof.
  induction 1 as [|c who c' _ IH Hs]; [intros t th Hl; simpl in Hl; by destruct t|].
  assert (∀ pool t0 th0' a,
    (∀ t th, pool !! t = Some th → counted_thread th) →
    (t0 < length pool)%nat → counted_thread th0' →
    (∀ g, a = AGo g → counted g) →
    ∀ t th, (<[t0 := th0']> pool ++ spawned a) !! t = Some th → counted_thread th)
    as Hpool.
  { intros pool t0 th0' a Hall Hlt H0' Hg t th Hl.
    apply lookup_app_Some in Hl as [Hl|[_ Hl]].
    - destruct (decide (t = t0)) as [->|Hne].
      + rewrite list_lookup_insert_eq in Hl by done. by simplify_eq.
      + rewrite list_lookup_insert_ne in Hl by done. by eapply Hall.
    - apply spawned_lookup in Hl as (g & -> & ->). simpl. by apply Hg. }
  destruct Hs as [s pool t p a s' p' Hl Hs|s pool t p a s' p' Hl Hs
                 |s pool d Hd|s pool c]; simpl in *.
  - destruct (counted_step _ _ _ _ _ _ (IH _ _ Hl) Hs) as [Hp' Hg].
    apply (Hpool pool t (ThErr p') a IH); [by eapply lookup_lt_Some|exact Hp'|exact Hg].
  - destruct (counted_step _ _ _ _ _ _ (IH _ _ Hl) Hs) as [Hp' Hg].
    apply (Hpool pool t (ThUnit p') a IH); [by eapply lookup_lt_Some|exact Hp'|exact Hg].
  - exact IH.
  - intros t th Hl. apply lookup_app_Some in Hl as [Hl|[_ Hl]]; [by eapply IH|].
    apply singleton_lookup in Hl as ->. apply counted_call.
Qed.

Lemma sum_childWG_lookup (h : gmap loc taskWrapper) l w :
  (∀ l w, h !! l = Some w → 0 ≤ childWG w) →
  h !! l = Some w → childWG w ≤ sum_childWG h.
Proof.
  intros Hpos Hw. rewrite (sum_childWG_delete h l w Hw).
  assert (0 ≤ sum_childWG (delete l h)); [|lia].
  apply sum_childWG_nonneg. intros l' w' Hw'.
  apply lookup_delete_Some in Hw' as [_ Hw']. by eapply Hpos.
Qed.

(** X17.  In every reachable configuration only goroutines launched with [go]
    run task bodies, never the caller of a method; and while a goroutine is
    about to run or is running a body, the counter of its handle and the
    manager's counter are positive.  So when the manager's counter is zero no
    body is running, and when the counter of a handle is zero no body is
    running on that handle: the waits of [StopAll], [Stop] and [RemoveTask]
    cannot succeed too early. *)
Theorem running_body_is_counted s pool :
  reachable (s, pool) →
  (∀ t p, pool !! t = Some (ThErr p) → ¬ is_task_call p) ∧
  (∀ t f ctx k, pool !! t = Some (ThUnit (CallTask f ctx k)) →
     ∃ l k', k = WgDone (ChildWG l) (WgDone ParentWG k') ∧
       0 < counter s l ∧ 0 < parentWG (gm s)) ∧
  (parentWG (gm s) = 0 → ∀ t p, pool !! t = Some (ThUnit p) → ¬ is_task_call p) ∧
  (∀ l, counter s l = 0 → ∀ t f ctx k,
     pool !! t ≠ Some (ThUnit (CallTask f ctx (WgDone (ChildWG l) k)))).
Proof.
  intros Hreach.
  destruct (reachable_inv _ Hreach) as [Hwf _ Hthreads Hcount]. simpl in *.
  destruct (counter_books _ Hreach) as [_ Hbal]. simpl in *.
  pose proof (counted_reachable _ Hreach) as Hshape. simpl in *.
  assert (∀ t f ctx k, pool !! t = Some (ThUnit (CallTask f ctx k)) →
     ∃ l k', k = WgDone (ChildWG l) (WgDone ParentWG k') ∧
       0 < counter s l ∧ 0 < parentWG (gm s)) as Hbody.
  { intros t f ctx k Hl. pose proof (Hshape _ _ Hl) as [Hk _]. simpl in Hk.
    destruct k; try done. destruct w as [|l]; try done. destruct k; try done.
    destruct w; try done.
    exists l, k. split; [reflexivity|].
    pose proof (pool_owes_lookup owes_done owes_done_nonneg _ _ _ l Hl) as Hle.
    rewrite <- Hbal in Hle. simpl in Hle. unfold uow, ow in Hle. simpl in Hle.
    rewrite decide_True in Hle by done.
    split; [lia|]. unfold counter in Hle.
    destruct (heap s !! l) as [w|] eqn:Hw; simpl in Hle; [|lia].
    pose proof (sum_childWG_lookup _ _ _ (wf_childWG _ Hwf) Hw).
    pose proof (mid_pool_nonneg pool). lia. }
  split; [|split; [exact Hbody|split]].
  - intros t p Hl Hc. destruct (Hthreads _ _ Hl) as [[_ Hout]|[Hmu Hin]].
    + simpl in Hout. destruct Hout as [[r ->]|(k & -> & _)]; exact Hc.
    + simpl in Hin. by destruct (crit_not_task_call _ _ _ Hwf Hmu Hin).
  - intros Hz t p Hl Hc. destruct p; try done.
    destruct (Hbody _ _ _ _ Hl) as (_ & _ & _ & _ & ?). lia.
  - intros l Hz t f ctx k Hl.
    destruct (Hbody _ _ _ _ Hl) as (l' & k' & [= -> ->] & ? & _). lia.
Qed.

(** The body of "a" running while [Stop("a", 1000)] waits. *)
Lemma running_body_is_counted_witness :
  ∃ s pool,
    reachable (s, pool) ∧
    pool !! 4%nat =
      Some (ThUnit (CallTask 7%nat (cancelCtx 1 (cancelCtx 0 Background))
                      (WgDone (ChildWG 0%nat) (WgDone ParentWG (Ret ()))))) ∧
    0 < counter s 0%nat ∧ 0 < parentWG (gm s).
Proof.
  destruct stop_holds_mutex_config
    as (s & pool & k & Hs & _ & _ & _ & _ & _ & _ & H4 & _).
  assert (reachable (s, pool)) as Hr.
  { eapply reachable_steps; [apply reachable_calls|exact Hs]. }
  destruct (running_body_is_counted _ _ Hr) as (_ & Hbody & _).
  destruct (Hbody _ _ _ _ H4) as (l & k' & [= <- <-] & Hc & Hp).
  exists s, pool. split; [exact Hr|]. split; [exact H4|]. split; [exact Hc|exact Hp].
Defined.

(** ** Starting twice *)

(** X18.  [Start] does not look whether the task is already running: two calls
    of [Start(name)] in a row both return [nil] and launch two goroutines on
    the same handle, which share its context; the handle's counter and the
    manager's counter both go up by 2, and the registry is as before. *)
Theorem Start_is_reentrant t s name l w tr1 s1 r1 tr2 s2 r2 :
  tasks (gm s) !! name = Some l → heap s !! l = Some w →
  run t alone s (Start name) tr1 s1 r1 → run t alone s1 (Start name) tr2 s2 r2 →
  r1 = None ∧ r2 = None ∧
  launched (tr1 ++ tr2) = [task_goroutine l; task_goroutine l] ∧
  heap s2 !! l = Some (set_childWG (childWG w + 2) w) ∧
  parentWG (gm s2) = parentWG (gm s) + 2 ∧
  tasks (gm s2) = tasks (gm s).
Proof.
  intros Ht Hw H1 H2.
  unfold Start in H1. exec_alone. exec_alone.
  simpl in *. rewrite Ht in *. norm.
  exec_alone. exec_alone. exec_alone. exec_alone. exec_alone.
  repeat match goal with H : wg_get _ _ = Some _ |- _ => simpl in H end.
  match goal with H : childWG <$> _ !! l = Some ?m |- _ =>
    rewrite Hw in H; simpl in H; injection H as <- end.
  match goal with H : Some _ = Some ?n |- _ => injection H as <- end.
  unfold Start in H2. exec_alone. exec_alone.
  simpl in *. rewrite Ht in *. norm.
  exec_alone. exec_alone. exec_alone. exec_alone. exec_alone.
  repeat match goal with H : wg_get _ _ = Some _ |- _ => simpl in H end.
  match goal with H : childWG <$> _ !! l = Some ?m |- _ =>
    rewrite lookup_alter_eq, Hw in H; simpl in H; injection H as <- end.
  match goal with H : Some _ = Some ?n |- _ => injection H as <- end.
  split; [reflexivity|]. split; [reflexivity|]. split; [reflexivity|]. simpl.
  split.
  { rewrite !lookup_alter_eq, Hw. simpl. f_equal. unfold set_childWG. simpl. f_equal. lia. }
  split; [lia|reflexivity].
Qed.

Lemma Start_twice_run :
  ∃ tr1 s1 r1 tr2 s2 r2,
    run 0%nat alone two_tasks (Start "a") tr1 s1 r1 ∧
    run 0%nat alone s1 (Start "a") tr2 s2 r2.
Proof.
  eexists _, _, _, _, _, _. split.
  - solo.
  - solo.
Qed.

(** [Start("a")] twice on the manager with "a" and "b" registered. *)
Lemma Start_is_reentrant_witness :
  ∃ tr1 s1 r1 tr2 s2 r2,
    run 0%nat alone two_tasks (Start "a") tr1 s1 r1 ∧
    run 0%nat alone s1 (Start "a") tr2 s2 r2 ∧
    launched (tr1 ++ tr2) = [task_goroutine 0%nat; task_goroutine 0%nat] ∧
    parentWG (gm s2) = 2.
Proof.
  destruct Start_twice_run as (tr1 & s1 & r1 & tr2 & s2 & r2 & H1 & H2).
  destruct (Start_is_reentrant 0%nat two_tasks "a" 0%nat _ _ _ _ _ _ _ eq_refl eq_refl H1 H2)
    as (_ & _ & Hl & _ & Hp & _).
  exists tr1, s1, r1, tr2, s2, r2. split; [exact H1|]. split; [exact H2|].
  split; [exact Hl|exact Hp].
Defined.
